(** * tool_builder web UI utilities: [utils/rag.ts] and [utils/fileUtils.ts]

    A shallow embedding of the retrieval store and of the file processor,
    followed by the properties proved about them.

    Conventions of the embedding:
    - a JavaScript string is the list of its UTF-16 code units ([jsstring]);
    - a JavaScript number that the code only ever uses as an integer
      (lengths, indices, hashes, byte sizes, [Date.now()]) is a [Z];
    - the numbers of the similarity computations (embedding components,
      scores, the threshold) are real numbers: the rounding of binary64
      arithmetic is left out of the model;
    - what the host supplies ([Date.now()], [Math.random()], the outcome of a
      [FileReader], Unicode lower-casing) is an explicit input. *)

From Stdlib Require Import ZArith List Bool Lia String Ascii DecimalString.
From Stdlib Require Import Reals Lra Sorted Permutation.
Import ListNotations.

#[local] Open Scope Z_scope.

(* ===================================================================== *)
(** * Part I: definitions                                                  *)
(* ===================================================================== *)

(** ** Host values and built-ins *)

Module JS.

Definition jsstring := list Z.

(** The code units of an ASCII literal of the source. *)
Definition units (s : string) : jsstring :=
  map (fun a => Z.of_N (N_of_ascii a)) (list_ascii_of_string s).

Definition LF : jsstring := [10].
Definition QUOTE : jsstring := [34].

Definition string_eq_dec : forall a b : jsstring, {a = b} + {a <> b} :=
  list_eq_dec Z.eq_dec.

Definition eqb (a b : jsstring) : bool :=
  if string_eq_dec a b then true else false.

(** [s.length] *)
Definition String_length (s : jsstring) : Z := Z.of_nat (List.length s).

(** Template-literal rendering of an integer-valued number. *)
Definition Number_toString (z : Z) : jsstring :=
  units (NilZero.string_of_int (Z.to_int z)).

(** The characters matched by [\s] and removed by [trim()]: the WhiteSpace
    and LineTerminator code points of ECMAScript. *)
Definition isWhiteSpace (c : Z) : bool :=
  ((9 <=? c) && (c <=? 13)) || (c =? 32) || (c =? 160) || (c =? 5760)
  || ((8192 <=? c) && (c <=? 8202)) || (c =? 8232) || (c =? 8233)
  || (c =? 8239) || (c =? 8287) || (c =? 12288) || (c =? 65279).

Fixpoint dropWhile {A} (p : A -> bool) (l : list A) : list A :=
  match l with
  | [] => []
  | x :: l' => if p x then dropWhile p l' else l
  end.

(** [s.trim()] *)
Definition trim (s : jsstring) : jsstring :=
  rev (dropWhile isWhiteSpace (rev (dropWhile isWhiteSpace s))).

(** [s.split(/\s+/)]: the pieces between maximal runs of white space.  The
    flag tells whether the previous code unit was white space; the head of
    the result is the piece under construction.  The result is never empty:
    the empty string splits into one empty piece, and leading or trailing
    white space yields an empty first or last piece. *)
Fixpoint split_from (prev_ws : bool) (s : jsstring) : list jsstring :=
  match s with
  | [] => [[]]
  | c :: s' =>
      if isWhiteSpace c then
        if prev_ws then split_from true s' else [] :: split_from true s'
      else
        match split_from false s' with
        | piece :: rest => (c :: piece) :: rest
        | [] => [[c]]
        end
  end.

Definition split_ws (s : jsstring) : list jsstring := split_from false s.

(** [s.split(sep)] for a one-unit separator. *)
Fixpoint split_on (sep : Z) (s : jsstring) : list jsstring :=
  match s with
  | [] => [[]]
  | c :: s' =>
      if c =? sep then [] :: split_on sep s'
      else
        match split_on sep s' with
        | piece :: rest => (c :: piece) :: rest
        | [] => [[c]]
        end
  end.

(** [s.startsWith(p)], also the test of an anchored literal prefix. *)
Fixpoint startsWith (s p : jsstring) : bool :=
  match p, s with
  | [], _ => true
  | _ :: _, [] => false
  | a :: p', b :: s' => (a =? b) && startsWith s' p'
  end.

(** [s.substr(start, len)] for non-negative arguments. *)
Definition substr (s : jsstring) (start len : nat) : jsstring :=
  firstn len (skipn start s).

(** An index argument of [slice], made relative to a length. *)
Definition relative_index (len i : Z) : Z :=
  if i <? 0 then Z.max (len + i) 0 else Z.min i len.

(** [x.slice(start, end)] on strings and arrays. *)
Definition slice {A} (l : list A) (start stop : Z) : list A :=
  let len := Z.of_nat (List.length l) in
  let from := relative_index len start in
  let to := relative_index len stop in
  firstn (Z.to_nat (to - from)) (skipn (Z.to_nat from) l).

(** [pieces.join(sep)] *)
Fixpoint join (sep : jsstring) (pieces : list jsstring) : jsstring :=
  match pieces with
  | [] => []
  | [p] => p
  | p :: rest => p ++ sep ++ join sep rest
  end.

(** [xs.map((x, index) => f(x, index))] *)
Fixpoint mapi_from {A B} (f : A -> Z -> B) (index : Z) (l : list A) : list B :=
  match l with
  | [] => []
  | x :: l' => f x index :: mapi_from f (index + 1) l'
  end.

Definition mapi {A B} (f : A -> Z -> B) (l : list A) : list B :=
  mapi_from f 0 l.

(** [xs.sort(cmp)].  [after a b] stands for [cmp(a, b) > 0].  The sort of
    the language is stable, so for a consistent comparator its result is the
    one of a stable insertion sort. *)
Fixpoint sort_insert {A} (after : A -> A -> bool) (x : A) (l : list A) : list A :=
  match l with
  | [] => [x]
  | y :: l' => if after x y then y :: sort_insert after x l' else x :: l
  end.

Definition sort {A} (after : A -> A -> bool) (l : list A) : list A :=
  fold_right (sort_insert after) [] l.

(** 32-bit integer conversions and operators. *)
Definition ToInt32 (x : Z) : Z := (x + 2 ^ 31) mod 2 ^ 32 - 2 ^ 31.

(** [a << n] *)
Definition Int32_shl (a n : Z) : Z :=
  ToInt32 (Z.shiftl (ToInt32 a) (Z.land n 31)).

(** [a & b] *)
Definition Int32_and (a b : Z) : Z :=
  ToInt32 (Z.land (ToInt32 a) (ToInt32 b)).

(** [Map<string, V>]: the entries in insertion order, keys pairwise
    distinct.  [set] on a key already present replaces the value in place. *)
Definition Map (V : Type) := list (jsstring * V).

Fixpoint Map_set {V} (k : jsstring) (v : V) (m : Map V) : Map V :=
  match m with
  | [] => [(k, v)]
  | (k', v') :: m' =>
      if string_eq_dec k k' then (k, v) :: m' else (k', v') :: Map_set k v m'
  end.

Fixpoint Map_delete {V} (k : jsstring) (m : Map V) : Map V :=
  match m with
  | [] => []
  | (k', v') :: m' =>
      if string_eq_dec k k' then m' else (k', v') :: Map_delete k m'
  end.

Fixpoint Map_get {V} (k : jsstring) (m : Map V) : option V :=
  match m with
  | [] => None
  | (k', v') :: m' => if string_eq_dec k k' then Some v' else Map_get k m'
  end.

Definition Map_has {V} (k : jsstring) (m : Map V) : bool :=
  match Map_get k m with Some _ => true | None => false end.

Definition Map_size {V} (m : Map V) : Z := Z.of_nat (List.length m).

Definition Map_values {V} (m : Map V) : list V := map snd m.

Definition Map_keys {V} (m : Map V) : list jsstring := map fst m.

(** [s.includes(sub)]: [sub] occurs somewhere in [s]. *)
Fixpoint includes (s sub : jsstring) : bool :=
  startsWith s sub
  || match s with
     | [] => false
     | _ :: s' => includes s' sub
     end.

(** [xs.filter((x, index) => keep(x, index))] *)
Fixpoint filteri_from {A} (keep : A -> Z -> bool) (index : Z) (l : list A)
    : list A :=
  match l with
  | [] => []
  | x :: l' =>
      if keep x index then x :: filteri_from keep (index + 1) l'
      else filteri_from keep (index + 1) l'
  end.

Definition filteri {A} (keep : A -> Z -> bool) (l : list A) : list A :=
  filteri_from keep 0 l.

(** The part of the host that is a function of its argument alone. *)
Class Host := {
  (** [s.toLowerCase()] *)
  toLowerCase : jsstring -> jsstring
}.

(** Lower-casing of the letters A to Z: what [toLowerCase] does on a string
    of ASCII characters. *)
Definition asciiLower (s : jsstring) : jsstring :=
  map (fun c => if (65 <=? c) && (c <=? 90) then c + 32 else c) s.

Definition AsciiHost : Host := {| toLowerCase := asciiLower |}.

(** A string that is empty or made of white space only. *)
Definition blank (s : jsstring) : Prop :=
  Forall (fun c => isWhiteSpace c = true) s.

(** Lower-casing leaves white space alone (no white-space character has a
    case mapping). *)
Definition lowercase_keeps_blank (H : Host) : Prop :=
  forall s, blank s -> toLowerCase s = s.

End JS.

(** ** [utils/rag.ts] *)

Module Rag.
Import JS.

Record Metadata := {
  source : option jsstring;
  type : option jsstring;
  timestamp : option Z;
  size : option Z
}.

Record Document := {
  id : jsstring;
  title : jsstring;
  content : jsstring;
  embedding : option (list R);
  metadata : option Metadata
}.

(** The argument of [addDocument]: a [Document] without [id] and
    [embedding]. *)
Record NewDocument := {
  new_title : jsstring;
  new_content : jsstring;
  new_metadata : option Metadata
}.

Record RAGConfig := {
  maxDocuments : Z;
  chunkSize : Z;
  chunkOverlap : Z;
  similarityThreshold : R;
  maxRetrievedDocs : Z
}.

Definition DEFAULT_RAG_CONFIG : RAGConfig := {|
  maxDocuments := 1000;
  chunkSize := 1000;
  chunkOverlap := 200;
  similarityThreshold := (5 / 10)%R;
  maxRetrievedDocs := 5
|}.

(** *** chunkText *)

(** One turn of the [while] loop, entered with [start < text.length]:
    either the loop goes on with a new [start], or it is left by [break]. *)
Inductive LoopStep :=
| Continue (start : Z) (chunks : list jsstring)
| Break (chunks : list jsstring).

Definition chunkBody (text : jsstring) (chunkSize overlap : Z)
    (start : Z) (chunks : list jsstring) : LoopStep :=
  let stop := Z.min (start + chunkSize) (String_length text) in
  let chunks := chunks ++ [slice text start stop] in
  if stop =? String_length text then Break chunks
  else Continue (stop - overlap) chunks.

(** The loop, run for at most [fuel] turns; [None] when the fuel is used up
    before the loop ends. *)
Fixpoint chunkLoop (fuel : nat) (text : jsstring) (chunkSize overlap : Z)
    (start : Z) (chunks : list jsstring) : option (list jsstring) :=
  match fuel with
  | O => None
  | S fuel' =>
      if start <? String_length text then
        match chunkBody text chunkSize overlap start chunks with
        | Break chunks' => Some chunks'
        | Continue start' chunks' =>
            chunkLoop fuel' text chunkSize overlap start' chunks'
        end
      else Some chunks
  end.

Definition chunkText (fuel : nat) (text : jsstring) (chunkSize overlap : Z)
    : option (list jsstring) :=
  chunkLoop fuel text chunkSize overlap 0 [].

(** *** generateSimpleEmbedding *)

(** [hash = ((hash << 5) - hash + word.charCodeAt(i)) & 0xffffffff] *)
Definition hashStep (hash charCode : Z) : Z :=
  Int32_and (Int32_shl hash 5 - hash + charCode) 4294967295.

Definition hashWord (word : jsstring) : Z := fold_left hashStep word 0.

(** [Math.abs(hash) % embedding.length]; [%] truncates. *)
Definition bucketIndex (word : jsstring) (dimension : Z) : Z :=
  Z.rem (Z.abs (hashWord word)) dimension.

(** [embedding[index] += 1]; the index is always within the array. *)
Fixpoint increment (embedding : list R) (index : nat) : list R :=
  match embedding, index with
  | [], _ => []
  | v :: rest, O => (v + 1)%R :: rest
  | v :: rest, S index' => v :: increment rest index'
  end.

Definition countWords (words : list jsstring) (embedding : list R) : list R :=
  fold_left
    (fun embedding word =>
       increment embedding
         (Z.to_nat (bucketIndex word (Z.of_nat (List.length embedding)))))
    words embedding.

(** [embedding.reduce((sum, val) => sum + val * val, 0)] *)
Definition sumSquares (embedding : list R) : R :=
  fold_left (fun sum val => (sum + val * val)%R) embedding 0%R.

Definition normalize (embedding : list R) : list R :=
  let magnitude := sqrt (sumSquares embedding) in
  if Rlt_dec 0 magnitude then map (fun v => (v / magnitude)%R) embedding
  else embedding.

Section WithHost.
Context {host : Host}.

Definition generateSimpleEmbedding (text : jsstring) : list R :=
  let embedding := repeat 0%R 100 in
  let words := split_ws (toLowerCase text) in
  normalize (countWords words embedding).

(** *** calculateSimpleSimilarity *)

Definition calculateSimpleSimilarity (query document : jsstring) : R :=
  let queryTerms := split_ws (toLowerCase query) in
  let docTerms := split_ws (toLowerCase document) in
  let matches :=
    List.length
      (filter (fun term => existsb (JS.eqb term) docTerms) queryTerms) in
  if (0 <? Z.of_nat (List.length queryTerms))
  then (INR matches / INR (List.length queryTerms))%R
  else 0%R.

End WithHost.

(** *** cosineSimilarity

    The sums, the square roots and the quotient are those of the real
    numbers.  The code computes them in binary64: its result is this one up
    to rounding (for the vector [1, 1] and itself it is 0.9999999999999998,
    not 1), and for components so large or so small that a square
    overflows or underflows it is [NaN] or 0.  The properties stated of this
    function below are those that hold of the rounded computation as well. *)

Definition cosineSimilarity (a b : list R) : R :=
  if Nat.eqb (List.length a) (List.length b) then
    let '(dotProduct, normA, normB) :=
      fold_left
        (fun '(dotProduct, normA, normB) '(x, y) =>
           ((dotProduct + x * y)%R, (normA + x * x)%R, (normB + y * y)%R))
        (combine a b) (0%R, 0%R, 0%R) in
    if Rlt_dec 0 (normA * normB)
    then (dotProduct / (sqrt normA * sqrt normB))%R
    else 0%R
  else 0%R.

(** *** RAGStore *)

Record RAGStore := {
  documents : Map Document;
  config : RAGConfig
}.

Definition newStore (config : RAGConfig) : RAGStore :=
  {| documents := []; config := config |}.

(** What one call of [addDocument] reads from the host: the two values of
    [Date.now()] and the string [Math.random().toString(36)]. *)
Record Entropy := {
  now_for_id : Z;
  random36 : jsstring;
  now_for_timestamp : Z
}.

Definition makeId (e : Entropy) : jsstring :=
  units "doc_" ++ Number_toString (now_for_id e) ++ units "_"
  ++ substr (random36 e) 2 9.

(** [doc.metadata?.timestamp || 0] *)
Definition timestampOrZero (doc : Document) : Z :=
  match metadata doc with
  | Some m => match timestamp m with Some t => t | None => 0 end
  | None => 0
  end.

(** [doc.metadata?.size || 0] *)
Definition sizeOrZero (doc : Document) : Z :=
  match metadata doc with
  | Some m => match size m with Some n => n | None => 0 end
  | None => 0
  end.

(** The comparator of the eviction sort, as [cmp(a, b) > 0]. *)
Definition olderFirst (a b : jsstring * Document) : bool :=
  0 <? timestampOrZero (snd a) - timestampOrZero (snd b).

(** The entry removed when the store is over its capacity. *)
Definition oldestEntry (entries : Map Document) : option (jsstring * Document) :=
  match sort olderFirst entries with
  | [] => None
  | entry :: _ => Some entry
  end.

Section WithHost.
Context {host : Host}.

Definition storedDocument (e : Entropy) (doc : NewDocument) : Document :=
  let inherited :=
    match new_metadata doc with
    | Some m => m
    | None => {| source := None; type := None; timestamp := None; size := None |}
    end in
  {| id := makeId e;
     title := new_title doc;
     content := new_content doc;
     embedding := Some (generateSimpleEmbedding (new_content doc));
     metadata := Some {| source := source inherited;
                         type := type inherited;
                         timestamp := Some (now_for_timestamp e);
                         size := Some (String_length (new_content doc)) |} |}.

Definition addDocument (store : RAGStore) (e : Entropy) (doc : NewDocument)
    : RAGStore * jsstring :=
  let id := makeId e in
  let document := storedDocument e doc in
  let docs := Map_set id document (documents store) in
  let docs :=
    if maxDocuments (config store) <? Map_size docs then
      match oldestEntry docs with
      | Some (oldestId, _) => Map_delete oldestId docs
      | None => docs
      end
    else docs in
  ({| documents := docs; config := config store |}, id).

End WithHost.

Definition removeDocument (store : RAGStore) (id : jsstring) : RAGStore * bool :=
  ({| documents := Map_delete id (documents store); config := config store |},
   Map_has id (documents store)).

Definition getAllDocuments (store : RAGStore) : list Document :=
  Map_values (documents store).

Definition clear (store : RAGStore) : RAGStore :=
  {| documents := []; config := config store |}.

Definition getStats (store : RAGStore) : Z * Z :=
  let docs := Map_values (documents store) in
  (Z.of_nat (List.length docs),
   fold_left (fun sum doc => sum + sizeOrZero doc) docs 0).

Section WithHost.
Context {host : Host}.

(** The score of one stored document against a query. *)
Definition scoreDocument (query : jsstring) (queryEmbedding : list R)
    (doc : Document) : R :=
  match embedding doc with
  | Some e => cosineSimilarity queryEmbedding e
  | None => calculateSimpleSimilarity query (content doc)
  end.

(** The comparator of the result sort, as [cmp(a, b) > 0]. *)
Definition higherFirst (a b : Document * R) : bool :=
  if Rlt_dec 0 (snd b - snd a) then true else false.

(** [searchDocuments(query)]: the texts whose embedding was computed during
    the call, and the documents returned. *)
Definition searchDocuments (store : RAGStore) (query : jsstring)
    : list jsstring * list Document :=
  match trim query with
  | [] => ([], [])
  | _ :: _ =>
      let queryEmbedding := generateSimpleEmbedding query in
      let results :=
        flat_map
          (fun doc =>
             let score := scoreDocument query queryEmbedding doc in
             if Rge_dec score (similarityThreshold (config store))
             then [(doc, score)] else [])
          (Map_values (documents store)) in
      ([query],
       map fst (slice (sort higherFirst results) 0
                      (maxRetrievedDocs (config store))))
  end.

End WithHost.

(** *** generateContext *)

Definition generateContext (documents : list Document) : jsstring :=
  if Z.of_nat (List.length documents) =? 0 then []
  else
    let context :=
      join (LF ++ LF ++ units "---" ++ LF ++ LF)
        (mapi (fun doc index =>
                 units "Document " ++ Number_toString (index + 1)
                 ++ units " (" ++ title doc ++ units "):" ++ LF
                 ++ content doc)
              documents) in
    units "Context from " ++ Number_toString (Z.of_nat (List.length documents))
    ++ units " relevant document(s):" ++ LF ++ LF ++ context.

End Rag.

(** ** [utils/fileUtils.ts] *)

Module FileUtils.
Import JS.

Definition MAX_FILE_SIZE : Z := 10 * 1024 * 1024.

(** The regular expressions of [TEXT_FILE_PATTERNS] are of two shapes: an
    anchored prefix, and an anchored prefix followed by one of several
    alternatives and the end of the input. *)
Inductive Pattern :=
| Prefix (prefix : jsstring)
| Exactly (prefix : jsstring) (alternatives : list jsstring).

(** [pattern.test(s)] *)
Definition test (pattern : Pattern) (s : jsstring) : bool :=
  match pattern with
  | Prefix prefix => startsWith s prefix
  | Exactly prefix alternatives =>
      existsb (fun alt => JS.eqb s (prefix ++ alt)) alternatives
  end.

Definition TEXT_FILE_PATTERNS : list Pattern :=
  [ Prefix (units "text/");
    Exactly (units "application/")
      (map units ["javascript"; "json"; "xml"; "yaml"]);
    Exactly (units "application/x-")
      (map units ["python"; "java"; "c"; "cpp"; "csharp"; "php"; "ruby";
                  "perl"; "shell"; "sh"]);
    Exactly (units "application/") (map units ["toml"; "ini"]) ]%string.

Definition isTextMimeType (mimeType : jsstring) : bool :=
  existsb (fun pattern => test pattern mimeType) TEXT_FILE_PATTERNS.

(** The table of [getMimeTypeFromExtension]. *)
Definition mimeTypes : list (jsstring * jsstring) :=
  map (fun '(ext, mime) => (units ext, units mime))
  [ ("txt", "text/plain"); ("md", "text/markdown"); ("html", "text/html");
    ("htm", "text/html"); ("css", "text/css"); ("csv", "text/csv");
    ("rtf", "text/rtf");
    ("js", "application/javascript"); ("mjs", "application/javascript");
    ("json", "application/json"); ("py", "text/x-python");
    ("java", "text/x-java"); ("c", "text/x-c"); ("cpp", "text/x-c++");
    ("cc", "text/x-c++"); ("cxx", "text/x-c++"); ("h", "text/x-c");
    ("hpp", "text/x-c++"); ("cs", "text/x-csharp"); ("php", "text/x-php");
    ("rb", "text/x-ruby"); ("pl", "text/x-perl"); ("sh", "application/x-sh");
    ("bash", "application/x-sh"); ("zsh", "application/x-sh");
    ("fish", "application/x-sh"); ("sql", "text/x-sql");
    ("xml", "application/xml"); ("yaml", "application/yaml");
    ("yml", "application/yaml"); ("toml", "application/toml");
    ("ini", "text/plain"); ("cfg", "text/plain"); ("conf", "text/plain");
    ("log", "text/plain");
    ("ts", "application/typescript"); ("tsx", "application/typescript");
    ("svg", "image/svg+xml");
    ("jpg", "image/jpeg"); ("jpeg", "image/jpeg"); ("png", "image/png");
    ("gif", "image/gif"); ("webp", "image/webp"); ("bmp", "image/bmp");
    ("ico", "image/x-icon");
    ("pdf", "application/pdf"); ("doc", "application/msword");
    ("docx", "application/vnd.openxmlformats-officedocument.wordprocessingml.document");
    ("xls", "application/vnd.ms-excel");
    ("xlsx", "application/vnd.openxmlformats-officedocument.spreadsheetml.sheet");
    ("ppt", "application/vnd.ms-powerpoint");
    ("pptx", "application/vnd.openxmlformats-officedocument.presentationml.presentation");
    ("zip", "application/zip"); ("rar", "application/x-rar-compressed");
    ("7z", "application/x-7z-compressed"); ("tar", "application/x-tar");
    ("gz", "application/gzip");
    ("mp3", "audio/mpeg"); ("wav", "audio/wav"); ("ogg", "audio/ogg");
    ("mp4", "video/mp4"); ("avi", "video/x-msvideo");
    ("mov", "video/quicktime"); ("webm", "video/webm") ]%string.

Definition textExtensions : list jsstring :=
  map units
  [ "txt"; "md"; "html"; "htm"; "css"; "csv"; "rtf";
    "js"; "mjs"; "json"; "py"; "java"; "c"; "cpp"; "cc"; "cxx"; "h"; "hpp";
    "cs"; "php"; "rb"; "pl"; "sh"; "bash"; "zsh"; "fish"; "sql"; "xml";
    "yaml"; "yml"; "toml"; "ini"; "cfg"; "conf"; "log"; "ts"; "tsx" ]%string.

Section WithHost.
Context {host : Host}.

(** [filename.split('.').pop()?.toLowerCase()]: the piece after the last
    dot, the whole name when it has no dot. *)
Definition extensionOf (filename : jsstring) : jsstring :=
  toLowerCase (last (split_on 46 filename) []).

(** [mimeTypes[ext || ''] || 'application/octet-stream'], for the extensions
    of the table and for those that name no property of the object at all.
    For an extension that names a property every object inherits
    ([constructor], [__proto__]), the engine finds that property, not a
    string, and the code returns it; the model gives the default there.  No
    pattern of [TEXT_FILE_PATTERNS] matches the text of such a property, as
    none matches the default, so the classification of a file is the same;
    the value itself is not stated of such names below. *)
Definition getMimeTypeFromExtension (filename : jsstring) : jsstring :=
  match Map_get (extensionOf filename) mimeTypes with
  | Some ((_ :: _) as mime) => mime
  | _ => units "application/octet-stream"
  end.

(** [textExtensions.includes(ext || '')] *)
Definition isTextFileExtension (filename : jsstring) : bool :=
  existsb (JS.eqb (extensionOf filename)) textExtensions.

End WithHost.

(** What a [FileReader] delivers for one read: a [load] event with its
    [result] (possibly [null]), or an [error] event. *)
Inductive ReadEvent :=
| Load (result : option jsstring)
| ReadError.

(** A [File]: its name, declared MIME type and byte size, and what reading
    it as text and as a data URL will deliver. *)
Record File := {
  name : jsstring;
  type : jsstring;
  size : Z;
  asText : ReadEvent;
  asDataURL : ReadEvent
}.

(** [MessageExtraTextFile] and [MessageExtraFile], as [processFile] builds
    them; the [content] of the latter is [undefined] when the data URL has
    no comma. *)
Inductive MessageExtra :=
| TextFile (name content : jsstring)
| BinaryFile (name mimeType : jsstring) (size : Z)
    (content : option jsstring) (isText : bool).

Inductive ReadOp := ReadAsText | ReadAsDataURL.

(** A promise that has settled: the reads started on the way, and either the
    value or the message of the [Error] it was rejected with. *)
Definition Async (A : Type) : Type := list ReadOp * (A + jsstring).

Definition resolve {A} (a : A) : Async A := ([], inl a).

Definition throw {A} (message : jsstring) : Async A := ([], inr message).

Definition await {A B} (m : Async A) (k : A -> Async B) : Async B :=
  match m with
  | (reads, inl a) => let '(reads', r) := k a in (reads ++ reads', r)
  | (reads, inr message) => (reads, inr message)
  end.

Definition try_catch {A} (m : Async A) (handler : jsstring -> Async A) : Async A :=
  match m with
  | (reads, inr message) =>
      let '(reads', r) := handler message in (reads ++ reads', r)
  | _ => m
  end.

Notation "x <- m ;; k" := (await m (fun x => k))
  (at level 61, m at next level, right associativity).

(** [event.target?.result] is used when it is truthy: not [null] and not
    the empty string. *)
Definition readFileAsText (file : File) : Async jsstring :=
  ([ReadAsText],
   match asText file with
   | Load (Some ((_ :: _) as result)) => inl result
   | Load _ => inr (units "Failed to read file")
   | ReadError => inr (units "File reading error")
   end).

Definition readFileAsBase64 (file : File) : Async (option jsstring) :=
  ([ReadAsDataURL],
   match asDataURL file with
   | Load (Some ((_ :: _) as result)) => inl (nth_error (split_on 44 result) 1)
   | Load _ => inr (units "Failed to read file")
   | ReadError => inr (units "File reading error")
   end).

(** [Math.round(n / d)] for integers [n >= 0] and [d > 0]. *)
Definition Math_round_ratio (n d : Z) : Z := (2 * n + d) / (2 * d).

Section WithHost.
Context {host : Host}.

(** [file.type || getMimeTypeFromExtension(file.name)] *)
Definition resolvedMimeType (file : File) : jsstring :=
  match type file with
  | [] => getMimeTypeFromExtension (name file)
  | _ :: _ => type file
  end.

Definition processFile (file : File) : Async MessageExtra :=
  if MAX_FILE_SIZE <? size file then
    throw (units "File " ++ QUOTE ++ name file ++ QUOTE
           ++ units " is too large. Maximum size is "
           ++ Number_toString (Math_round_ratio MAX_FILE_SIZE (1024 * 1024))
           ++ units "MB.")
  else
    let mimeType := resolvedMimeType file in
    let isText := isTextMimeType mimeType || isTextFileExtension (name file) in
    try_catch
      (if isText then
         try_catch
           (textContent <- readFileAsText file ;;
            resolve (TextFile (name file) textContent))
           (fun _ =>
              base64Content <- readFileAsBase64 file ;;
              resolve (BinaryFile (name file) mimeType (size file)
                                  base64Content true))
       else
         base64Content <- readFileAsBase64 file ;;
         resolve (BinaryFile (name file) mimeType (size file)
                             base64Content false))
      (fun message =>
         throw (units "Failed to process file " ++ QUOTE ++ name file
                ++ QUOTE ++ units ": " ++ message)).

End WithHost.

(** *** formatFileSize

    [bytes] is a byte count: an integer.  The logarithms, the division and
    the rounding of the source are computed on integers: for a byte count
    below 2^53 the quotient [bytes / k^i] is exact and [toFixed(1)] rounds
    its exact value; for a byte count below 1024^4, the range of the four
    units, [Math.floor(Math.log(bytes) / Math.log(k))] is the number of
    whole factors [k = 2^10] in [bytes].  (Far beyond that range the
    quotient of the two binary64 logarithms can round up to the next
    integer just below a power of 1024, as at 2^50 - 1; only the missing
    unit is stated of such counts.) *)

Definition sizes : list jsstring := map units ["B"; "KB"; "MB"; "GB"]%string.

(** [Math.floor(Math.log(bytes) / Math.log(1024))] for [1 <= bytes < 1024^4]. *)
Definition floorLog1024 (bytes : Z) : Z := Z.log2 bytes / 10.

(** The integer [n] for which [n / 10] is closest to [num / den], the larger
    one when two are as close. *)
Definition roundTenths (num den : Z) : Z := (20 * num + den) / (2 * den).

(** [(num / den).toFixed(1)] *)
Definition toFixed1 (num den : Z) : jsstring :=
  let n := roundTenths num den in
  Number_toString (n / 10) ++ units "." ++ Number_toString (n mod 10).

(** [parseFloat(s) + ''] for [s] written by [toFixed(1)]: the number prints
    in its shortest form, without a fractional part that is zero. *)
Definition parseFloat_toString (s : jsstring) : jsstring :=
  match rev s with
  | 48 :: 46 :: whole => rev whole
  | _ => s
  end.

Definition formatFileSize (bytes : Z) : jsstring :=
  if bytes =? 0 then units "0 B"
  else if bytes <? 0 then units "NaN undefined"
  else
    let k := 1024 in
    let i := floorLog1024 bytes in
    parseFloat_toString (toFixed1 bytes (k ^ i)) ++ units " "
    ++ nth (Z.to_nat i) sizes (units "undefined").

(** *** getFileCategory *)

Definition getFileCategory (mimeType : jsstring) : jsstring :=
  if startsWith mimeType (units "image/") then units "Image"
  else if startsWith mimeType (units "video/") then units "Video"
  else if startsWith mimeType (units "audio/") then units "Audio"
  else if startsWith mimeType (units "text/") || isTextMimeType mimeType
  then units "Text"
  else if includes mimeType (units "pdf") then units "PDF"
  else if includes mimeType (units "word")
          || includes mimeType (units "document")
  then units "Document"
  else if includes mimeType (units "sheet")
          || includes mimeType (units "excel")
  then units "Spreadsheet"
  else if includes mimeType (units "presentation")
          || includes mimeType (units "powerpoint")
  then units "Presentation"
  else if includes mimeType (units "zip")
          || includes mimeType (units "archive")
          || includes mimeType (units "compressed")
  then units "Archive"
  else units "File".

End FileUtils.

(** ** The chat screen: how the selected files are handled

    The component keeps the files picked by the user in [selectedFiles];
    [sendNewMessage] turns them into attachments before it sends. *)

Module ChatScreen.
Import JS.

(** [files.filter((_, index) => index !== indexToRemove)] *)
Definition removeFile {A} (selectedFiles : list A) (indexToRemove : Z) : list A :=
  filteri (fun _ index => negb (index =? indexToRemove)) selectedFiles.

Definition clearAllFiles {A} (selectedFiles : list A) : list A := [].

Section WithHost.
Context {host : Host}.

(** The [for] loop of [sendNewMessage] over the selected files, from given
    [fileExtras] and [processingErrors]: every file is processed; what
    [processFile] returns is pushed on the first array, the message of what
    it throws on the second.  The reads started come first in the result. *)
Fixpoint processSelectedFiles (selectedFiles : list FileUtils.File)
    (fileExtras : list FileUtils.MessageExtra)
    (processingErrors : list jsstring)
    : list FileUtils.ReadOp * (list FileUtils.MessageExtra * list jsstring) :=
  match selectedFiles with
  | [] => ([], (fileExtras, processingErrors))
  | file :: rest =>
      match FileUtils.processFile file with
      | (reads, inl fileExtra) =>
          let '(reads', result) :=
            processSelectedFiles rest (fileExtras ++ [fileExtra])
                                 processingErrors in
          (reads ++ reads', result)
      | (reads, inr errorMessage) =>
          let '(reads', result) :=
            processSelectedFiles rest fileExtras
                                 (processingErrors ++ [errorMessage]) in
          (reads ++ reads', result)
      end
  end.

End WithHost.

(** The text of the [alert] for one or more errors. *)
Definition errorSummary (processingErrors : list jsstring) : jsstring :=
  if Z.of_nat (List.length processingErrors) =? 1
  then nth 0 processingErrors []
  else units "Failed to process "
       ++ Number_toString (Z.of_nat (List.length processingErrors))
       ++ units " file(s):" ++ LF ++ join LF processingErrors.

(** How the file stage of [sendNewMessage] ends: what was shown in an
    [alert], if anything, and either the attachments to send with the
    message or the return that restores the input. *)
Inductive FileStage :=
| Proceed (alert : option jsstring) (fileExtras : list FileUtils.MessageExtra)
| RestoreInput (alert : jsstring).

Section WithHost.
Context {host : Host}.

Definition fileStage (selectedFiles : list FileUtils.File)
    : list FileUtils.ReadOp * FileStage :=
  let '(reads, (fileExtras, processingErrors)) :=
    processSelectedFiles selectedFiles [] [] in
  if 0 <? Z.of_nat (List.length processingErrors) then
    let errorSummary := errorSummary processingErrors in
    if (Z.of_nat (List.length fileExtras) =? 0)
       && (0 <? Z.of_nat (List.length selectedFiles))
    then (reads, RestoreInput errorSummary)
    else (reads, Proceed (Some errorSummary) fileExtras)
  else (reads, Proceed None fileExtras).

(** [sendNewMessage] up to its call of [sendMessage]: for a message that is
    blank, or while a generation is running, it returns at once ([None]);
    otherwise the file stage follows. *)
Definition sendNewMessage (lastInpMsg : jsstring) (isGenerating : bool)
    (selectedFiles : list FileUtils.File)
    : list FileUtils.ReadOp * option FileStage :=
  if (String_length (trim lastInpMsg) =? 0) || isGenerating then ([], None)
  else
    let '(reads, stage) := fileStage selectedFiles in
    (reads, Some stage).

End WithHost.

End ChatScreen.

(** ** What the properties are stated with: the reference formulations of
    the specification, and the histories of a store *)

Module Spec.
Import JS.

(** "mod 2^32 (signed 32-bit wraparound semantics)" *)
Definition wrapSigned32 (x : Z) : Z :=
  let u := x mod 2 ^ 32 in
  if u <? 2 ^ 31 then u else u - 2 ^ 32.

(** "hash = (hash*31 + charCode) mod 2^32", over the characters of a token *)
Definition rollingHash (token : jsstring) : Z :=
  fold_left (fun hash charCode => wrapSigned32 (hash * 31 + charCode)) token 0.

(** "map abs(hash) mod dimensionality to a vector index" *)
Definition vectorIndex (token : jsstring) (dimensionality : Z) : Z :=
  Z.abs (rollingHash token) mod dimensionality.

(** "Document i (<title>):" and the document's full content on the
    following lines *)
Definition block (i : Z) (title content : jsstring) : jsstring :=
  units "Document " ++ Number_toString i ++ units " (" ++ title ++ units "):"
  ++ LF ++ content.

(** The blocks of the documents, numbered from [i]; between two blocks an
    empty line, a line "---" and an empty line. *)
Fixpoint blocks (i : Z) (docs : list (jsstring * jsstring)) : jsstring :=
  match docs with
  | [] => []
  | (title, content) :: rest =>
      match rest with
      | [] => block i title content
      | _ :: _ =>
          block i title content ++ LF ++ LF ++ units "---" ++ LF ++ LF
          ++ blocks (i + 1) rest
      end
  end.

(** The context string for documents given by title and content. *)
Definition contextString (docs : list (jsstring * jsstring)) : jsstring :=
  match docs with
  | [] => []
  | _ :: _ =>
      units "Context from " ++ Number_toString (Z.of_nat (List.length docs))
      ++ units " relevant document(s):" ++ LF ++ LF ++ blocks 1 docs
  end.

(** A number of tenths written with at most one decimal: the decimal is
    left out when it is zero. *)
Definition tenths (n : Z) : jsstring :=
  Number_toString (n / 10)
  ++ (if n mod 10 =? 0 then [] else units "." ++ Number_toString (n mod 10)).

(** The MIME types that the text patterns accept, apart from those that
    begin with "text/". *)
Definition textApplicationTypes : list jsstring :=
  map units
  [ "application/javascript"; "application/json"; "application/xml";
    "application/yaml";
    "application/x-python"; "application/x-java"; "application/x-c";
    "application/x-cpp"; "application/x-csharp"; "application/x-php";
    "application/x-ruby"; "application/x-perl"; "application/x-shell";
    "application/x-sh";
    "application/toml"; "application/ini" ]%string.

Section WithHost.
Context {host : Host}.

(** A sequence of [addDocument] calls, each with what it reads from the
    host. *)
Fixpoint addDocuments (store : Rag.RAGStore)
    (calls : list (Rag.Entropy * Rag.NewDocument)) : Rag.RAGStore :=
  match calls with
  | [] => store
  | (e, doc) :: rest => addDocuments (fst (Rag.addDocument store e doc)) rest
  end.

(** The states of a store: what the public operations make of a new one. *)
Inductive reachable : Rag.RAGStore -> Prop :=
| reach_new (config : Rag.RAGConfig) : reachable (Rag.newStore config)
| reach_add (store : Rag.RAGStore) (e : Rag.Entropy) (doc : Rag.NewDocument) :
    reachable store -> reachable (fst (Rag.addDocument store e doc))
| reach_remove (store : Rag.RAGStore) (id : jsstring) :
    reachable store -> reachable (fst (Rag.removeDocument store id))
| reach_clear (store : Rag.RAGStore) :
    reachable store -> reachable (Rag.clear store).

(** The attachments of the files that [processFile] accepts, and the
    messages of those it rejects, in the order of the files. *)
Definition accepted (files : list FileUtils.File)
    : list FileUtils.MessageExtra :=
  flat_map (fun file =>
              match snd (FileUtils.processFile file) with
              | inl fileExtra => [fileExtra]
              | inr _ => []
              end) files.

Definition rejected (files : list FileUtils.File) : list jsstring :=
  flat_map (fun file =>
              match snd (FileUtils.processFile file) with
              | inl _ => []
              | inr errorMessage => [errorMessage]
              end) files.

End WithHost.

(** The dot product of two vectors, over their common indices. *)
Fixpoint dotProduct (a b : list R) : R :=
  match a, b with
  | x :: a', y :: b' => (x * y + dotProduct a' b')%R
  | _, _ => 0%R
  end.

(** The text that chunks with a given overlap stand for: the first chunk,
    then every later chunk without its first [overlap] characters. *)
Definition rebuild (overlap : nat) (chunks : list jsstring) : jsstring :=
  match chunks with
  | [] => []
  | first :: rest => first ++ flat_map (skipn overlap) rest
  end.

(** The sum of the lengths of the contents of documents. *)
Definition totalContentLength (docs : list Rag.Document) : Z :=
  fold_right (fun doc sum => String_length (Rag.content doc) + sum) 0 docs.

(** The vector with 1 in its first component and 0 in the others. *)
Definition firstAxis (dimension : nat) : list R :=
  match dimension with
  | O => []
  | S n => 1%R :: repeat 0%R n
  end.

End Spec.

(** ** Proof steps used more than once *)

(** Runs the promise combinators of [processFile] once the outcome of each
    read is known, and closes the goal about the reads and the message. *)
Ltac process_file_cases :=
  cbn [FileUtils.try_catch FileUtils.await FileUtils.resolve FileUtils.throw
       app];
  do 2 eexists; (split; [reflexivity|]);
  first [exact I | eexists; reflexivity].

(** Splits [processFile] by the size test, the classification and what the
    two reads deliver, and runs the promise combinators in each case. *)
Ltac process_file_outcomes file :=
  unfold FileUtils.processFile, FileUtils.readFileAsText,
    FileUtils.readFileAsBase64;
  cbv zeta;
  destruct (FileUtils.MAX_FILE_SIZE <? FileUtils.size file) eqn:Hsize;
  destruct (FileUtils.isTextMimeType (FileUtils.resolvedMimeType file)
            || FileUtils.isTextFileExtension (FileUtils.name file))
    eqn:Htext;
  destruct (FileUtils.asText file) as [[[|t text]|]|] eqn:HasText;
  destruct (FileUtils.asDataURL file) as [[[|u url]|]|] eqn:HasURL;
  cbn [FileUtils.try_catch FileUtils.await FileUtils.resolve FileUtils.throw
       app].

(* ===================================================================== *)
(** * Part II: properties                                                  *)
(* ===================================================================== *)

Import JS.

(** ** 32-bit arithmetic and the token hash *)

Lemma ToInt32_wrapSigned32 (x : Z) : ToInt32 x = Spec.wrapSigned32 x.
Proof.
  unfold ToInt32, Spec.wrapSigned32; cbv zeta.
  change (2 ^ 31) with 2147483648; change (2 ^ 32) with 4294967296.
  destruct (Z.ltb_spec (x mod 4294967296) 2147483648);
    Z.div_mod_to_equations; lia.
Qed.

Lemma ToInt32_range (x : Z) : - 2 ^ 31 <= ToInt32 x < 2 ^ 31.
Proof.
  unfold ToInt32.
  change (2 ^ 31) with 2147483648; change (2 ^ 32) with 4294967296.
  Z.div_mod_to_equations; lia.
Qed.

Lemma ToInt32_small (x : Z) : - 2 ^ 31 <= x < 2 ^ 31 -> ToInt32 x = x.
Proof.
  unfold ToInt32.
  change (2 ^ 31) with 2147483648; change (2 ^ 32) with 4294967296.
  intros; Z.div_mod_to_equations; lia.
Qed.

Lemma ToInt32_idem (x : Z) : ToInt32 (ToInt32 x) = ToInt32 x.
Proof. apply ToInt32_small, ToInt32_range. Qed.

(** Two integers that differ by a multiple of 2^32 convert alike. *)
Lemma ToInt32_congr (x y k : Z) : x = y + k * 2 ^ 32 -> ToInt32 x = ToInt32 y.
Proof.
  intros ->. unfold ToInt32.
  replace (y + k * 2 ^ 32 + 2 ^ 31) with (y + 2 ^ 31 + k * 2 ^ 32) by ring.
  now rewrite Z.mod_add.
Qed.

Lemma ToInt32_decompose (x : Z) : exists k, ToInt32 x = x + k * 2 ^ 32.
Proof.
  exists (- ((x + 2 ^ 31) / 2 ^ 32)). unfold ToInt32.
  change (2 ^ 31) with 2147483648; change (2 ^ 32) with 4294967296.
  Z.div_mod_to_equations; lia.
Qed.

Lemma Int32_and_ones (x : Z) : Int32_and x 4294967295 = ToInt32 x.
Proof.
  unfold Int32_and.
  replace (ToInt32 4294967295) with (-1) by reflexivity.
  now rewrite Z.land_m1_r, ToInt32_idem.
Qed.

Lemma Int32_shl_5 (x : Z) : Int32_shl x 5 = ToInt32 (x * 32).
Proof.
  unfold Int32_shl.
  replace (Z.land 5 31) with 5 by reflexivity.
  rewrite Z.shiftl_mul_pow2 by lia.
  destruct (ToInt32_decompose x) as [k Hk].
  apply ToInt32_congr with (k := k * 32). rewrite Hk.
  change (2 ^ 5) with 32. ring.
Qed.

Lemma hashStep_spec (hash charCode : Z) :
  Rag.hashStep hash charCode = Spec.wrapSigned32 (hash * 31 + charCode).
Proof.
  unfold Rag.hashStep.
  rewrite Int32_and_ones, Int32_shl_5, <- ToInt32_wrapSigned32.
  destruct (ToInt32_decompose (hash * 32)) as [k Hk].
  apply ToInt32_congr with (k := k). rewrite Hk. ring.
Qed.

Lemma hashWord_from (word : jsstring) (h : Z) :
  fold_left Rag.hashStep word h
  = fold_left (fun hash c => Spec.wrapSigned32 (hash * 31 + c)) word h.
Proof.
  revert h; induction word as [|c word IH]; intros h; simpl.
  - reflexivity.
  - now rewrite hashStep_spec, IH.
Qed.

Lemma hashWord_int32 (word : jsstring) :
  - 2 ^ 31 <= Rag.hashWord word < 2 ^ 31.
Proof.
  unfold Rag.hashWord.
  assert (G : forall h, - 2 ^ 31 <= h < 2 ^ 31 ->
              - 2 ^ 31 <= fold_left Rag.hashStep word h < 2 ^ 31).
  { induction word as [|c word IH]; intros h Hh; simpl; [exact Hh|].
    apply IH. rewrite hashStep_spec, <- ToInt32_wrapSigned32.
    apply ToInt32_range. }
  apply G. lia.
Qed.

Lemma bucketIndex_range (word : jsstring) (dimension : Z) :
  0 < dimension -> 0 <= Rag.bucketIndex word dimension < dimension.
Proof.
  intros Hd. unfold Rag.bucketIndex.
  rewrite Z.rem_mod_nonneg by lia.
  apply Z.mod_pos_bound; lia.
Qed.

(** C5.  The bucket index that the code computes for a token, with
    [((hash << 5) - hash + charCode) & 0xffffffff] and
    [Math.abs(hash) % 100], is the index of the reference algorithm:
    [hash = (hash*31 + charCode) mod 2^32] with signed 32-bit wrap-around,
    then [abs(hash) mod 100].  The two hashes agree as well. *)
Theorem bucketIndex_refines_spec (token : jsstring) :
  Rag.hashWord token = Spec.rollingHash token
  /\ Rag.bucketIndex token 100 = Spec.vectorIndex token 100.
Proof.
  assert (E : Rag.hashWord token = Spec.rollingHash token)
    by apply hashWord_from.
  split; [exact E|].
  unfold Rag.bucketIndex, Spec.vectorIndex.
  rewrite <- E. apply Z.rem_mod_nonneg; lia.
Qed.

(** ** chunkText *)

Lemma slice_length_le {A} (l : list A) (start stop : Z) :
  Z.of_nat (List.length (slice l start stop))
  <= Z.max 0 (relative_index (Z.of_nat (List.length l)) stop
              - relative_index (Z.of_nat (List.length l)) start).
Proof.
  unfold slice; cbv zeta. rewrite length_firstn. lia.
Qed.

Lemma slice_length_within {A} (l : list A) (start stop : Z) :
  0 <= start <= stop -> stop <= Z.of_nat (List.length l) ->
  Z.of_nat (List.length (slice l start stop)) = stop - start.
Proof.
  intros H1 H2. unfold slice, relative_index; cbv zeta.
  destruct (Z.ltb_spec start 0); [lia|].
  destruct (Z.ltb_spec stop 0); [lia|].
  rewrite length_firstn, length_skipn. lia.
Qed.

Section ChunkText.
Variables (text : jsstring) (chunkSize overlap : Z).

(** In a turn that does not leave the loop the chunk is a full one, and the
    next [start] is the old one moved by [chunkSize - overlap]. *)
Lemma chunkBody_Continue (start : Z) (chunks : list jsstring)
    (start' : Z) (chunks' : list jsstring) :
  Rag.chunkBody text chunkSize overlap start chunks = Rag.Continue start' chunks' ->
  start' = start + chunkSize - overlap
  /\ start + chunkSize < String_length text
  /\ chunks' = chunks ++ [slice text start (start + chunkSize)].
Proof.
  unfold Rag.chunkBody; cbv zeta.
  destruct (Z.eqb_spec (Z.min (start + chunkSize) (String_length text))
                       (String_length text)) as [E|E]; [discriminate|].
  intros H; injection H as <- <-.
  assert (Hlt : start + chunkSize < String_length text) by lia.
  replace (Z.min (start + chunkSize) (String_length text))
    with (start + chunkSize) by lia.
  repeat split; lia.
Qed.

Lemma chunkBody_chunk_length (start : Z) :
  0 <= start < String_length text -> 1 <= chunkSize ->
  String_length
    (slice text start (Z.min (start + chunkSize) (String_length text)))
  <= chunkSize.
Proof.
  intros Hs Hc. unfold String_length in *.
  rewrite slice_length_within; lia.
Qed.

Lemma chunkLoop_more_fuel (fuel fuel' : nat) (start : Z)
    (chunks result : list jsstring) :
  (fuel <= fuel')%nat ->
  Rag.chunkLoop fuel text chunkSize overlap start chunks = Some result ->
  Rag.chunkLoop fuel' text chunkSize overlap start chunks = Some result.
Proof.
  revert fuel' start chunks.
  induction fuel as [|fuel IH]; intros fuel' start chunks Hle; simpl.
  - discriminate.
  - destruct fuel' as [|fuel']; [lia|]. simpl.
    destruct (start <? String_length text); [|trivial].
    destruct (Rag.chunkBody text chunkSize overlap start chunks); [|trivial].
    apply IH. lia.
Qed.

Lemma chunkLoop_terminates (fuel : nat) :
  1 <= chunkSize -> 0 <= overlap < chunkSize ->
  forall (start : Z) (chunks : list jsstring),
    0 <= start <= String_length text ->
    String_length text - start < Z.of_nat fuel ->
    Forall (fun c => String_length c <= chunkSize) chunks ->
    exists result,
      Rag.chunkLoop fuel text chunkSize overlap start chunks = Some result
      /\ Forall (fun c => String_length c <= chunkSize) result.
Proof.
  intros Hc Ho.
  induction fuel as [|fuel IH]; intros start chunks Hs Hf Hall; simpl.
  - lia.
  - destruct (Z.ltb_spec start (String_length text)) as [Hlt|Hge].
    + assert (Hnew : Forall (fun c => String_length c <= chunkSize)
                (chunks ++ [slice text start
                   (Z.min (start + chunkSize) (String_length text))])).
      { apply Forall_app; split; [exact Hall|].
        constructor; [|constructor].
        apply chunkBody_chunk_length; lia. }
      destruct (Rag.chunkBody text chunkSize overlap start chunks)
        as [start' chunks'|chunks'] eqn:Hbody.
      * destruct (chunkBody_Continue _ _ _ _ Hbody) as (-> & Hlen & ->).
        apply IH; [lia|lia|].
        replace (start + chunkSize)
          with (Z.min (start + chunkSize) (String_length text)) by lia.
        exact Hnew.
      * exists chunks'. split; [reflexivity|].
        unfold Rag.chunkBody in Hbody; cbv zeta in Hbody.
        destruct (Z.min (start + chunkSize) (String_length text)
                  =? String_length text); [|discriminate].
        injection Hbody as <-. exact Hnew.
    + exists chunks. split; [reflexivity | exact Hall].
Qed.

Lemma chunkLoop_diverges (fuel : nat) :
  chunkSize <= overlap -> 0 < String_length text ->
  chunkSize < String_length text ->
  forall (start : Z) (chunks : list jsstring),
    start <= 0 ->
    Rag.chunkLoop fuel text chunkSize overlap start chunks = None.
Proof.
  intros Ho Hpos Hlen.
  induction fuel as [|fuel IH]; intros start chunks Hs; simpl.
  - reflexivity.
  - destruct (Z.ltb_spec start (String_length text)); [|lia].
    unfold Rag.chunkBody; cbv zeta.
    destruct (Z.eqb_spec (Z.min (start + chunkSize) (String_length text))
                         (String_length text)); [lia|].
    apply IH. lia.
Qed.

(** C10.  For [chunkSize >= 1]: when [0 <= overlap < chunkSize], every turn
    of the loop that does not leave it moves [start] strictly forward, and
    [chunkText] ends: any run of more than [text.length] turns returns the
    same list of chunks, each of at most [chunkSize] characters.  The bound
    on [overlap] is needed: when [overlap >= chunkSize] and the text is
    longer than [chunkSize], no turn moves [start] forward and no number of
    turns ends the loop. *)
Theorem chunkText_terminates_iff_overlap_small :
  1 <= chunkSize ->
  (0 <= overlap < chunkSize ->
     (forall start chunks start' chunks',
        Rag.chunkBody text chunkSize overlap start chunks
        = Rag.Continue start' chunks' -> start < start')
     /\ exists chunks,
         (forall fuel, (List.length text < fuel)%nat ->
            Rag.chunkText fuel text chunkSize overlap = Some chunks)
         /\ Forall (fun c => String_length c <= chunkSize) chunks)
  /\ (chunkSize <= overlap -> chunkSize < String_length text ->
        (forall start chunks start' chunks',
           Rag.chunkBody text chunkSize overlap start chunks
           = Rag.Continue start' chunks' -> start' <= start)
        /\ forall fuel, Rag.chunkText fuel text chunkSize overlap = None).
Proof.
  intros Hc. split.
  - intros Ho. split.
    + intros start chunks start' chunks' Hbody.
      destruct (chunkBody_Continue _ _ _ _ Hbody) as (-> & _ & _). lia.
    + destruct (chunkLoop_terminates (S (List.length text)) Hc Ho 0 [])
        as (result & Hrun & Hall);
        [unfold String_length; lia | unfold String_length; lia
        | constructor |].
      exists result. split; [|exact Hall].
      intros fuel Hfuel. unfold Rag.chunkText.
      apply chunkLoop_more_fuel with (fuel := S (List.length text)); [lia|].
      exact Hrun.
  - intros Ho Hlen. split.
    + intros start chunks start' chunks' Hbody.
      destruct (chunkBody_Continue _ _ _ _ Hbody) as (-> & _ & _). lia.
    + intros fuel. unfold Rag.chunkText.
      apply chunkLoop_diverges; lia.
Qed.

End ChunkText.

(** A text of ten characters cut with [chunkSize = 4]: with [overlap = 1]
    the cut ends, with [overlap = 4] it does not. *)
Lemma chunkText_terminates_iff_overlap_small_witness :
  1 <= 4
  /\ Rag.chunkText 11 (units "abcdefghij") 4 1
     = Some [units "abcd"; units "defg"; units "ghij"]
  /\ forall fuel, Rag.chunkText fuel (units "abcdefghij") 4 4 = None.
Proof.
  split; [lia|]. split.
  - destruct (chunkText_terminates_iff_overlap_small (units "abcdefghij") 4 1)
      as [[_ (chunks & Hrun & _)] _]; [lia | lia |].
    reflexivity.
  - destruct (chunkText_terminates_iff_overlap_small (units "abcdefghij") 4 4)
      as [_ H]; [lia|].
    apply H; [lia | vm_compute; reflexivity].
Defined.

(** ** generateContext *)

Lemma mapi_from_blocks (docs : list Rag.Document) (i : Z) :
  join (LF ++ LF ++ units "---" ++ LF ++ LF)
    (mapi_from
       (fun doc index =>
          units "Document " ++ Number_toString (index + 1) ++ units " ("
          ++ Rag.title doc ++ units "):" ++ LF ++ Rag.content doc)
       i docs)
  = Spec.blocks (i + 1)
      (map (fun doc => (Rag.title doc, Rag.content doc)) docs).
Proof.
  revert i; induction docs as [|doc docs IH]; intros i.
  - reflexivity.
  - destruct docs as [|doc' docs].
    + reflexivity.
    + specialize (IH (i + 1)).
      change (map (fun doc0 => (Rag.title doc0, Rag.content doc0))
                  (doc :: doc' :: docs))
        with ((Rag.title doc, Rag.content doc)
              :: map (fun doc0 => (Rag.title doc0, Rag.content doc0))
                     (doc' :: docs)).
      cbn [Spec.blocks]. 
      destruct (map (fun doc0 => (Rag.title doc0, Rag.content doc0))
                    (doc' :: docs)) eqn:E; [discriminate|].
      rewrite <- IH.
      cbn [mapi_from join]. unfold Spec.block.
      rewrite <- !app_assoc. reflexivity.
Qed.

(** C6.  [generateContext] of no document is the empty string.  Of [N >= 1]
    documents it is the header "Context from N relevant document(s):", an
    empty line, and for each document, numbered from 1, the line
    "Document i (<title>):" followed by the content; two consecutive blocks
    are separated by an empty line, a line "---" and an empty line.  The
    two-document example of the interface description is an instance. *)
Theorem generateContext_format :
  Rag.generateContext [] = []
  /\ (forall docs : list Rag.Document,
        Rag.generateContext docs
        = Spec.contextString
            (map (fun doc => (Rag.title doc, Rag.content doc)) docs))
  /\ (forall a b : Rag.Document,
        Rag.title a = units "A" -> Rag.content a = units "alpha" ->
        Rag.title b = units "B" -> Rag.content b = units "beta" ->
        Rag.generateContext [a; b]
        = units "Context from 2 relevant document(s):

Document 1 (A):
alpha

---

Document 2 (B):
beta").
Proof.
  assert (G : forall docs : list Rag.Document,
             Rag.generateContext docs
             = Spec.contextString
                 (map (fun doc => (Rag.title doc, Rag.content doc)) docs)).
  { intros [|doc docs]; [reflexivity|].
    unfold Rag.generateContext, mapi.
    destruct (Z.eqb_spec (Z.of_nat (List.length (doc :: docs))) 0) as [E|_];
      [simpl in E; lia|].
    rewrite mapi_from_blocks.
    unfold Spec.contextString. rewrite length_map. reflexivity. }
  split; [reflexivity|]. split; [exact G|].
  intros a b Ha Hca Hb Hcb. rewrite G. simpl map.
  rewrite Ha, Hca, Hb, Hcb. reflexivity.
Qed.

Lemma generateContext_format_witness :
  let a := {| Rag.id := units "doc_1_a"; Rag.title := units "A";
              Rag.content := units "alpha"; Rag.embedding := None;
              Rag.metadata := None |} in
  let b := {| Rag.id := units "doc_2_b"; Rag.title := units "B";
              Rag.content := units "beta"; Rag.embedding := None;
              Rag.metadata := None |} in
  Rag.generateContext [a; b]
  = units "Context from 2 relevant document(s):" ++ LF ++ LF
    ++ units "Document 1 (A):" ++ LF ++ units "alpha" ++ LF ++ LF
    ++ units "---" ++ LF ++ LF
    ++ units "Document 2 (B):" ++ LF ++ units "beta".
Proof.
  intros a b.
  destruct generateContext_format as (_ & _ & H).
  rewrite (H a b eq_refl eq_refl eq_refl eq_refl). reflexivity.
Defined.

(** ** processFile *)

Lemma eqb_true_iff (a b : jsstring) : JS.eqb a b = true <-> a = b.
Proof.
  unfold JS.eqb. destruct (string_eq_dec a b); split; congruence.
Qed.

Lemma existsb_eqb_In (s : jsstring) (l : list jsstring) :
  existsb (JS.eqb s) l = true <-> In s l.
Proof.
  rewrite existsb_exists. split.
  - intros (x & Hin & Heq). apply eqb_true_iff in Heq. now subst.
  - intros Hin. exists s. split; [exact Hin | now apply eqb_true_iff].
Qed.

Lemma test_Exactly (prefix : jsstring) (alternatives : list jsstring)
    (s : jsstring) :
  FileUtils.test (FileUtils.Exactly prefix alternatives) s = true
  <-> In s (map (app prefix) alternatives).
Proof.
  simpl. rewrite existsb_exists, in_map_iff. split.
  - intros (alt & Hin & Heq). apply eqb_true_iff in Heq. now exists alt.
  - intros (alt & Heq & Hin). exists alt.
    split; [exact Hin | now apply eqb_true_iff].
Qed.

(** The patterns accept the types that begin with "text/" and sixteen
    [application/...] types, nothing else. *)
Lemma isTextMimeType_iff (mimeType : jsstring) :
  FileUtils.isTextMimeType mimeType = true
  <-> startsWith mimeType (units "text/") = true
      \/ In mimeType Spec.textApplicationTypes.
Proof.
  unfold FileUtils.isTextMimeType, FileUtils.TEXT_FILE_PATTERNS.
  cbn [existsb]. rewrite !orb_true_iff, !test_Exactly.
  change (FileUtils.test (FileUtils.Prefix (units "text/")) mimeType)
    with (startsWith mimeType (units "text/")).
  replace Spec.textApplicationTypes with
    (map (app (units "application/"))
         (map units ["javascript"; "json"; "xml"; "yaml"]%string)
     ++ map (app (units "application/x-"))
         (map units ["python"; "java"; "c"; "cpp"; "csharp"; "php"; "ruby";
                     "perl"; "shell"; "sh"]%string)
     ++ map (app (units "application/"))
         (map units ["toml"; "ini"]%string))
    by reflexivity.
  rewrite !in_app_iff. intuition congruence.
Qed.

Section ProcessFile.
Context {host : Host}.

(** The reads that [processFile] starts on a file within the size limit
    begin with a text read exactly when the file was classified as text. *)
Lemma processFile_first_read (file : FileUtils.File) :
  FileUtils.size file <= FileUtils.MAX_FILE_SIZE ->
  exists reads outcome,
    FileUtils.processFile file
    = ((if FileUtils.isTextMimeType (FileUtils.resolvedMimeType file)
           || FileUtils.isTextFileExtension (FileUtils.name file)
        then FileUtils.ReadAsText else FileUtils.ReadAsDataURL) :: reads,
       outcome)
    /\ match outcome with
       | inl _ => True
       | inr message =>
           exists cause,
             message = units "Failed to process file " ++ QUOTE
                       ++ FileUtils.name file ++ QUOTE ++ units ": " ++ cause
       end.
Proof.
  intros Hsize. unfold FileUtils.processFile.
  destruct (Z.ltb_spec FileUtils.MAX_FILE_SIZE (FileUtils.size file)); [lia|].
  cbv zeta.
  destruct (FileUtils.isTextMimeType (FileUtils.resolvedMimeType file)
            || FileUtils.isTextFileExtension (FileUtils.name file)).
  - unfold FileUtils.readFileAsText, FileUtils.readFileAsBase64.
    destruct (FileUtils.asText file) as [[[|c s]|]|];
      destruct (FileUtils.asDataURL file) as [[[|c' s']|]|];
      process_file_cases.
  - unfold FileUtils.readFileAsBase64.
    destruct (FileUtils.asDataURL file) as [[[|c' s']|]|];
      process_file_cases.
Qed.

(** C7.  The limit is 10 MiB.  A file of more bytes is refused with the
    message [File "<name>" is too large. Maximum size is 10MB.], and no read
    of the file is started.  A file of at most 10 MiB passes the check: a
    read is started, and the call ends with an attachment or with the
    message of a failed processing, not with the size message. *)
Theorem processFile_size_limit (file : FileUtils.File) :
  FileUtils.MAX_FILE_SIZE = 10 * 1024 * 1024
  /\ (FileUtils.MAX_FILE_SIZE < FileUtils.size file ->
        FileUtils.processFile file
        = ([], inr (units "File " ++ QUOTE ++ FileUtils.name file ++ QUOTE
                    ++ units " is too large. Maximum size is 10MB.")))
  /\ (FileUtils.size file <= FileUtils.MAX_FILE_SIZE ->
        exists op reads outcome,
          FileUtils.processFile file = (op :: reads, outcome)
          /\ match outcome with
             | inl _ => True
             | inr message =>
                 exists cause,
                   message = units "Failed to process file " ++ QUOTE
                             ++ FileUtils.name file ++ QUOTE ++ units ": "
                             ++ cause
             end).
Proof.
  split; [reflexivity|]. split.
  - intros Hbig. unfold FileUtils.processFile.
    destruct (Z.ltb_spec FileUtils.MAX_FILE_SIZE (FileUtils.size file)); [|lia].
    reflexivity.
  - intros Hsmall.
    destruct (processFile_first_read file Hsmall) as (reads & outcome & E & H).
    eauto.
Qed.

(** C8.  A file within the size limit is classified as text, that is, read
    as text first, if and only if its resolved MIME type (the declared type
    when it is not empty, the type of the extension table otherwise) begins
    with "text/" or is one of the accepted [application/...] types, or the
    extension of its name is in the list of text extensions.  The extension
    is an alternative, not a replacement: a file declared
    [application/octet-stream], a type that no pattern accepts, and named
    with the extension [csv] is classified as text. *)
Theorem processFile_text_iff_mime_or_extension :
  (forall file : FileUtils.File,
     FileUtils.size file <= FileUtils.MAX_FILE_SIZE ->
     let resolved :=
       match FileUtils.type file with
       | [] => FileUtils.getMimeTypeFromExtension (FileUtils.name file)
       | _ :: _ => FileUtils.type file
       end in
     hd_error (fst (FileUtils.processFile file)) = Some FileUtils.ReadAsText
     <-> (startsWith resolved (units "text/") = true
          \/ In resolved Spec.textApplicationTypes)
         \/ In (FileUtils.extensionOf (FileUtils.name file))
               FileUtils.textExtensions)
  /\ (toLowerCase (units "csv") = units "csv" ->
      exists file : FileUtils.File,
        FileUtils.size file <= FileUtils.MAX_FILE_SIZE
        /\ FileUtils.type file = units "application/octet-stream"
        /\ FileUtils.isTextMimeType (FileUtils.type file) = false
        /\ In (FileUtils.extensionOf (FileUtils.name file))
              FileUtils.textExtensions
        /\ hd_error (fst (FileUtils.processFile file))
           = Some FileUtils.ReadAsText).
Proof.
  assert (G : forall file : FileUtils.File,
     FileUtils.size file <= FileUtils.MAX_FILE_SIZE ->
     hd_error (fst (FileUtils.processFile file)) = Some FileUtils.ReadAsText
     <-> (startsWith (FileUtils.resolvedMimeType file) (units "text/") = true
          \/ In (FileUtils.resolvedMimeType file) Spec.textApplicationTypes)
         \/ In (FileUtils.extensionOf (FileUtils.name file))
               FileUtils.textExtensions).
  { intros file Hsize.
    destruct (processFile_first_read file Hsize) as (reads & outcome & E & _).
    rewrite E. cbn [fst hd_error].
    rewrite <- isTextMimeType_iff.
    unfold FileUtils.isTextFileExtension. rewrite <- existsb_eqb_In.
    rewrite <- orb_true_iff.
    destruct (FileUtils.isTextMimeType (FileUtils.resolvedMimeType file)
              || existsb (JS.eqb (FileUtils.extensionOf (FileUtils.name file)))
                         FileUtils.textExtensions);
      split; congruence. }
  split.
  - intros file Hsize resolved. apply (G file Hsize).
  - intros Hcsv.
    set (file := {| FileUtils.name := units "report.csv";
                    FileUtils.type := units "application/octet-stream";
                    FileUtils.size := 2048;
                    FileUtils.asText := FileUtils.Load (Some (units "a,b"));
                    FileUtils.asDataURL := FileUtils.ReadError |}).
    assert (Hext : FileUtils.extensionOf (FileUtils.name file) = units "csv").
    { unfold FileUtils.extensionOf. exact Hcsv. }
    assert (Hin : In (FileUtils.extensionOf (FileUtils.name file))
                     FileUtils.textExtensions).
    { rewrite Hext. apply existsb_eqb_In. reflexivity. }
    exists file. split; [unfold FileUtils.MAX_FILE_SIZE; simpl; lia|].
    split; [reflexivity|]. split; [reflexivity|]. split; [exact Hin|].
    apply G; [unfold FileUtils.MAX_FILE_SIZE; simpl; lia|].
    right. exact Hin.
Qed.

End ProcessFile.

Lemma asciiLower_csv : @toLowerCase AsciiHost (units "csv") = units "csv".
Proof. reflexivity. Qed.

Lemma processFile_size_limit_witness :
  let file := {| FileUtils.name := units "big.bin";
                 FileUtils.type := [];
                 FileUtils.size := 10 * 1024 * 1024 + 1;
                 FileUtils.asText := FileUtils.ReadError;
                 FileUtils.asDataURL := FileUtils.Load (Some (units "data:;base64,AAAA")) |} in
  FileUtils.MAX_FILE_SIZE < FileUtils.size file
  /\ fst (@FileUtils.processFile AsciiHost file) = [].
Proof.
  intros file.
  assert (H : FileUtils.MAX_FILE_SIZE < FileUtils.size file) by (vm_compute; reflexivity).
  split; [exact H|].
  destruct (@processFile_size_limit AsciiHost file) as (_ & Hbig & _).
  rewrite (Hbig H). reflexivity.
Defined.

Lemma processFile_text_iff_mime_or_extension_witness :
  exists file : FileUtils.File,
    FileUtils.isTextMimeType (FileUtils.type file) = false
    /\ hd_error (fst (@FileUtils.processFile AsciiHost file))
       = Some FileUtils.ReadAsText.
Proof.
  destruct (@processFile_text_iff_mime_or_extension AsciiHost) as [_ H].
  destruct (H asciiLower_csv) as (file & _ & _ & Hmime & _ & Hread).
  exists file. split; [exact Hmime | exact Hread].
Defined.

(** ** formatFileSize *)

Lemma Number_toString_digit (r : Z) :
  0 <= r < 10 -> Number_toString r = [48 + r].
Proof.
  intros H.
  assert (C : r = 0 \/ r = 1 \/ r = 2 \/ r = 3 \/ r = 4 \/ r = 5 \/ r = 6
              \/ r = 7 \/ r = 8 \/ r = 9) by lia.
  repeat (destruct C as [-> | C]; [reflexivity|]). subst r. reflexivity.
Qed.

(** Reading back what [toFixed(1)] wrote and printing it drops a zero
    decimal and keeps any other. *)
Lemma parseFloat_toString_toFixed1 (num den : Z) :
  FileUtils.parseFloat_toString (FileUtils.toFixed1 num den)
  = Spec.tenths (FileUtils.roundTenths num den).
Proof.
  unfold FileUtils.toFixed1, Spec.tenths; cbv zeta.
  set (n := FileUtils.roundTenths num den).
  assert (Hr : 0 <= n mod 10 < 10) by (apply Z.mod_pos_bound; lia).
  rewrite (Number_toString_digit _ Hr).
  set (whole := Number_toString (n / 10)).
  unfold FileUtils.parseFloat_toString.
  change (units ".") with [46].
  rewrite !rev_app_distr. cbn [rev app].
  assert (C : n mod 10 = 0 \/ n mod 10 = 1 \/ n mod 10 = 2 \/ n mod 10 = 3
              \/ n mod 10 = 4 \/ n mod 10 = 5 \/ n mod 10 = 6
              \/ n mod 10 = 7 \/ n mod 10 = 8 \/ n mod 10 = 9) by lia.
  destruct C as [E|C].
  { rewrite E. cbn. now rewrite rev_involutive, app_nil_r. }
  repeat (destruct C as [E|C]; [rewrite E; reflexivity|]).
  rewrite C; reflexivity.
Qed.

(** The number of whole factors 1024 in a byte count below 1024^4. *)
Lemma floorLog1024_spec (bytes : Z) :
  0 < bytes < 1024 ^ 4 ->
  0 <= FileUtils.floorLog1024 bytes < 4
  /\ 1024 ^ FileUtils.floorLog1024 bytes <= bytes
     < 1024 ^ (FileUtils.floorLog1024 bytes + 1).
Proof.
  intros H. unfold FileUtils.floorLog1024.
  destruct (Z.log2_spec bytes) as [Hlo Hhi]; [lia|].
  assert (HL : 0 <= Z.log2 bytes) by apply Z.log2_nonneg.
  assert (HU : Z.log2 bytes < 40).
  { apply Z.log2_lt_pow2; [lia|]. change (2 ^ 40) with (1024 ^ 4). lia. }
  set (L := Z.log2 bytes) in *.
  assert (Hi : 0 <= L / 10 < 4) by (Z.div_mod_to_equations; lia).
  split; [exact Hi|].
  assert (Hdown : 2 ^ (10 * (L / 10)) <= 2 ^ L).
  { apply Z.pow_le_mono_r; [lia|]. Z.div_mod_to_equations; lia. }
  assert (Hup : 2 ^ Z.succ L <= 2 ^ (10 * (L / 10 + 1))).
  { apply Z.pow_le_mono_r; [lia|]. Z.div_mod_to_equations; lia. }
  assert (C : L / 10 = 0 \/ L / 10 = 1 \/ L / 10 = 2 \/ L / 10 = 3) by lia.
  destruct C as [E|[E|[E|E]]]; rewrite E in *;
    cbn in Hdown, Hup |- *; lia.
Qed.

(** C9 (as the code has it).  [formatFileSize(0)] is "0 B",
    [formatFileSize(1536)] is "1.5 KB" and [formatFileSize(1048576)] is
    "1 MB".  A positive byte count below 1024^4 is written as a number and
    one of the units B, KB, MB, GB: the unit is the one of the largest power
    [1024^i] that is not above the byte count, the number is the quotient by
    that power rounded to the nearest tenth (upwards on a tie) and written
    with at most one decimal, a zero decimal being left out. *)
Theorem formatFileSize_format :
  FileUtils.formatFileSize 0 = units "0 B"
  /\ FileUtils.formatFileSize 1536 = units "1.5 KB"
  /\ FileUtils.formatFileSize 1048576 = units "1 MB"
  /\ forall bytes : Z,
       0 < bytes < 1024 ^ 4 ->
       exists i n : Z,
         0 <= i < 4
         /\ 1024 ^ i <= bytes < 1024 ^ (i + 1)
         /\ (2 * n - 1) * 1024 ^ i <= 20 * bytes < (2 * n + 1) * 1024 ^ i
         /\ FileUtils.formatFileSize bytes
            = Spec.tenths n ++ units " "
              ++ nth (Z.to_nat i)
                   [units "B"; units "KB"; units "MB"; units "GB"] [].
Proof.
  split; [reflexivity|]. split; [reflexivity|]. split; [reflexivity|].
  intros bytes Hb.
  destruct (floorLog1024_spec bytes Hb) as (Hi & Hpow).
  set (i := FileUtils.floorLog1024 bytes) in *.
  exists i, (FileUtils.roundTenths bytes (1024 ^ i)).
  split; [exact Hi|]. split; [exact Hpow|]. split.
  - unfold FileUtils.roundTenths.
    assert (Hd : 0 < 1024 ^ i) by (apply Z.pow_pos_nonneg; lia).
    set (d := 1024 ^ i) in *.
    assert (Hq := Z.div_mod (20 * bytes + d) (2 * d) ltac:(lia)).
    assert (Hm := Z.mod_pos_bound (20 * bytes + d) (2 * d) ltac:(lia)).
    set (q := (20 * bytes + d) / (2 * d)) in *.
    nia.
  - unfold FileUtils.formatFileSize.
    destruct (Z.eqb_spec bytes 0); [lia|].
    destruct (Z.ltb_spec bytes 0); [lia|].
    cbv zeta. fold i. rewrite parseFloat_toString_toFixed1.
    assert (C : i = 0 \/ i = 1 \/ i = 2 \/ i = 3) by lia.
    destruct C as [E|[E|[E|E]]]; rewrite E; reflexivity.
Qed.

(** C9 as stated does not hold: the result for 1048576 bytes has no
    decimal.  (And [sizes] has no fifth unit: at 1024^4 bytes the suffix is
    the text of [undefined].) *)
Lemma formatFileSize_1048576_not_one_decimal :
  FileUtils.formatFileSize 1048576 = units "1 MB"
  /\ FileUtils.formatFileSize 1048576 <> units "1.0 MB"
  /\ FileUtils.formatFileSize (1024 ^ 4) = units "1 undefined".
Proof.
  split; [reflexivity|]. split; [vm_compute; discriminate | reflexivity].
Qed.

Lemma formatFileSize_format_witness :
  0 < 1536 < 1024 ^ 4
  /\ exists i n : Z,
       1024 ^ i <= 1536 < 1024 ^ (i + 1)
       /\ FileUtils.formatFileSize 1536
          = Spec.tenths n ++ units " "
            ++ nth (Z.to_nat i)
                 [units "B"; units "KB"; units "MB"; units "GB"] [].
Proof.
  assert (H : 0 < 1536 < 1024 ^ 4) by (vm_compute; split; reflexivity).
  split; [exact H|].
  destruct formatFileSize_format as (_ & _ & _ & G).
  destruct (G 1536 H) as (i & n & _ & Hpow & _ & E).
  exists i, n. split; [exact Hpow | exact E].
Defined.

(** ** generateSimpleEmbedding *)

Lemma split_from_nonempty (prev_ws : bool) (s : jsstring) :
  split_from prev_ws s <> [].
Proof.
  revert prev_ws; induction s as [|c s IH]; intros prev_ws; simpl.
  - discriminate.
  - destruct (isWhiteSpace c).
    + destruct prev_ws; [apply IH | discriminate].
    + destruct (split_from false s); discriminate.
Qed.

Lemma split_from_blank (s : jsstring) :
  blank s -> split_from true s = [[]].
Proof.
  induction 1 as [|c s Hc Hs IH]; simpl; [reflexivity|].
  now rewrite Hc.
Qed.

(** An empty string has one piece, the empty one; a string of white space
    has two empty pieces, one before the run and one after it. *)
Lemma split_ws_blank (s : jsstring) :
  blank s -> split_ws s = match s with [] => [[]] | _ :: _ => [[]; []] end.
Proof.
  intros H. destruct H as [|c s Hc Hs]; [reflexivity|].
  unfold split_ws; simpl. rewrite Hc. now rewrite split_from_blank.
Qed.

Lemma increment_length (embedding : list R) (index : nat) :
  List.length (Rag.increment embedding index) = List.length embedding.
Proof.
  revert index; induction embedding as [|v rest IH]; intros [|index]; simpl;
    auto.
Qed.

Lemma countWords_length (words : list jsstring) (embedding : list R) :
  List.length (Rag.countWords words embedding) = List.length embedding.
Proof.
  unfold Rag.countWords.
  revert embedding; induction words as [|w words IH]; intros embedding; simpl.
  - reflexivity.
  - rewrite IH. apply increment_length.
Qed.

Lemma normalize_length (embedding : list R) :
  List.length (Rag.normalize embedding) = List.length embedding.
Proof.
  unfold Rag.normalize; cbv zeta.
  destruct (Rlt_dec 0 (sqrt (Rag.sumSquares embedding)));
    [apply length_map | reflexivity].
Qed.

Lemma sumSquares_from (embedding : list R) (sum : R) :
  fold_left (fun sum val => (sum + val * val)%R) embedding sum
  = (sum + Rag.sumSquares embedding)%R.
Proof.
  unfold Rag.sumSquares.
  revert sum; induction embedding as [|v rest IH]; intros sum; simpl.
  - ring.
  - rewrite IH, (IH (0 + v * v)%R). ring.
Qed.

Lemma sumSquares_cons (v : R) (rest : list R) :
  Rag.sumSquares (v :: rest) = (v * v + Rag.sumSquares rest)%R.
Proof.
  unfold Rag.sumSquares at 1; simpl. rewrite sumSquares_from. ring.
Qed.

Lemma sumSquares_nonneg (embedding : list R) :
  (0 <= Rag.sumSquares embedding)%R.
Proof.
  induction embedding as [|v rest IH].
  - unfold Rag.sumSquares; simpl. lra.
  - rewrite sumSquares_cons. nra.
Qed.

Lemma sumSquares_zeros (n : nat) : Rag.sumSquares (repeat 0%R n) = 0%R.
Proof.
  induction n as [|n IH]; [reflexivity|].
  simpl repeat. rewrite sumSquares_cons, IH. ring.
Qed.

Lemma sumSquares_scaled (embedding : list R) (magnitude : R) :
  magnitude <> 0%R ->
  Rag.sumSquares (map (fun v => (v / magnitude)%R) embedding)
  = (Rag.sumSquares embedding / (magnitude * magnitude))%R.
Proof.
  intros Hm. induction embedding as [|v rest IH].
  - unfold Rag.sumSquares; simpl. field. exact Hm.
  - simpl map. rewrite !sumSquares_cons, IH. field. exact Hm.
Qed.

(** The counts are never negative, and one of them is at least 1 as soon as
    a word has been counted. *)
Lemma increment_nonneg (embedding : list R) (index : nat) :
  Forall (fun v => (0 <= v)%R) embedding ->
  Forall (fun v => (0 <= v)%R) (Rag.increment embedding index).
Proof.
  intros H; revert index; induction H as [|v rest Hv Hrest IH];
    intros [|index]; simpl; constructor; auto. lra.
Qed.

Lemma increment_counted (embedding : list R) (index : nat) :
  Forall (fun v => (0 <= v)%R) embedding ->
  (index < List.length embedding)%nat ->
  Exists (fun v => (1 <= v)%R) (Rag.increment embedding index).
Proof.
  intros H; revert index; induction H as [|v rest Hv Hrest IH];
    intros [|index] Hi; simpl in *; try lia.
  - left. lra.
  - right. apply IH. lia.
Qed.

Lemma increment_keeps_counted (embedding : list R) (index : nat) :
  Exists (fun v => (1 <= v)%R) embedding ->
  Exists (fun v => (1 <= v)%R) (Rag.increment embedding index).
Proof.
  intros H; revert index; induction H as [v rest Hv|v rest Hrest IH];
    intros [|index]; simpl.
  - left. lra.
  - left. exact Hv.
  - right. exact Hrest.
  - right. apply IH.
Qed.

Lemma bucket_within (word : jsstring) (embedding : list R) :
  embedding <> [] ->
  (Z.to_nat (Rag.bucketIndex word (Z.of_nat (List.length embedding)))
   < List.length embedding)%nat.
Proof.
  intros Hne.
  assert (0 < Z.of_nat (List.length embedding))
    by (destruct embedding; [congruence | simpl; lia]).
  pose proof (bucketIndex_range word _ H). lia.
Qed.

Lemma countWords_invariant (words : list jsstring) (embedding : list R) :
  embedding <> [] ->
  Forall (fun v => (0 <= v)%R) embedding ->
  Forall (fun v => (0 <= v)%R) (Rag.countWords words embedding)
  /\ (Exists (fun v => (1 <= v)%R) embedding \/ words <> [] ->
      Exists (fun v => (1 <= v)%R) (Rag.countWords words embedding)).
Proof.
  unfold Rag.countWords.
  revert embedding; induction words as [|w words IH]; intros embedding Hne Hall;
    simpl.
  - split; [exact Hall|]. intros [H|H]; [exact H | congruence].
  - set (next := Rag.increment embedding _).
    assert (Hlen : List.length next = List.length embedding)
      by apply increment_length.
    assert (Hne' : next <> [])
      by (destruct next; [destruct embedding; simpl in *; congruence
                         | discriminate]).
    destruct (IH next Hne' (increment_nonneg _ _ Hall)) as [H1 H2].
    split; [exact H1|]. intros _. apply H2. left.
    apply increment_counted; [exact Hall | now apply bucket_within].
Qed.

Lemma sumSquares_counted (embedding : list R) :
  Forall (fun v => (0 <= v)%R) embedding ->
  Exists (fun v => (1 <= v)%R) embedding ->
  (1 <= Rag.sumSquares embedding)%R.
Proof.
  intros Hall Hex; induction Hex as [v rest Hv|v rest Hrest IH];
    rewrite sumSquares_cons; inversion Hall; subst.
  - pose proof (sumSquares_nonneg rest). nra.
  - specialize (IH H2). nra.
Qed.

(** Dividing by the magnitude gives a vector of norm 1 whenever the sum of
    the squares is positive. *)
Lemma normalize_unit (embedding : list R) :
  (0 < Rag.sumSquares embedding)%R ->
  Rag.sumSquares (Rag.normalize embedding) = 1%R.
Proof.
  intros Hpos. unfold Rag.normalize; cbv zeta.
  pose proof (sqrt_lt_R0 _ Hpos) as Hm.
  destruct (Rlt_dec 0 (sqrt (Rag.sumSquares embedding))) as [_|N];
    [|contradiction].
  rewrite sumSquares_scaled by lra.
  rewrite sqrt_sqrt by lra. field. lra.
Qed.

Lemma normalize_first_axis (k : R) (n : nat) :
  (0 < k)%R ->
  Rag.normalize (k :: repeat 0%R n) = Spec.firstAxis (S n).
Proof.
  intros Hk. unfold Rag.normalize; cbv zeta.
  rewrite sumSquares_cons, sumSquares_zeros, Rplus_0_r.
  rewrite sqrt_square by lra.
  destruct (Rlt_dec 0 k) as [_|N]; [|contradiction].
  simpl. f_equal; [field; lra|].
  rewrite map_repeat. f_equal. field. lra.
Qed.

Section Embedding.
Context {host : Host}.

(** What the code computes, over the real numbers: for every content the
    vector has 100 components and Euclidean norm 1.  The split of a string
    always has a piece, also for an empty or blank content, whose empty
    pieces are counted in the first component: the magnitude is never 0, the
    test [magnitude > 0] never fails, and the vector of an empty or blank
    content is the first axis. *)
Lemma generateSimpleEmbedding_unit_norm (content : jsstring) :
  List.length (Rag.generateSimpleEmbedding content) = 100%nat
  /\ sqrt (Rag.sumSquares (Rag.generateSimpleEmbedding content)) = 1%R
  /\ (lowercase_keeps_blank host -> blank content ->
      Rag.generateSimpleEmbedding content = Spec.firstAxis 100).
Proof.
  unfold Rag.generateSimpleEmbedding; cbv zeta. split; [|split].
  - rewrite normalize_length, countWords_length. apply repeat_length.
  - set (words := split_ws (toLowerCase content)).
    assert (Hzero : Forall (fun v => (0 <= v)%R) (repeat 0%R 100))
      by (apply Forall_forall; intros v Hv; apply repeat_spec in Hv; lra).
    destruct (countWords_invariant words (repeat 0%R 100)) as [Hall Hex];
      [discriminate | exact Hzero |].
    specialize (Hex (or_intror (split_from_nonempty false _))).
    pose proof (sumSquares_counted _ Hall Hex).
    rewrite normalize_unit by lra. apply sqrt_1.
  - intros Hhost Hblank. rewrite (Hhost _ Hblank), (split_ws_blank _ Hblank).
    destruct content as [|c content].
    + change (Rag.countWords [[]] (repeat 0%R 100))
        with ((0 + 1)%R :: repeat 0%R 99).
      apply normalize_first_axis. lra.
    + change (Rag.countWords [[]; []] (repeat 0%R 100))
        with ((0 + 1 + 1)%R :: repeat 0%R 99).
      apply normalize_first_axis. lra.
Qed.

End Embedding.

Lemma asciiLower_keeps_blank : lowercase_keeps_blank AsciiHost.
Proof.
  intros s H. simpl. unfold asciiLower.
  induction H as [|c s Hc Hs IH]; simpl; [reflexivity|].
  rewrite IH. f_equal.
  destruct (Z.leb_spec 65 c); destruct (Z.leb_spec c 90); simpl; try reflexivity.
  unfold isWhiteSpace in Hc.
  repeat rewrite orb_true_iff in Hc. repeat rewrite andb_true_iff in Hc.
  repeat rewrite Z.leb_le in Hc. repeat rewrite Z.eqb_eq in Hc. lia.
Qed.

(** C4.  The claim gives an empty or blank content the all-zero vector, and
    the code provides for it with its test [magnitude > 0]; but the vector
    it returns for the empty content and for a content of three spaces is
    the first axis, of norm 1, not the zero vector. *)
Lemma generateSimpleEmbedding_blank_not_zero :
  @Rag.generateSimpleEmbedding AsciiHost [] = Spec.firstAxis 100
  /\ @Rag.generateSimpleEmbedding AsciiHost [] <> repeat 0%R 100
  /\ @Rag.generateSimpleEmbedding AsciiHost (units "   ") <> repeat 0%R 100.
Proof.
  assert (E1 : @Rag.generateSimpleEmbedding AsciiHost [] = Spec.firstAxis 100).
  { unfold Rag.generateSimpleEmbedding; cbv zeta.
    change (Rag.countWords (split_ws (@toLowerCase AsciiHost []))
                           (repeat 0%R 100))
      with ((0 + 1)%R :: repeat 0%R 99).
    apply normalize_first_axis. lra. }
  assert (E2 : @Rag.generateSimpleEmbedding AsciiHost (units "   ")
               = Spec.firstAxis 100).
  { unfold Rag.generateSimpleEmbedding; cbv zeta.
    change (Rag.countWords (split_ws (@toLowerCase AsciiHost (units "   ")))
                           (repeat 0%R 100))
      with ((0 + 1 + 1)%R :: repeat 0%R 99).
    apply normalize_first_axis. lra. }
  split; [exact E1|]. rewrite E1, E2.
  split; intros H; cbn [Spec.firstAxis repeat] in H; injection H; lra.
Qed.

Lemma generateSimpleEmbedding_unit_norm_witness :
  blank (units "   ")
  /\ @Rag.generateSimpleEmbedding AsciiHost (units "   ") = Spec.firstAxis 100.
Proof.
  assert (B : blank (units "   ")) by (repeat constructor).
  split; [exact B|].
  destruct (@generateSimpleEmbedding_unit_norm AsciiHost (units "   "))
    as (_ & _ & H).
  exact (H asciiLower_keeps_blank B).
Defined.

(** ** Arrays: sort and slice *)

Section Sort.
Context {A : Type} (after : A -> A -> bool).

Lemma sort_insert_In (x y : A) (l : list A) :
  In y (sort_insert after x l) <-> y = x \/ In y l.
Proof.
  induction l as [|z l IH]; simpl.
  - intuition.
  - destruct (after x z); simpl; rewrite ?IH; intuition.
Qed.

Lemma sort_In (y : A) (l : list A) : In y (sort after l) <-> In y l.
Proof.
  induction l as [|x l IH]; simpl; [tauto|].
  rewrite sort_insert_In, IH. intuition.
Qed.

Lemma sort_insert_length (x : A) (l : list A) :
  List.length (sort_insert after x l) = S (List.length l).
Proof.
  induction l as [|z l IH]; simpl; [reflexivity|].
  destruct (after x z); simpl; [now rewrite IH | reflexivity].
Qed.

Lemma sort_length (l : list A) : List.length (sort after l) = List.length l.
Proof.
  induction l as [|x l IH]; simpl; [reflexivity|].
  now rewrite sort_insert_length, IH.
Qed.

(** The result is sorted for any transitive order that the comparator
    decides. *)
Variable before_or_equal : A -> A -> Prop.
Hypothesis order_trans :
  forall x y z, before_or_equal x y -> before_or_equal y z ->
                before_or_equal x z.
Hypothesis after_false : forall x y, after x y = false -> before_or_equal x y.
Hypothesis after_true : forall x y, after x y = true -> before_or_equal y x.

Lemma sort_insert_sorted (x : A) (l : list A) :
  StronglySorted before_or_equal l ->
  StronglySorted before_or_equal (sort_insert after x l).
Proof.
  induction 1 as [|z l Hl IH Hz]; simpl.
  - constructor; constructor.
  - destruct (after x z) eqn:E.
    + constructor; [exact IH|].
      apply Forall_forall. intros y Hy. apply sort_insert_In in Hy.
      destruct Hy as [->|Hy]; [now apply after_true|].
      rewrite Forall_forall in Hz. now apply Hz.
    + constructor; [now constructor|].
      constructor; [now apply after_false|].
      rewrite Forall_forall in *. intros y Hy.
      apply order_trans with z; [now apply after_false | now apply Hz].
Qed.

Lemma sort_sorted (l : list A) : StronglySorted before_or_equal (sort after l).
Proof.
  induction l as [|x l IH]; simpl; [constructor|].
  now apply sort_insert_sorted.
Qed.

End Sort.

Lemma StronglySorted_skipn {A} (R : A -> A -> Prop) (n : nat) (l : list A) :
  StronglySorted R l -> StronglySorted R (skipn n l).
Proof.
  revert l; induction n as [|n IH]; intros l H; [exact H|].
  destruct l as [|x l]; [constructor|]. simpl.
  inversion H; subst. now apply IH.
Qed.

Lemma StronglySorted_firstn {A} (R : A -> A -> Prop) (n : nat) (l : list A) :
  StronglySorted R l -> StronglySorted R (firstn n l).
Proof.
  revert l; induction n as [|n IH]; intros l H; [constructor|].
  destruct l as [|x l]; [constructor|]. simpl.
  inversion H as [|? ? Hl Hx]; subst. constructor; [now apply IH|].
  rewrite Forall_forall in *. intros y Hy. apply Hx.
  rewrite <- (firstn_skipn n l). apply in_or_app. now left.
Qed.

Lemma slice_sorted {A} (R : A -> A -> Prop) (l : list A) (start stop : Z) :
  StronglySorted R l -> StronglySorted R (slice l start stop).
Proof.
  intros H. unfold slice; cbv zeta.
  now apply StronglySorted_firstn, StronglySorted_skipn.
Qed.

Lemma slice_In {A} (x : A) (l : list A) (start stop : Z) :
  In x (slice l start stop) -> In x l.
Proof.
  unfold slice; cbv zeta. intros H.
  rewrite <- (firstn_skipn (Z.to_nat
     (relative_index (Z.of_nat (List.length l)) start)) l).
  apply in_or_app. right.
  rewrite <- (firstn_skipn (Z.to_nat
     (relative_index (Z.of_nat (List.length l)) stop
      - relative_index (Z.of_nat (List.length l)) start))
     (skipn _ l)).
  apply in_or_app. now left.
Qed.

Lemma slice_prefix_length {A} (l : list A) (stop : Z) :
  0 <= stop -> Z.of_nat (List.length (slice l 0 stop)) <= stop.
Proof.
  intros H. pose proof (slice_length_le l 0 stop) as L.
  unfold relative_index in L.
  destruct (Z.ltb_spec stop 0); [lia|].
  destruct (Z.ltb_spec 0 0); lia.
Qed.

(** The head of the sorted entries is the first entry, in the order of the
    array, among those of the least key. *)
Lemma sort_head_first_least {A} (key : A -> Z) (l : list A) :
  l <> [] ->
  exists before victim after rest,
    l = before ++ victim :: after
    /\ sort (fun a b => 0 <? key a - key b) l = victim :: rest
    /\ (forall x, In x before -> key victim < key x)
    /\ (forall x, In x after -> key victim <= key x).
Proof.
  induction l as [|x l IH]; [congruence|]. intros _.
  destruct l as [|y l].
  - exists [], x, [], []. simpl. intuition.
  - destruct IH as (before & victim & after & rest & E & Hs & Hb & Ha);
      [discriminate|].
    change (sort (fun a b => 0 <? key a - key b) (x :: y :: l))
      with (sort_insert (fun a b => 0 <? key a - key b) x
              (sort (fun a b => 0 <? key a - key b) (y :: l))).
    rewrite Hs. simpl.
    destruct (Z.ltb_spec 0 (key x - key victim)) as [Hlt|Hge].
    + exists (x :: before), victim, after,
             (sort_insert (fun a b => 0 <? key a - key b) x rest).
      rewrite E. split; [reflexivity|]. split; [reflexivity|].
      split; [|exact Ha].
      intros z [<-|Hz]; [lia | now apply Hb].
    + exists [], x, (y :: l), (victim :: rest).
      split; [reflexivity|]. split; [reflexivity|].
      split; [intros z []|].
      intros z Hz. rewrite E in Hz. apply in_app_or in Hz.
      destruct Hz as [Hz|[<-|Hz]].
      * specialize (Hb z Hz). lia.
      * lia.
      * specialize (Ha z Hz). lia.
Qed.

(** ** Maps *)

Section MapFacts.
Context {V : Type}.
Implicit Types (m : Map V) (k : jsstring) (v : V).

Lemma Map_set_In k v m (entry : jsstring * V) :
  In entry (Map_set k v m) -> entry = (k, v) \/ In entry m.
Proof.
  induction m as [|[k' v'] m IH]; simpl.
  - intuition.
  - destruct (string_eq_dec k k'); simpl; intuition.
Qed.

Lemma Map_delete_In k m (entry : jsstring * V) :
  In entry (Map_delete k m) -> In entry m.
Proof.
  induction m as [|[k' v'] m IH]; simpl; [tauto|].
  destruct (string_eq_dec k k'); simpl; intuition.
Qed.

Lemma Map_set_keys k v m (k' : jsstring) :
  In k' (Map_keys (Map_set k v m)) <-> k' = k \/ In k' (Map_keys m).
Proof.
  unfold Map_keys. induction m as [|[k0 v0] m IH]; simpl.
  - intuition.
  - destruct (string_eq_dec k k0) as [->|N]; simpl; rewrite ?IH; intuition.
Qed.

Lemma Map_set_NoDup k v m :
  NoDup (Map_keys m) -> NoDup (Map_keys (Map_set k v m)).
Proof.
  unfold Map_keys. induction m as [|[k0 v0] m IH]; simpl; intros H.
  - constructor; [intros [] | constructor].
  - inversion H as [|? ? Hn Hm]; subst.
    destruct (string_eq_dec k k0) as [->|N]; simpl.
    + now constructor.
    + constructor; [|now apply IH].
      intros Hin. apply (Map_set_keys k v m k0) in Hin.
      destruct Hin as [->|Hin]; [congruence | contradiction].
Qed.

Lemma Map_delete_keys k m (k' : jsstring) :
  In k' (Map_keys (Map_delete k m)) -> In k' (Map_keys m).
Proof.
  unfold Map_keys. intros H. apply in_map_iff in H.
  destruct H as (entry & <- & Hin). apply in_map. eapply Map_delete_In, Hin.
Qed.

Lemma Map_delete_NoDup k m :
  NoDup (Map_keys m) -> NoDup (Map_keys (Map_delete k m)).
Proof.
  unfold Map_keys. induction m as [|[k0 v0] m IH]; simpl; intros H.
  - constructor.
  - inversion H as [|? ? Hn Hm]; subst.
    destruct (string_eq_dec k k0) as [->|N]; simpl; [exact Hm|].
    constructor; [|now apply IH].
    intros Hin. apply Hn. eapply Map_delete_keys, Hin.
Qed.

Lemma Map_set_fresh k v m :
  ~ In k (Map_keys m) -> Map_set k v m = m ++ [(k, v)].
Proof.
  unfold Map_keys. induction m as [|[k0 v0] m IH]; simpl; intros H.
  - reflexivity.
  - destruct (string_eq_dec k k0) as [->|N]; [tauto|].
    rewrite IH; [reflexivity | tauto].
Qed.

Lemma Map_set_nonempty k v m : Map_set k v m <> [].
Proof.
  destruct m as [|[k0 v0] m]; simpl; [discriminate|].
  destruct (string_eq_dec k k0); discriminate.
Qed.

Lemma Map_set_size k v m :
  Map_size m <= Map_size (Map_set k v m) <= Map_size m + 1.
Proof.
  unfold Map_size. induction m as [|[k0 v0] m IH]; cbn [Map_set List.length].
  - lia.
  - destruct (string_eq_dec k k0); cbn [List.length]; lia.
Qed.

Lemma Map_delete_size k m :
  In k (Map_keys m) -> Map_size (Map_delete k m) = Map_size m - 1.
Proof.
  unfold Map_size, Map_keys.
  induction m as [|[k0 v0] m IH]; cbn [Map_delete map fst In List.length].
  - tauto.
  - intros H. destruct (string_eq_dec k k0) as [->|N]; [lia|].
    destruct H as [H|H]; [congruence|].
    cbn [List.length]. specialize (IH H). lia.
Qed.

Lemma Map_delete_middle k v (before after : Map V) :
  ~ In k (Map_keys before) ->
  Map_delete k (before ++ (k, v) :: after) = before ++ after.
Proof.
  unfold Map_keys. induction before as [|[k0 v0] before IH]; simpl; intros H.
  - destruct (string_eq_dec k k); [reflexivity | congruence].
  - destruct (string_eq_dec k k0) as [->|N]; [tauto|].
    rewrite IH; [reflexivity | tauto].
Qed.

Lemma Map_get_set k v m : Map_get k (Map_set k v m) = Some v.
Proof.
  induction m as [|[k0 v0] m IH]; simpl.
  - destruct (string_eq_dec k k); [reflexivity | congruence].
  - destruct (string_eq_dec k k0) as [E|N]; simpl.
    + destruct (string_eq_dec k k); [reflexivity | congruence].
    + destruct (string_eq_dec k k0); [congruence | exact IH].
Qed.

Lemma Map_get_None k m : ~ In k (Map_keys m) -> Map_get k m = None.
Proof.
  unfold Map_keys. induction m as [|[k0 v0] m IH]; simpl; intros H.
  - reflexivity.
  - destruct (string_eq_dec k k0) as [->|N]; [tauto|]. apply IH. tauto.
Qed.

Lemma Map_get_delete k k' m :
  NoDup (Map_keys m) ->
  Map_get k (Map_delete k' m)
  = if string_eq_dec k k' then None else Map_get k m.
Proof.
  unfold Map_keys. induction m as [|[k0 v0] m IH]; simpl; intros H.
  - now destruct (string_eq_dec k k').
  - inversion H as [|? ? Hn Hm]; subst.
    destruct (string_eq_dec k' k0) as [->|N].
    + destruct (string_eq_dec k k0) as [->|N'].
      * now apply Map_get_None.
      * reflexivity.
    + simpl. destruct (string_eq_dec k k0) as [->|N'].
      * destruct (string_eq_dec k0 k'); [congruence | reflexivity].
      * now apply IH.
Qed.

End MapFacts.

(** ** The store: insertion and eviction *)

Lemma oldestEntry_spec (entries : Map Rag.Document) :
  entries <> [] ->
  exists before victim after,
    entries = before ++ victim :: after
    /\ Rag.oldestEntry entries = Some victim
    /\ (forall x, In x before ->
          Rag.timestampOrZero (snd victim) < Rag.timestampOrZero (snd x))
    /\ (forall x, In x after ->
          Rag.timestampOrZero (snd victim) <= Rag.timestampOrZero (snd x)).
Proof.
  intros Hne.
  destruct (sort_head_first_least
              (fun entry : jsstring * Rag.Document =>
                 Rag.timestampOrZero (snd entry)) entries Hne)
    as (before & victim & after & rest & E & Hs & Hb & Ha).
  exists before, victim, after. split; [exact E|]. split; [|now split].
  unfold Rag.oldestEntry.
  change Rag.olderFirst
    with (fun a b : jsstring * Rag.Document =>
            0 <? Rag.timestampOrZero (snd a) - Rag.timestampOrZero (snd b)).
  now rewrite Hs.
Qed.

Section Store.
Context {host : Host}.

Lemma addDocument_id (store : Rag.RAGStore) (e : Rag.Entropy)
    (doc : Rag.NewDocument) :
  snd (Rag.addDocument store e doc) = Rag.makeId e.
Proof. reflexivity. Qed.

Lemma addDocument_config (store : Rag.RAGStore) (e : Rag.Entropy)
    (doc : Rag.NewDocument) :
  Rag.config (fst (Rag.addDocument store e doc)) = Rag.config store.
Proof. reflexivity. Qed.

Lemma addDocuments_config (calls : list (Rag.Entropy * Rag.NewDocument))
    (store : Rag.RAGStore) :
  Rag.config (Spec.addDocuments store calls) = Rag.config store.
Proof.
  revert store; induction calls as [|[e doc] calls IH]; intros store; simpl.
  - reflexivity.
  - now rewrite IH.
Qed.

(** The documents after [addDocument], in terms of the map after [set]. *)
Lemma addDocument_documents (store : Rag.RAGStore) (e : Rag.Entropy)
    (doc : Rag.NewDocument) :
  let docs := Map_set (Rag.makeId e) (Rag.storedDocument e doc)
                      (Rag.documents store) in
  (Map_size docs <= Rag.maxDocuments (Rag.config store) ->
     Rag.documents (fst (Rag.addDocument store e doc)) = docs)
  /\ (Rag.maxDocuments (Rag.config store) < Map_size docs ->
      exists before victim after,
        docs = before ++ victim :: after
        /\ Rag.documents (fst (Rag.addDocument store e doc))
           = Map_delete (fst victim) docs
        /\ (forall x, In x before ->
              Rag.timestampOrZero (snd victim) < Rag.timestampOrZero (snd x))
        /\ (forall x, In x after ->
              Rag.timestampOrZero (snd victim)
              <= Rag.timestampOrZero (snd x))).
Proof.
  intros docs. unfold Rag.addDocument; cbv zeta. fold docs. cbn [fst Rag.documents].
  destruct (Z.ltb_spec (Rag.maxDocuments (Rag.config store)) (Map_size docs))
    as [Hover|Hfits].
  - split; [lia|]. intros _.
    assert (Hne : docs <> []) by apply Map_set_nonempty.
    destruct (oldestEntry_spec docs Hne)
      as (before & [k v] & after & E & Ho & Hb & Ha).
    exists before, (k, v), after. rewrite Ho. now repeat split.
  - split; [reflexivity | lia].
Qed.

Lemma addDocument_entries (store : Rag.RAGStore) (e : Rag.Entropy)
    (doc : Rag.NewDocument) (entry : jsstring * Rag.Document) :
  In entry (Rag.documents (fst (Rag.addDocument store e doc))) ->
  entry = (Rag.makeId e, Rag.storedDocument e doc)
  \/ In entry (Rag.documents store).
Proof.
  destruct (addDocument_documents store e doc) as [Hfits Hover].
  destruct (Z.le_gt_cases
              (Map_size (Map_set (Rag.makeId e) (Rag.storedDocument e doc)
                                 (Rag.documents store)))
              (Rag.maxDocuments (Rag.config store))) as [H|H].
  - rewrite (Hfits H). apply Map_set_In.
  - destruct (Hover H) as (before & victim & after & _ & -> & _).
    intros Hin. eapply Map_set_In, Map_delete_In, Hin.
Qed.

Lemma addDocument_NoDup (store : Rag.RAGStore) (e : Rag.Entropy)
    (doc : Rag.NewDocument) :
  NoDup (Map_keys (Rag.documents store)) ->
  NoDup (Map_keys (Rag.documents (fst (Rag.addDocument store e doc)))).
Proof.
  intros Hnd.
  destruct (addDocument_documents store e doc) as [Hfits Hover].
  destruct (Z.le_gt_cases
              (Map_size (Map_set (Rag.makeId e) (Rag.storedDocument e doc)
                                 (Rag.documents store)))
              (Rag.maxDocuments (Rag.config store))) as [H|H].
  - rewrite (Hfits H). now apply Map_set_NoDup.
  - destruct (Hover H) as (before & victim & after & _ & -> & _).
    now apply Map_delete_NoDup, Map_set_NoDup.
Qed.

(** What holds of every state of a store: the keys are the ids, pairwise
    distinct, and every document carries the embedding of its content and
    the metadata that the store assigns. *)
Lemma reachable_invariant (store : Rag.RAGStore) :
  Spec.reachable store ->
  NoDup (Map_keys (Rag.documents store))
  /\ forall k d, In (k, d) (Rag.documents store) ->
       Rag.id d = k
       /\ Rag.embedding d = Some (Rag.generateSimpleEmbedding (Rag.content d))
       /\ exists m t,
            Rag.metadata d = Some m /\ Rag.timestamp m = Some t
            /\ Rag.timestampOrZero d = t
            /\ Rag.size m = Some (String_length (Rag.content d)).
Proof.
  induction 1 as [config|store e doc Hr [IH1 IH2]|store id Hr [IH1 IH2]
                 |store Hr [IH1 IH2]].
  - split; [constructor | intros k d []].
  - split; [now apply addDocument_NoDup|].
    intros k d Hin. apply addDocument_entries in Hin.
    destruct Hin as [E|Hin]; [|now apply IH2].
    injection E as -> ->. split; [reflexivity|]. split; [reflexivity|].
    eexists; eexists. repeat split.
  - simpl. split; [now apply Map_delete_NoDup|].
    intros k d Hin. apply Map_delete_In in Hin. now apply IH2.
  - split; [constructor | intros k d []].
Qed.

(** C2.  A document that [addDocument] has put in a store, fetched by the
    id returned, carries the time of its insertion as [metadata.timestamp]
    and the length of its content as [metadata.size], whatever the caller
    gave for the two; [source] and [type] are the caller's, and so are the
    title and the content. *)
Theorem addDocument_assigns_timestamp_and_size (store : Rag.RAGStore)
    (e : Rag.Entropy) (doc : Rag.NewDocument) (found : Rag.Document) :
  Spec.reachable store ->
  Map_get (snd (Rag.addDocument store e doc))
          (Rag.documents (fst (Rag.addDocument store e doc))) = Some found ->
  Rag.title found = Rag.new_title doc
  /\ Rag.content found = Rag.new_content doc
  /\ exists m,
       Rag.metadata found = Some m
       /\ Rag.timestamp m = Some (Rag.now_for_timestamp e)
       /\ Rag.size m = Some (String_length (Rag.new_content doc))
       /\ Rag.source m
          = match Rag.new_metadata doc with
            | Some given => Rag.source given
            | None => None
            end
       /\ Rag.type m
          = match Rag.new_metadata doc with
            | Some given => Rag.type given
            | None => None
            end.
Proof.
  intros Hr Hget. rewrite addDocument_id in Hget.
  destruct (reachable_invariant store Hr) as [Hnd _].
  assert (E : found = Rag.storedDocument e doc).
  { destruct (addDocument_documents store e doc) as [Hfits Hover].
    destruct (Z.le_gt_cases
                (Map_size (Map_set (Rag.makeId e) (Rag.storedDocument e doc)
                                   (Rag.documents store)))
                (Rag.maxDocuments (Rag.config store))) as [H|H].
    - rewrite (Hfits H), Map_get_set in Hget. congruence.
    - destruct (Hover H) as (before & victim & after & _ & Hd & _).
      rewrite Hd, Map_get_delete in Hget by now apply Map_set_NoDup.
      destruct (string_eq_dec (Rag.makeId e) (fst victim)); [discriminate|].
      rewrite Map_get_set in Hget. congruence. }
  subst found. split; [reflexivity|]. split; [reflexivity|].
  eexists. split; [reflexivity|].
  cbn. repeat split; destruct (Rag.new_metadata doc); reflexivity.
Qed.

End Store.

Section Capacity.
Context {host : Host}.

(** An insertion never takes a store above a capacity it was within. *)
Lemma addDocument_size_le (store : Rag.RAGStore) (e : Rag.Entropy)
    (doc : Rag.NewDocument) :
  Map_size (Rag.documents store) <= Rag.maxDocuments (Rag.config store) ->
  Map_size (Rag.documents (fst (Rag.addDocument store e doc)))
  <= Rag.maxDocuments (Rag.config store).
Proof.
  intros Hle.
  destruct (addDocument_documents store e doc) as [Hfits Hover].
  pose proof (Map_set_size (Rag.makeId e) (Rag.storedDocument e doc)
                           (Rag.documents store)) as Hs.
  destruct (Z.le_gt_cases
              (Map_size (Map_set (Rag.makeId e) (Rag.storedDocument e doc)
                                 (Rag.documents store)))
              (Rag.maxDocuments (Rag.config store))) as [H|H].
  - now rewrite (Hfits H).
  - destruct (Hover H)
      as (before & victim & after & E & -> & _).
    rewrite Map_delete_size; [lia|].
    rewrite E. unfold Map_keys. rewrite map_app. apply in_or_app.
    right. now left.
Qed.

Lemma addDocuments_size_le (calls : list (Rag.Entropy * Rag.NewDocument))
    (store : Rag.RAGStore) :
  Map_size (Rag.documents store) <= Rag.maxDocuments (Rag.config store) ->
  Map_size (Rag.documents (Spec.addDocuments store calls))
  <= Rag.maxDocuments (Rag.config store).
Proof.
  revert store; induction calls as [|[e doc] calls IH]; intros store Hle;
    simpl; [exact Hle|].
  rewrite <- (addDocument_config store e doc).
  apply IH. rewrite addDocument_config. now apply addDocument_size_le.
Qed.

(** An insertion under a new id: the entry is appended, and when that takes
    the store above its capacity, one entry is removed, the first of those
    of the least timestamp. *)
Lemma addDocument_fresh (store : Rag.RAGStore) (e : Rag.Entropy)
    (doc : Rag.NewDocument) :
  NoDup (Map_keys (Rag.documents store)) ->
  ~ In (Rag.makeId e) (Map_keys (Rag.documents store)) ->
  let entries :=
    Rag.documents store ++ [(Rag.makeId e, Rag.storedDocument e doc)] in
  (Map_size (Rag.documents store) + 1 <= Rag.maxDocuments (Rag.config store) ->
     Rag.documents (fst (Rag.addDocument store e doc)) = entries)
  /\ (Rag.maxDocuments (Rag.config store) < Map_size (Rag.documents store) + 1 ->
      exists before victim after,
        entries = before ++ victim :: after
        /\ Rag.documents (fst (Rag.addDocument store e doc)) = before ++ after
        /\ (forall x, In x before ->
              Rag.timestampOrZero (snd victim) < Rag.timestampOrZero (snd x))
        /\ (forall x, In x after ->
              Rag.timestampOrZero (snd victim)
              <= Rag.timestampOrZero (snd x))).
Proof.
  intros Hnd Hfresh entries.
  destruct (addDocument_documents store e doc) as [Hfits Hover].
  pose proof (Map_set_NoDup (Rag.makeId e) (Rag.storedDocument e doc) _ Hnd)
    as Hnd'.
  rewrite (Map_set_fresh _ _ _ Hfresh) in Hfits, Hover, Hnd'.
  fold entries in Hfits, Hover, Hnd'.
  assert (Hsize : Map_size entries = Map_size (Rag.documents store) + 1).
  { unfold entries, Map_size. rewrite length_app. simpl. lia. }
  rewrite Hsize in Hfits, Hover.
  split; [exact Hfits|]. intros H.
  destruct (Hover H) as (before & [k v] & after & E & Hd & Hb & Ha).
  exists before, (k, v), after. split; [exact E|]. split; [|now split].
  rewrite Hd, E. apply Map_delete_middle.
  rewrite E in Hnd'. unfold Map_keys in *. rewrite map_app in Hnd'.
  apply NoDup_remove_2 in Hnd'. intros Hin. apply Hnd'.
  apply in_or_app. now left.
Qed.

Lemma addDocument_fresh_size (store : Rag.RAGStore) (e : Rag.Entropy)
    (doc : Rag.NewDocument) :
  NoDup (Map_keys (Rag.documents store)) ->
  ~ In (Rag.makeId e) (Map_keys (Rag.documents store)) ->
  Map_size (Rag.documents store) <= Rag.maxDocuments (Rag.config store) ->
  Map_size (Rag.documents (fst (Rag.addDocument store e doc)))
  = Z.min (Map_size (Rag.documents store) + 1)
          (Rag.maxDocuments (Rag.config store)).
Proof.
  intros Hnd Hfresh Hle.
  destruct (addDocument_fresh store e doc Hnd Hfresh) as [Hfits Hover].
  assert (Hsize : Map_size (Rag.documents store
                            ++ [(Rag.makeId e, Rag.storedDocument e doc)])
                  = Map_size (Rag.documents store) + 1).
  { unfold Map_size. rewrite length_app. simpl. lia. }
  destruct (Z.le_gt_cases (Map_size (Rag.documents store) + 1)
                          (Rag.maxDocuments (Rag.config store))) as [H|H].
  - rewrite (Hfits H), Hsize. lia.
  - destruct (Hover H)
      as (before & victim & after & E & -> & _).
    rewrite E in Hsize. unfold Map_size in *.
    rewrite length_app in *. simpl in Hsize. lia.
Qed.

Lemma addDocument_keys (store : Rag.RAGStore) (e : Rag.Entropy)
    (doc : Rag.NewDocument) (k : jsstring) :
  In k (Map_keys (Rag.documents (fst (Rag.addDocument store e doc)))) ->
  k = Rag.makeId e \/ In k (Map_keys (Rag.documents store)).
Proof.
  unfold Map_keys. intros Hin. apply in_map_iff in Hin.
  destruct Hin as (entry & <- & Hin). apply addDocument_entries in Hin.
  destruct Hin as [->|Hin]; [now left|]. right. now apply in_map.
Qed.

(** Calls under pairwise distinct new ids fill the store up to its
    capacity and keep it there. *)
Lemma addDocuments_fresh_size (calls : list (Rag.Entropy * Rag.NewDocument))
    (store : Rag.RAGStore) :
  NoDup (map (fun call => Rag.makeId (fst call)) calls) ->
  (forall call, In call calls ->
     ~ In (Rag.makeId (fst call)) (Map_keys (Rag.documents store))) ->
  NoDup (Map_keys (Rag.documents store)) ->
  Map_size (Rag.documents store) <= Rag.maxDocuments (Rag.config store) ->
  Map_size (Rag.documents (Spec.addDocuments store calls))
  = Z.min (Map_size (Rag.documents store) + Z.of_nat (List.length calls))
          (Rag.maxDocuments (Rag.config store)).
Proof.
  revert store; induction calls as [|[e doc] calls IH];
    intros store Hids Hfresh Hnd Hle.
  - simpl. lia.
  - cbn [Spec.addDocuments]. inversion Hids as [|? ? Hhead Htail]; subst.
    assert (Hnew : ~ In (Rag.makeId e) (Map_keys (Rag.documents store)))
      by (apply (Hfresh (e, doc)); now left).
    rewrite IH.
    + rewrite addDocument_config.
      rewrite (addDocument_fresh_size store e doc Hnd Hnew Hle).
      cbn [List.length]. lia.
    + exact Htail.
    + intros call Hcall Hin. apply addDocument_keys in Hin.
      destruct Hin as [E|Hin].
      * apply Hhead. cbn [fst] in E. rewrite <- E.
        apply (in_map (fun call => Rag.makeId (fst call))), Hcall.
      * apply (Hfresh call); [now right | exact Hin].
    + now apply addDocument_NoDup.
    + rewrite addDocument_config. now apply addDocument_size_le.
Qed.

(** C1 (as the code has it).  For a store of capacity [maxDocuments >= 1]:
    - after any sequence of [addDocument] calls on a new store it holds at
      most [maxDocuments] documents;
    - [maxDocuments + 1] calls, under ids that differ, leave exactly
      [maxDocuments] documents;
    - an insertion under a new id into a full store removes exactly one of
      the entries, the new one included: the one of the least
      [metadata.timestamp], and among several of that timestamp the one
      inserted first; when the timestamps do not decrease in the order of
      insertion, it is the entry inserted first of all. *)
Theorem addDocument_capacity_and_eviction (config : Rag.RAGConfig) :
  1 <= Rag.maxDocuments config ->
  (forall calls,
     Map_size (Rag.documents (Spec.addDocuments (Rag.newStore config) calls))
     <= Rag.maxDocuments config)
  /\ (forall calls,
        Z.of_nat (List.length calls) = Rag.maxDocuments config + 1 ->
        NoDup (map (fun call => Rag.makeId (fst call)) calls) ->
        Map_size (Rag.documents
                    (Spec.addDocuments (Rag.newStore config) calls))
        = Rag.maxDocuments config)
  /\ (forall store e doc,
        Spec.reachable store ->
        Rag.config store = config ->
        Map_size (Rag.documents store) = Rag.maxDocuments config ->
        ~ In (Rag.makeId e) (Map_keys (Rag.documents store)) ->
        exists before victim after,
          Rag.documents store ++ [(Rag.makeId e, Rag.storedDocument e doc)]
          = before ++ victim :: after
          /\ Rag.documents (fst (Rag.addDocument store e doc))
             = before ++ after
          /\ Map_size (Rag.documents (fst (Rag.addDocument store e doc)))
             = Rag.maxDocuments config
          /\ (exists m, Rag.metadata (snd victim) = Some m
                /\ Rag.timestamp m = Some (Rag.timestampOrZero (snd victim)))
          /\ (forall x, In x before ->
                Rag.timestampOrZero (snd victim)
                < Rag.timestampOrZero (snd x))
          /\ (forall x, In x after ->
                Rag.timestampOrZero (snd victim)
                <= Rag.timestampOrZero (snd x))
          /\ (StronglySorted
                (fun a b => Rag.timestampOrZero (snd a)
                            <= Rag.timestampOrZero (snd b))
                (Rag.documents store
                 ++ [(Rag.makeId e, Rag.storedDocument e doc)]) ->
              before = [])).
Proof.
  intros Hcap. split; [|split].
  - intros calls.
    apply (addDocuments_size_le calls (Rag.newStore config)).
    unfold Map_size; simpl. lia.
  - intros calls Hlen Hids.
    rewrite (addDocuments_fresh_size calls (Rag.newStore config)).
    + unfold Map_size; simpl. lia.
    + exact Hids.
    + intros call _ [].
    + constructor.
    + unfold Map_size; simpl. lia.
  - intros store e doc Hr Hcfg Hfull Hfresh.
    destruct (reachable_invariant store Hr) as [Hnd Hdocs].
    destruct (addDocument_fresh store e doc Hnd Hfresh) as [_ Hover].
    rewrite Hcfg in Hover.
    destruct Hover as (before & victim & after & E & Hd & Hb & Ha); [lia|].
    exists before, victim, after.
    split; [exact E|]. split; [exact Hd|]. split; [|split; [|split; [|split]]].
    + rewrite (addDocument_fresh_size store e doc Hnd Hfresh);
        rewrite Hcfg; lia.
    + assert (Hin : In victim (Rag.documents store
                       ++ [(Rag.makeId e, Rag.storedDocument e doc)]))
        by (rewrite E; apply in_or_app; right; now left).
      apply in_app_or in Hin. destruct Hin as [Hin|[<-|[]]].
      * destruct victim as [k d].
        destruct (Hdocs k d Hin) as (_ & _ & m & t & Hm & Ht & Hz & _).
        exists m. cbn [snd]. now rewrite Hz.
      * eexists. split; reflexivity.
    + exact Hb.
    + exact Ha.
    + intros Hsorted. rewrite E in Hsorted.
      destruct before as [|x before]; [reflexivity|].
      simpl in Hsorted. apply StronglySorted_inv in Hsorted.
      destruct Hsorted as [_ Hall]. rewrite Forall_forall in Hall.
      specialize (Hall victim ltac:(apply in_or_app; right; now left)).
      specialize (Hb x ltac:(now left)). lia.
Qed.

End Capacity.

(** ** searchDocuments *)

Lemma dropWhile_nil {A} (p : A -> bool) (l : list A) :
  dropWhile p l = [] <-> Forall (fun x => p x = true) l.
Proof.
  induction l as [|x l IH]; simpl.
  - split; [constructor | reflexivity].
  - destruct (p x) eqn:E.
    + rewrite IH. split; [now constructor | now inversion 1].
    + split; [discriminate | inversion 1; congruence].
Qed.

Lemma dropWhile_head {A} (p : A -> bool) (l : list A) (x : A) (rest : list A) :
  dropWhile p l = x :: rest -> p x = false.
Proof.
  induction l as [|y l IH]; simpl; [discriminate|].
  destruct (p y) eqn:E; [exact IH|]. intros H; injection H as -> _. exact E.
Qed.

(** [!query.trim()] holds of the blank strings and of no other. *)
Lemma trim_nil (s : jsstring) : trim s = [] <-> blank s.
Proof.
  unfold trim, blank. split.
  - intros H. apply (f_equal (@rev Z)) in H. rewrite rev_involutive in H.
    simpl in H. apply dropWhile_nil in H.
    apply Forall_rev in H. rewrite rev_involutive in H.
    destruct (dropWhile isWhiteSpace s) as [|x rest] eqn:E.
    + now apply dropWhile_nil.
    + apply dropWhile_head in E. inversion H; congruence.
  - intros H. apply dropWhile_nil in H. now rewrite H.
Qed.

Lemma StronglySorted_among {A} (R R' : A -> A -> Prop) (l : list A) :
  (forall a b, In a l -> In b l -> R a b -> R' a b) ->
  StronglySorted R l -> StronglySorted R' l.
Proof.
  intros Himp H. induction H as [|x l Hl IH Hx]; constructor.
  - apply IH. intros a b Ha Hb. apply Himp; now right.
  - rewrite Forall_forall in *. intros y Hy.
    apply Himp; [now left | now right | now apply Hx].
Qed.

Lemma StronglySorted_map {A B} (f : A -> B) (R : B -> B -> Prop) (l : list A) :
  StronglySorted (fun a b => R (f a) (f b)) l -> StronglySorted R (map f l).
Proof.
  induction 1 as [|x l Hl IH Hx]; simpl; constructor; [exact IH|].
  rewrite Forall_forall in *. intros y Hy. apply in_map_iff in Hy.
  destruct Hy as (a & <- & Ha). now apply Hx.
Qed.

Section Search.
Context {host : Host}.

Lemma higherFirst_sorted (results : list (Rag.Document * R)) :
  StronglySorted (fun a b => (snd a >= snd b)%R)
                 (sort Rag.higherFirst results).
Proof.
  apply sort_sorted.
  - intros x y z Hxy Hyz. lra.
  - intros x y. unfold Rag.higherFirst.
    destruct (Rlt_dec 0 (snd y - snd x)); [discriminate|]. intros _. lra.
  - intros x y. unfold Rag.higherFirst.
    destruct (Rlt_dec 0 (snd y - snd x)); [|discriminate]. intros _. lra.
Qed.

(** C3.  On every state of a store: a blank query returns no document and
    computes no embedding.  Any other query computes the embedding of the
    query only; every document returned is a stored one whose score, the
    cosine similarity of the query's embedding and its own, is at least
    [similarityThreshold]; the documents come in descending order of that
    score; and, for a [maxRetrievedDocs] that is not negative, there are at
    most [maxRetrievedDocs] of them. *)
Theorem searchDocuments_threshold_order_cap (store : Rag.RAGStore)
    (query : jsstring) :
  Spec.reachable store ->
  (blank query -> Rag.searchDocuments store query = ([], []))
  /\ (~ blank query ->
      let queryEmbedding := Rag.generateSimpleEmbedding query in
      let result := snd (Rag.searchDocuments store query) in
      fst (Rag.searchDocuments store query) = [query]
      /\ (forall d, In d result ->
            In d (Rag.getAllDocuments store)
            /\ exists e,
                 Rag.embedding d = Some e
                 /\ Rag.scoreDocument query queryEmbedding d
                    = Rag.cosineSimilarity queryEmbedding e
                 /\ (Rag.cosineSimilarity queryEmbedding e
                     >= Rag.similarityThreshold (Rag.config store))%R)
      /\ StronglySorted
           (fun a b => (Rag.scoreDocument query queryEmbedding a
                        >= Rag.scoreDocument query queryEmbedding b)%R)
           result
      /\ (0 <= Rag.maxRetrievedDocs (Rag.config store) ->
          Z.of_nat (List.length result)
          <= Rag.maxRetrievedDocs (Rag.config store))).
Proof.
  intros Hr. split.
  - intros Hblank. apply trim_nil in Hblank.
    unfold Rag.searchDocuments. now rewrite Hblank.
  - intros Hquery queryEmbedding result.
    destruct (reachable_invariant store Hr) as [_ Hdocs].
    unfold Rag.searchDocuments in result |- *.
    destruct (trim query) as [|c rest] eqn:Htrim;
      [exfalso; apply Hquery; now apply trim_nil|].
    cbv zeta in result. cbn [fst snd] in result |- *.
    fold queryEmbedding in result.
    set (results :=
           flat_map
             (fun doc =>
                if Rge_dec (Rag.scoreDocument query queryEmbedding doc)
                           (Rag.similarityThreshold (Rag.config store))
                then [(doc, Rag.scoreDocument query queryEmbedding doc)]
                else [])
             (Map_values (Rag.documents store))) in *.
    set (kept := slice (sort Rag.higherFirst results) 0
                       (Rag.maxRetrievedDocs (Rag.config store))) in *.
    assert (Hresults : forall p, In p results ->
              In (fst p) (Map_values (Rag.documents store))
              /\ snd p = Rag.scoreDocument query queryEmbedding (fst p)
              /\ (snd p >= Rag.similarityThreshold (Rag.config store))%R).
    { intros p Hp. apply in_flat_map in Hp. destruct Hp as (doc & Hdoc & Hp).
      destruct (Rge_dec _ _) as [Hge|]; [|contradiction].
      destruct Hp as [<-|[]]. now repeat split. }
    assert (Hkept : forall p, In p kept -> In p results).
    { intros p Hp. apply slice_In in Hp. now apply sort_In in Hp. }
    split; [reflexivity|]. split; [|split].
    + intros d Hd. apply in_map_iff in Hd. destruct Hd as (p & <- & Hp).
      destruct (Hresults p (Hkept p Hp)) as (Hin & Hscore & Hge).
      split; [exact Hin|].
      unfold Map_values in Hin. apply in_map_iff in Hin.
      destruct Hin as ([k d] & Efst & Hin). cbn [snd] in Efst.
      destruct (Hdocs k d Hin) as (_ & Hemb & _).
      exists (Rag.generateSimpleEmbedding (Rag.content d)).
      rewrite <- Efst. split; [exact Hemb|].
      assert (Es : Rag.scoreDocument query queryEmbedding d
                   = Rag.cosineSimilarity queryEmbedding
                       (Rag.generateSimpleEmbedding (Rag.content d)))
        by (unfold Rag.scoreDocument; now rewrite Hemb).
      split; [exact Es|]. rewrite <- Es, Efst, <- Hscore. exact Hge.
    + apply StronglySorted_map.
      apply StronglySorted_among
        with (R := fun a b : Rag.Document * R => (snd a >= snd b)%R).
      * intros a b Ha Hb Hab.
        destruct (Hresults a (Hkept a Ha)) as (_ & <- & _).
        destruct (Hresults b (Hkept b Hb)) as (_ & <- & _). exact Hab.
      * apply slice_sorted, higherFirst_sorted.
    + intros Hcap. unfold result. rewrite length_map.
      now apply slice_prefix_length.
Qed.

End Search.

(** ** Instances on concrete stores *)

Lemma addDocument_capacity_and_eviction_witness :
  let config := {| Rag.maxDocuments := 2; Rag.chunkSize := 1000;
                   Rag.chunkOverlap := 200;
                   Rag.similarityThreshold := (5 / 10)%R;
                   Rag.maxRetrievedDocs := 5 |} in
  let call (now : Z) (random : string) (text : string) :=
    ({| Rag.now_for_id := now; Rag.random36 := units random;
        Rag.now_for_timestamp := now |},
     {| Rag.new_title := units text; Rag.new_content := units text;
        Rag.new_metadata := None |}) in
  let calls := [ call 1700000000001 "0.k3j9x0a1bcd" "first";
                 call 1700000000002 "0.9zq8w7e6rty" "second";
                 call 1700000000002 "0.5tg4rf3edws" "third" ]%string in
  1 <= Rag.maxDocuments config
  /\ Map_size (Rag.documents
                 (@Spec.addDocuments AsciiHost (Rag.newStore config) calls))
     = 2.
Proof.
  intros config call calls.
  assert (Hcap : 1 <= Rag.maxDocuments config) by (simpl; lia).
  split; [exact Hcap|].
  destruct (@addDocument_capacity_and_eviction AsciiHost config Hcap)
    as (_ & Hfull & _).
  apply (Hfull calls); [reflexivity|].
  vm_compute.
  repeat constructor; simpl; intuition discriminate.
Defined.

(** C1 as stated does not hold.  In a store of capacity 2:
    - three insertions whose generated ids coincide (the same millisecond
      and the same random digits) leave one document, not two;
    - when the clock has been set back between the insertions, the
      insertion beyond the capacity evicts the document of the least
      timestamp, which is the one just inserted: the document inserted
      first of all stays. *)
Lemma addDocument_collision_and_clock_set_back :
  let config := {| Rag.maxDocuments := 2; Rag.chunkSize := 1000;
                   Rag.chunkOverlap := 200;
                   Rag.similarityThreshold := (5 / 10)%R;
                   Rag.maxRetrievedDocs := 5 |} in
  let call (now : Z) (random : string) (text : string) :=
    ({| Rag.now_for_id := now; Rag.random36 := units random;
        Rag.now_for_timestamp := now |},
     {| Rag.new_title := units text; Rag.new_content := units text;
        Rag.new_metadata := None |}) in
  let same := [ call 1700000000001 "0.k3j9x0a1bcd" "first";
                call 1700000000001 "0.k3j9x0a1bcd" "second";
                call 1700000000001 "0.k3j9x0a1bcd" "third" ]%string in
  let set_back := [ call 1700000000001 "0.k3j9x0a1bcd" "first";
                    call 1700000000002 "0.9zq8w7e6rty" "second";
                    call 1600000000000 "0.5tg4rf3edws" "third" ]%string in
  Map_size (Rag.documents
              (@Spec.addDocuments AsciiHost (Rag.newStore config) same)) = 1
  /\ map Rag.title
         (Rag.getAllDocuments
            (@Spec.addDocuments AsciiHost (Rag.newStore config) same))
     = [units "third"]
  /\ map Rag.title
         (Rag.getAllDocuments
            (@Spec.addDocuments AsciiHost (Rag.newStore config) set_back))
     = [units "first"; units "second"].
Proof.
  intros config call same set_back.
  split; [|split]; reflexivity.
Qed.

Lemma addDocument_assigns_timestamp_and_size_witness :
  let e := {| Rag.now_for_id := 1700000000001;
              Rag.random36 := units "0.k3j9x0a1bcd";
              Rag.now_for_timestamp := 1700000000002 |} in
  let doc := {| Rag.new_title := units "Notes";
                Rag.new_content := units "the quick brown fox";
                Rag.new_metadata :=
                  Some {| Rag.source := Some (units "upload");
                          Rag.type := Some (units "note");
                          Rag.timestamp := Some 1;
                          Rag.size := Some 999 |} |} in
  let store := Rag.newStore Rag.DEFAULT_RAG_CONFIG in
  let found := @Rag.storedDocument AsciiHost e doc in
  Map_get (snd (@Rag.addDocument AsciiHost store e doc))
          (Rag.documents (fst (@Rag.addDocument AsciiHost store e doc)))
  = Some found
  /\ exists m,
       Rag.metadata found = Some m
       /\ Rag.timestamp m = Some 1700000000002
       /\ Rag.size m = Some 19
       /\ Rag.source m = Some (units "upload")
       /\ Rag.type m = Some (units "note").
Proof.
  intros e doc store found.
  assert (Hget : Map_get (snd (@Rag.addDocument AsciiHost store e doc))
                   (Rag.documents (fst (@Rag.addDocument AsciiHost store e doc)))
                 = Some found).
  { unfold Rag.addDocument, store; cbv zeta. cbn [fst snd Rag.documents
      Rag.newStore Rag.config Rag.DEFAULT_RAG_CONFIG Rag.maxDocuments Map_set
      Map_size List.length].
    change (1000 <? Z.of_nat 1) with false. cbn [Map_get].
    destruct (string_eq_dec (Rag.makeId e) (Rag.makeId e)); [|congruence].
    reflexivity. }
  split; [exact Hget|].
  destruct (@addDocument_assigns_timestamp_and_size AsciiHost store e doc found
              (Spec.reach_new _) Hget) as (_ & _ & m & Hm & Ht & Hs & Hsrc & Hty).
  exists m. repeat split; assumption.
Defined.

Lemma searchDocuments_threshold_order_cap_witness :
  let e := {| Rag.now_for_id := 1700000000001;
              Rag.random36 := units "0.k3j9x0a1bcd";
              Rag.now_for_timestamp := 1700000000002 |} in
  let doc := {| Rag.new_title := units "A";
                Rag.new_content := units "the quick brown fox";
                Rag.new_metadata := None |} in
  let store :=
    fst (@Rag.addDocument AsciiHost
           (Rag.newStore Rag.DEFAULT_RAG_CONFIG) e doc) in
  @Spec.reachable AsciiHost store
  /\ ~ blank (units "quick fox")
  /\ @Rag.searchDocuments AsciiHost store (units "  ") = ([], [])
  /\ Z.of_nat (List.length
                 (snd (@Rag.searchDocuments AsciiHost store (units "quick fox"))))
     <= 5.
Proof.
  intros e doc store.
  assert (Hr : @Spec.reachable AsciiHost store)
    by (apply Spec.reach_add, Spec.reach_new).
  assert (Hq : ~ blank (units "quick fox"))
    by (intros H; inversion H; discriminate).
  split; [exact Hr|]. split; [exact Hq|].
  destruct (@searchDocuments_threshold_order_cap AsciiHost store
              (units "quick fox") Hr) as [_ H].
  destruct (@searchDocuments_threshold_order_cap AsciiHost store
              (units "  ") Hr) as [Hblank _].
  split; [apply Hblank; repeat constructor|].
  destruct (H Hq) as (_ & _ & _ & Hcap).
  apply Hcap. unfold store. rewrite addDocument_config. simpl. lia.
Defined.

(* ===================================================================== *)
(** * Part III: further properties of the code                             *)
(* ===================================================================== *)

(** ** cosineSimilarity *)

Lemma cosine_loop (a b : list R) (dot normA normB : R) :
  List.length a = List.length b ->
  fold_left
    (fun '(dotProduct, normA, normB) '(x, y) =>
       ((dotProduct + x * y)%R, (normA + x * x)%R, (normB + y * y)%R))
    (combine a b) (dot, normA, normB)
  = ((dot + Spec.dotProduct a b)%R, (normA + Rag.sumSquares a)%R,
     (normB + Rag.sumSquares b)%R).
Proof.
  revert b dot normA normB; induction a as [|x a IH];
    intros [|y b] dot normA normB Hlen; simpl in Hlen; try discriminate.
  - simpl. unfold Rag.sumSquares; simpl. now rewrite !Rplus_0_r.
  - cbn [combine fold_left]. rewrite IH by congruence.
    rewrite !sumSquares_cons. cbn [Spec.dotProduct].
    f_equal; [f_equal|]; ring.
Qed.

(** The value of [cosineSimilarity] on vectors of one length, in terms of
    the dot product and of the sums of squares. *)
Lemma cosineSimilarity_same_length (a b : list R) :
  List.length a = List.length b ->
  Rag.cosineSimilarity a b
  = if Rlt_dec 0 (Rag.sumSquares a * Rag.sumSquares b)
    then (Spec.dotProduct a b
          / (sqrt (Rag.sumSquares a) * sqrt (Rag.sumSquares b)))%R
    else 0%R.
Proof.
  intros Hlen. unfold Rag.cosineSimilarity.
  rewrite Hlen, Nat.eqb_refl, cosine_loop by exact Hlen.
  now rewrite !Rplus_0_l.
Qed.

Lemma dotProduct_comm (a b : list R) :
  Spec.dotProduct a b = Spec.dotProduct b a.
Proof.
  revert b; induction a as [|x a IH]; intros [|y b]; simpl; try reflexivity.
  rewrite IH. ring.
Qed.

Lemma dotProduct_self (a : list R) : Spec.dotProduct a a = Rag.sumSquares a.
Proof.
  induction a as [|x a IH]; [reflexivity|].
  simpl. now rewrite sumSquares_cons, IH.
Qed.

Lemma dotProduct_nonneg (a b : list R) :
  Forall (fun v => (0 <= v)%R) a -> Forall (fun v => (0 <= v)%R) b ->
  (0 <= Spec.dotProduct a b)%R.
Proof.
  intros Ha; revert b; induction Ha as [|x a Hx Ha IH]; intros b Hb.
  - simpl. lra.
  - destruct Hb as [|y b Hy Hb]; simpl; [lra|].
    specialize (IH b Hb). nra.
Qed.

Lemma cosineSimilarity_nonneg (a b : list R) :
  Forall (fun v => (0 <= v)%R) a -> Forall (fun v => (0 <= v)%R) b ->
  (0 <= Rag.cosineSimilarity a b)%R.
Proof.
  intros Ha Hb.
  destruct (Nat.eq_dec (List.length a) (List.length b)) as [Hlen|Hlen].
  - rewrite cosineSimilarity_same_length by exact Hlen.
    destruct (Rlt_dec 0 (Rag.sumSquares a * Rag.sumSquares b)) as [Hpos|_];
      [|lra].
    pose proof (dotProduct_nonneg a b Ha Hb).
    pose proof (sumSquares_nonneg a). pose proof (sumSquares_nonneg b).
    apply Rmult_le_pos; [assumption|].
    apply Rlt_le, Rinv_0_lt_compat.
    apply Rmult_lt_0_compat; apply sqrt_lt_R0; nra.
  - unfold Rag.cosineSimilarity.
    apply Nat.eqb_neq in Hlen. rewrite Hlen. lra.
Qed.

Lemma cosineSimilarity_of_itself (v : list R) :
  (0 < Rag.sumSquares v)%R -> Rag.cosineSimilarity v v = 1%R.
Proof.
  intros Hpos. rewrite cosineSimilarity_same_length by reflexivity.
  destruct (Rlt_dec 0 (Rag.sumSquares v * Rag.sumSquares v)) as [_|N];
    [|exfalso; apply N; nra].
  rewrite dotProduct_self, sqrt_sqrt by lra. field. lra.
Qed.

(** X1.  [cosineSimilarity] is 0, not an error and not a division by zero,
    when the two vectors differ in length and when one of them has no
    component other than zero (its sum of squares is 0). *)
Theorem cosineSimilarity_zero_cases (a b : list R) :
  (List.length a <> List.length b -> Rag.cosineSimilarity a b = 0%R)
  /\ (Rag.sumSquares a = 0%R \/ Rag.sumSquares b = 0%R ->
      Rag.cosineSimilarity a b = 0%R).
Proof.
  split.
  - intros Hlen. unfold Rag.cosineSimilarity.
    apply Nat.eqb_neq in Hlen. now rewrite Hlen.
  - intros Hzero.
    destruct (Nat.eq_dec (List.length a) (List.length b)) as [Hlen|Hlen].
    + rewrite cosineSimilarity_same_length by exact Hlen.
      destruct (Rlt_dec 0 (Rag.sumSquares a * Rag.sumSquares b)) as [Hpos|_];
        [|reflexivity].
      exfalso. destruct Hzero as [E|E]; rewrite E in Hpos; lra.
    + unfold Rag.cosineSimilarity.
      apply Nat.eqb_neq in Hlen. now rewrite Hlen.
Qed.

Lemma cosineSimilarity_zero_cases_witness :
  Rag.cosineSimilarity [1; 2]%R [1; 2; 3]%R = 0%R
  /\ Rag.cosineSimilarity [0; 0]%R [3; 4]%R = 0%R.
Proof.
  split.
  - apply (proj1 (cosineSimilarity_zero_cases [1; 2]%R [1; 2; 3]%R)).
    simpl. lia.
  - apply (proj2 (cosineSimilarity_zero_cases [0; 0]%R [3; 4]%R)). left.
    unfold Rag.sumSquares; simpl. ring.
Defined.

(** X3.  [cosineSimilarity] does not depend on the order of its
    arguments. *)
Theorem cosineSimilarity_symmetric (a b : list R) :
  Rag.cosineSimilarity a b = Rag.cosineSimilarity b a.
Proof.
  destruct (Nat.eq_dec (List.length a) (List.length b)) as [Hlen|Hlen].
  - rewrite (cosineSimilarity_same_length a b Hlen).
    rewrite (cosineSimilarity_same_length b a (eq_sym Hlen)).
    rewrite (dotProduct_comm b a).
    rewrite (Rmult_comm (Rag.sumSquares b) (Rag.sumSquares a)).
    rewrite (Rmult_comm (sqrt (Rag.sumSquares b))).
    reflexivity.
  - unfold Rag.cosineSimilarity.
    assert (Hlen' : List.length b <> List.length a) by congruence.
    apply Nat.eqb_neq in Hlen, Hlen'. now rewrite Hlen, Hlen'.
Qed.

(** ** calculateSimpleSimilarity *)

Lemma filter_all {A} (p : A -> bool) (l : list A) :
  (forall x, In x l -> p x = true) -> filter p l = l.
Proof.
  induction l as [|x l IH]; intros H; simpl; [reflexivity|].
  rewrite (H x) by now left. f_equal. apply IH. intros y Hy. apply H. now right.
Qed.

Lemma filter_none {A} (p : A -> bool) (l : list A) :
  (forall x, In x l -> p x = false) -> filter p l = [].
Proof.
  induction l as [|x l IH]; intros H; simpl; [reflexivity|].
  rewrite (H x) by now left. apply IH. intros y Hy. apply H. now right.
Qed.

Lemma split_ws_length_pos (s : jsstring) :
  (0 < List.length (split_ws s))%nat.
Proof.
  pose proof (split_from_nonempty false s) as H. unfold split_ws.
  destruct (split_from false s); [congruence | simpl; lia].
Qed.

Section SimpleSimilarity.
Context {host : Host}.

(** X4.  The lexical score is the share of the query's terms found among
    the document's terms: the number of terms of the query (each counted as
    often as it occurs) that occur in the document, divided by the number
    of terms of the query, which is never 0.  So the score lies between 0
    and 1, it is 1 when every term of the query occurs in the document (as
    for a query scored against itself) and 0 when none does. *)
Theorem calculateSimpleSimilarity_share (query document : jsstring) :
  Rag.calculateSimpleSimilarity query document
  = (INR (List.length
            (filter (fun term =>
                       if in_dec string_eq_dec term
                            (split_ws (toLowerCase document))
                       then true else false)
                    (split_ws (toLowerCase query))))
     / INR (List.length (split_ws (toLowerCase query))))%R
  /\ (0 < List.length (split_ws (toLowerCase query)))%nat
  /\ (0 <= Rag.calculateSimpleSimilarity query document <= 1)%R
  /\ Rag.calculateSimpleSimilarity query query = 1%R
  /\ ((forall term, In term (split_ws (toLowerCase query)) ->
         In term (split_ws (toLowerCase document))) ->
      Rag.calculateSimpleSimilarity query document = 1%R)
  /\ ((forall term, In term (split_ws (toLowerCase query)) ->
         ~ In term (split_ws (toLowerCase document))) ->
      Rag.calculateSimpleSimilarity query document = 0%R).
Proof.
  assert (Hall : forall q d,
            (forall term, In term (split_ws (toLowerCase q)) ->
               In term (split_ws (toLowerCase d))) ->
            Rag.calculateSimpleSimilarity q d = 1%R).
  { intros q d H. unfold Rag.calculateSimpleSimilarity; cbv zeta.
    pose proof (split_ws_length_pos (toLowerCase q)) as Hpos.
    destruct (Z.ltb_spec 0 (Z.of_nat (List.length (split_ws (toLowerCase q)))));
      [|lia].
    rewrite filter_all.
    - field. apply not_0_INR. lia.
    - intros term Hterm. now apply existsb_eqb_In, H. }
  split; [|split; [|split; [|split; [|split]]]].
  - unfold Rag.calculateSimpleSimilarity; cbv zeta.
    pose proof (split_ws_length_pos (toLowerCase query)) as Hpos.
    destruct (Z.ltb_spec 0
                (Z.of_nat (List.length (split_ws (toLowerCase query)))));
      [|lia].
    do 3 f_equal. apply filter_ext. intros term.
    destruct (in_dec string_eq_dec term (split_ws (toLowerCase document)))
      as [Hin|Hout].
    + now apply existsb_eqb_In.
    + destruct (existsb (JS.eqb term) (split_ws (toLowerCase document)))
        eqn:E; [|reflexivity].
      apply existsb_eqb_In in E. contradiction.
  - apply split_ws_length_pos.
  - unfold Rag.calculateSimpleSimilarity; cbv zeta.
    pose proof (split_ws_length_pos (toLowerCase query)) as Hpos.
    destruct (Z.ltb_spec 0
                (Z.of_nat (List.length (split_ws (toLowerCase query)))));
      [|lia].
    set (terms := split_ws (toLowerCase query)) in *.
    set (found := filter _ terms).
    assert (Hle : (List.length found <= List.length terms)%nat)
      by apply filter_length_le.
    apply le_INR in Hle. apply lt_INR in Hpos. simpl in Hpos.
    pose proof (pos_INR (List.length found)) as H0.
    split.
    + apply Rmult_le_pos; [exact H0|]. apply Rlt_le, Rinv_0_lt_compat, Hpos.
    + apply Rmult_le_reg_r with (INR (List.length terms)); [exact Hpos|].
      unfold Rdiv. rewrite Rmult_assoc, Rinv_l by lra. lra.
  - apply Hall. auto.
  - apply Hall.
  - intros H. unfold Rag.calculateSimpleSimilarity; cbv zeta.
    destruct (0 <? Z.of_nat (List.length (split_ws (toLowerCase query))));
      [|reflexivity].
    rewrite filter_none.
    + simpl. unfold Rdiv. ring.
    + intros term Hterm.
      destruct (existsb (JS.eqb term) (split_ws (toLowerCase document))) eqn:E;
        [|reflexivity].
      apply existsb_eqb_In in E. now apply H in Hterm.
Qed.

End SimpleSimilarity.

Lemma calculateSimpleSimilarity_share_witness :
  @Rag.calculateSimpleSimilarity AsciiHost (units "Quick FOX")
     (units "the quick brown fox") = 1%R
  /\ @Rag.calculateSimpleSimilarity AsciiHost (units "lazy dog")
       (units "the quick brown fox") = 0%R
  /\ @Rag.calculateSimpleSimilarity AsciiHost (units "quick dog fox")
       (units "the quick brown fox") = (2 / 3)%R.
Proof.
  split; [|split].
  - apply (@calculateSimpleSimilarity_share AsciiHost).
    intros term Hterm. vm_compute in Hterm. vm_compute.
    destruct Hterm as [<-|[<-|[]]]; auto.
  - apply (@calculateSimpleSimilarity_share AsciiHost).
    intros term Hterm. vm_compute in Hterm. vm_compute.
    destruct Hterm as [<-|[<-|[]]]; intuition discriminate.
  - rewrite (proj1 (@calculateSimpleSimilarity_share AsciiHost
                      (units "quick dog fox") (units "the quick brown fox"))).
    match goal with
    | |- (INR ?found / INR ?terms)%R = _ =>
        let f := eval vm_compute in found in
        let t := eval vm_compute in terms in
        change (INR f / INR t = 2 / 3)%R
    end.
    simpl. lra.
Defined.

(** ** generateSimpleEmbedding: the order of the words *)

Lemma increment_comm (embedding : list R) (i j : nat) :
  Rag.increment (Rag.increment embedding i) j
  = Rag.increment (Rag.increment embedding j) i.
Proof.
  revert i j; induction embedding as [|v rest IH]; intros [|i] [|j]; simpl;
    try reflexivity.
  now rewrite IH.
Qed.

Lemma countWords_cons (word : jsstring) (words : list jsstring)
    (embedding : list R) :
  Rag.countWords (word :: words) embedding
  = Rag.countWords words
      (Rag.increment embedding
         (Z.to_nat (Rag.bucketIndex word (Z.of_nat (List.length embedding))))).
Proof. reflexivity. Qed.

Lemma countWords_permutation (words words' : list jsstring) :
  Permutation words words' ->
  forall embedding,
    Rag.countWords words embedding = Rag.countWords words' embedding.
Proof.
  induction 1 as [|w l l' Hp IH|w1 w2 l|l l' l'' Hp1 IH1 Hp2 IH2];
    intros embedding.
  - reflexivity.
  - rewrite !countWords_cons. apply IH.
  - rewrite !countWords_cons, !increment_length. now rewrite increment_comm.
  - now rewrite IH1, IH2.
Qed.

Section EmbeddingFacts.
Context {host : Host}.

Lemma generateSimpleEmbedding_nonneg (text : jsstring) :
  Forall (fun v => (0 <= v)%R) (Rag.generateSimpleEmbedding text).
Proof.
  unfold Rag.generateSimpleEmbedding; cbv zeta.
  set (words := split_ws (toLowerCase text)).
  assert (Hzero : Forall (fun v => (0 <= v)%R) (repeat 0%R 100))
    by (apply Forall_forall; intros v Hv; apply repeat_spec in Hv; lra).
  destruct (countWords_invariant words (repeat 0%R 100)) as [Hall _];
    [discriminate | exact Hzero |].
  unfold Rag.normalize; cbv zeta.
  destruct (Rlt_dec 0 (sqrt (Rag.sumSquares (Rag.countWords words _))))
    as [Hm|_]; [|exact Hall].
  apply Forall_forall. intros v Hv. apply in_map_iff in Hv.
  destruct Hv as (u & <- & Hu). rewrite Forall_forall in Hall.
  specialize (Hall u Hu).
  apply Rmult_le_pos; [exact Hall|]. apply Rlt_le, Rinv_0_lt_compat, Hm.
Qed.

Lemma generateSimpleEmbedding_sumSquares (text : jsstring) :
  Rag.sumSquares (Rag.generateSimpleEmbedding text) = 1%R.
Proof.
  unfold Rag.generateSimpleEmbedding; cbv zeta.
  set (words := split_ws (toLowerCase text)).
  assert (Hzero : Forall (fun v => (0 <= v)%R) (repeat 0%R 100))
    by (apply Forall_forall; intros v Hv; apply repeat_spec in Hv; lra).
  destruct (countWords_invariant words (repeat 0%R 100)) as [Hall Hex];
    [discriminate | exact Hzero |].
  specialize (Hex (or_intror (split_from_nonempty false _))).
  pose proof (sumSquares_counted _ Hall Hex).
  apply normalize_unit. lra.
Qed.

(** X5.  The embedding is one of a bag of words: two texts whose lower-cased
    words are the same up to their order have the same embedding, and no
    component of an embedding is negative. *)
Theorem generateSimpleEmbedding_word_order (text text' : jsstring) :
  Forall (fun v => (0 <= v)%R) (Rag.generateSimpleEmbedding text)
  /\ (Permutation (split_ws (toLowerCase text))
                  (split_ws (toLowerCase text')) ->
      Rag.generateSimpleEmbedding text = Rag.generateSimpleEmbedding text').
Proof.
  split; [apply generateSimpleEmbedding_nonneg|].
  intros Hperm. unfold Rag.generateSimpleEmbedding; cbv zeta.
  now rewrite (countWords_permutation _ _ Hperm).
Qed.

End EmbeddingFacts.

Lemma generateSimpleEmbedding_word_order_witness :
  @Rag.generateSimpleEmbedding AsciiHost (units "quick Fox")
  = @Rag.generateSimpleEmbedding AsciiHost (units "fox  QUICK").
Proof.
  apply (@generateSimpleEmbedding_word_order AsciiHost).
  vm_compute. apply perm_swap.
Defined.

(** ** searchDocuments: the threshold *)

Lemma flat_map_nil {A B} (f : A -> list B) (l : list A) :
  (forall x, In x l -> f x = []) -> flat_map f l = [].
Proof.
  induction l as [|x l IH]; intros H; simpl; [reflexivity|].
  rewrite (H x) by now left. apply IH. intros y Hy. apply H. now right.
Qed.

Lemma flat_map_singletons {A B} (f : A -> list B) (l : list A) :
  (forall x, In x l -> exists y, f x = [y]) ->
  List.length (flat_map f l) = List.length l.
Proof.
  induction l as [|x l IH]; intros H; simpl; [reflexivity|].
  destruct (H x) as [y ->]; [now left|]. simpl. f_equal.
  apply IH. intros z Hz. apply H. now right.
Qed.

Lemma slice_prefix_length_eq {A} (l : list A) (stop : Z) :
  0 <= stop ->
  Z.of_nat (List.length (slice l 0 stop))
  = Z.min stop (Z.of_nat (List.length l)).
Proof.
  intros H. unfold slice, relative_index; cbv zeta.
  destruct (Z.ltb_spec stop 0); [lia|].
  change (0 <? 0) with false. cbv iota.
  rewrite length_firstn, length_skipn. lia.
Qed.

Lemma slice_prefix_head {A} (x : A) (l : list A) (stop : Z) :
  1 <= stop -> exists rest, slice (x :: l) 0 stop = x :: rest.
Proof.
  intros H. unfold slice, relative_index; cbv zeta.
  destruct (Z.ltb_spec stop 0); [lia|].
  change (0 <? 0) with false. cbv iota.
  replace (Z.to_nat (Z.min 0 (Z.of_nat (List.length (x :: l))))) with O
    by (simpl List.length; lia).
  cbn [skipn].
  destruct (Z.to_nat (Z.min stop (Z.of_nat (List.length (x :: l)))
                      - Z.min 0 (Z.of_nat (List.length (x :: l)))))
    as [|n] eqn:E; [simpl List.length in E; lia|].
  simpl. eauto.
Qed.

Section SearchFacts.
Context {host : Host}.

(** The score of a stored document is the cosine similarity of two
    embeddings, and it is not negative. *)
Lemma scoreDocument_nonneg (store : Rag.RAGStore) (query : jsstring)
    (doc : Rag.Document) :
  Spec.reachable store ->
  In doc (Map_values (Rag.documents store)) ->
  Rag.scoreDocument query (Rag.generateSimpleEmbedding query) doc
  = Rag.cosineSimilarity (Rag.generateSimpleEmbedding query)
      (Rag.generateSimpleEmbedding (Rag.content doc))
  /\ (0 <= Rag.scoreDocument query (Rag.generateSimpleEmbedding query) doc)%R.
Proof.
  intros Hr Hin. destruct (reachable_invariant store Hr) as [_ Hdocs].
  unfold Map_values in Hin. apply in_map_iff in Hin.
  destruct Hin as ([k d] & <- & Hin). cbn [snd].
  destruct (Hdocs k d Hin) as (_ & Hemb & _).
  unfold Rag.scoreDocument. rewrite Hemb. split; [reflexivity|].
  apply cosineSimilarity_nonneg; apply generateSimpleEmbedding_nonneg.
Qed.

(** X6.  A [similarityThreshold] that is not positive filters nothing: no
    score is negative, so every stored document passes, and a query that is
    not blank returns as many documents as are stored, up to
    [maxRetrievedDocs]. *)
Theorem searchDocuments_nonpositive_threshold (store : Rag.RAGStore)
    (query : jsstring) :
  Spec.reachable store ->
  ~ blank query ->
  (Rag.similarityThreshold (Rag.config store) <= 0)%R ->
  0 <= Rag.maxRetrievedDocs (Rag.config store) ->
  Z.of_nat (List.length (snd (Rag.searchDocuments store query)))
  = Z.min (Rag.maxRetrievedDocs (Rag.config store))
          (Map_size (Rag.documents store)).
Proof.
  intros Hr Hquery Hlow Hcap. unfold Rag.searchDocuments.
  destruct (trim query) as [|c rest] eqn:Htrim;
    [exfalso; apply Hquery; now apply trim_nil|].
  cbv zeta. cbn [snd].
  rewrite length_map, slice_prefix_length_eq by exact Hcap.
  rewrite sort_length, flat_map_singletons.
  - unfold Map_size, Map_values. now rewrite length_map.
  - intros doc Hdoc.
    destruct (scoreDocument_nonneg store query doc Hr Hdoc) as [_ Hrange].
    destruct (Rge_dec _ _) as [_|N]; [eauto | lra].
Qed.

(** X7.  A stored document is found by its own content: for a content that
    is not blank, a threshold of at most one half (the default) and
    [maxRetrievedDocs >= 1], the search for that content returns at least
    one document.  (The document scores 1 against itself, up to rounding,
    which the threshold leaves room for.) *)
Theorem searchDocuments_finds_own_content (store : Rag.RAGStore)
    (doc : Rag.Document) :
  Spec.reachable store ->
  In doc (Rag.getAllDocuments store) ->
  ~ blank (Rag.content doc) ->
  (Rag.similarityThreshold (Rag.config store) <= 1 / 2)%R ->
  1 <= Rag.maxRetrievedDocs (Rag.config store) ->
  exists first rest,
    snd (Rag.searchDocuments store (Rag.content doc)) = first :: rest.
Proof.
  intros Hr Hin Hquery Hthr Hcap. unfold Rag.getAllDocuments in Hin.
  unfold Rag.searchDocuments.
  destruct (trim (Rag.content doc)) as [|c0 rest0] eqn:Htrim;
    [exfalso; apply Hquery; now apply trim_nil|].
  cbv zeta. cbn [snd].
  set (query := Rag.content doc) in *.
  set (queryEmbedding := Rag.generateSimpleEmbedding query).
  set (results :=
         flat_map
           (fun d =>
              if Rge_dec (Rag.scoreDocument query queryEmbedding d)
                         (Rag.similarityThreshold (Rag.config store))
              then [(d, Rag.scoreDocument query queryEmbedding d)]
              else [])
           (Map_values (Rag.documents store))).
  assert (Hown : Rag.scoreDocument query queryEmbedding doc = 1%R).
  { destruct (scoreDocument_nonneg store query doc Hr Hin) as [E _].
    unfold queryEmbedding. rewrite E. fold query.
    apply cosineSimilarity_of_itself.
    rewrite generateSimpleEmbedding_sumSquares. lra. }
  assert (Hdoc : In (doc, 1%R) results).
  { apply in_flat_map. exists doc. split; [exact Hin|].
    rewrite Hown. destruct (Rge_dec _ _) as [_|N]; [now left | lra]. }
  apply (sort_In Rag.higherFirst) in Hdoc.
  destruct (sort Rag.higherFirst results) as [|p sorted] eqn:Esort;
    [destruct Hdoc|].
  destruct (slice_prefix_head p sorted _ Hcap) as [rest ->].
  exists (fst p), (map fst rest). reflexivity.
Qed.

End SearchFacts.

Lemma reachable_one_document :
  let e := {| Rag.now_for_id := 1700000000001;
              Rag.random36 := units "0.k3j9x0a1bcd";
              Rag.now_for_timestamp := 1700000000002 |} in
  let doc := {| Rag.new_title := units "A";
                Rag.new_content := units "the quick brown fox";
                Rag.new_metadata := None |} in
  let store :=
    fst (@Rag.addDocument AsciiHost
           (Rag.newStore Rag.DEFAULT_RAG_CONFIG) e doc) in
  @Spec.reachable AsciiHost store
  /\ Rag.config store = Rag.DEFAULT_RAG_CONFIG
  /\ Rag.getAllDocuments store = [@Rag.storedDocument AsciiHost e doc].
Proof.
  intros e doc store. split; [apply Spec.reach_add, Spec.reach_new|].
  split; reflexivity.
Qed.

Lemma searchDocuments_nonpositive_threshold_witness :
  let config := {| Rag.maxDocuments := 10; Rag.chunkSize := 1000;
                   Rag.chunkOverlap := 200;
                   Rag.similarityThreshold := 0%R;
                   Rag.maxRetrievedDocs := 5 |} in
  let e := {| Rag.now_for_id := 1700000000001;
              Rag.random36 := units "0.k3j9x0a1bcd";
              Rag.now_for_timestamp := 1700000000002 |} in
  let doc := {| Rag.new_title := units "A";
                Rag.new_content := units "the quick brown fox";
                Rag.new_metadata := None |} in
  let store := fst (@Rag.addDocument AsciiHost (Rag.newStore config) e doc) in
  ~ blank (units "unrelated words")
  /\ Z.of_nat (List.length
                 (snd (@Rag.searchDocuments AsciiHost store
                         (units "unrelated words")))) = 1.
Proof.
  intros config e doc store.
  assert (Hq : ~ blank (units "unrelated words"))
    by (intros H; inversion H; discriminate).
  split; [exact Hq|].
  rewrite (@searchDocuments_nonpositive_threshold AsciiHost store
             (units "unrelated words")).
  - reflexivity.
  - apply Spec.reach_add, Spec.reach_new.
  - exact Hq.
  - unfold store. rewrite addDocument_config. simpl. lra.
  - unfold store. rewrite addDocument_config. simpl. lia.
Defined.

Lemma searchDocuments_finds_own_content_witness :
  let e := {| Rag.now_for_id := 1700000000001;
              Rag.random36 := units "0.k3j9x0a1bcd";
              Rag.now_for_timestamp := 1700000000002 |} in
  let doc := {| Rag.new_title := units "A";
                Rag.new_content := units "the quick brown fox";
                Rag.new_metadata := None |} in
  let store :=
    fst (@Rag.addDocument AsciiHost
           (Rag.newStore Rag.DEFAULT_RAG_CONFIG) e doc) in
  exists first rest,
    snd (@Rag.searchDocuments AsciiHost store (units "the quick brown fox"))
    = first :: rest.
Proof.
  intros e doc store.
  destruct reachable_one_document as (Hr & Hcfg & Hall).
  fold e doc store in Hr, Hcfg, Hall.
  destruct (@searchDocuments_finds_own_content AsciiHost store
              (@Rag.storedDocument AsciiHost e doc)) as (first & rest & H).
  - exact Hr.
  - rewrite Hall. now left.
  - intros Hb. inversion Hb. discriminate.
  - rewrite Hcfg. simpl. lra.
  - rewrite Hcfg. simpl. lia.
  - exists first, rest. exact H.
Defined.

(** ** The store: lookup, removal, statistics *)

Section MapFacts2.
Context {V : Type}.
Implicit Types (m : Map V) (k : jsstring) (v : V).

Lemma Map_has_In k m : Map_has k m = true <-> In k (Map_keys m).
Proof.
  unfold Map_has, Map_keys. induction m as [|[k0 v0] m IH]; simpl.
  - split; [discriminate | tauto].
  - destruct (string_eq_dec k k0) as [->|N].
    + split; auto.
    + rewrite IH. intuition congruence.
Qed.

Lemma Map_delete_absent k m : ~ In k (Map_keys m) -> Map_delete k m = m.
Proof.
  unfold Map_keys. induction m as [|[k0 v0] m IH]; simpl; intros H.
  - reflexivity.
  - destruct (string_eq_dec k k0) as [->|N]; [tauto|].
    rewrite IH; [reflexivity | tauto].
Qed.

Lemma Map_get_set_other k k' v m :
  k <> k' -> Map_get k (Map_set k' v m) = Map_get k m.
Proof.
  intros N. induction m as [|[k0 v0] m IH]; simpl.
  - destruct (string_eq_dec k k'); [congruence | reflexivity].
  - destruct (string_eq_dec k' k0) as [->|N']; simpl.
    + destruct (string_eq_dec k k0); [congruence | reflexivity].
    + destruct (string_eq_dec k k0); [reflexivity | exact IH].
Qed.

Lemma Map_delete_last k v m :
  ~ In k (Map_keys m) -> Map_delete k (m ++ [(k, v)]) = m.
Proof.
  intros H. rewrite Map_delete_middle by exact H. apply app_nil_r.
Qed.

End MapFacts2.

Lemma sizes_from (docs : list Rag.Document) (sum : Z) :
  fold_left (fun sum doc => sum + Rag.sizeOrZero doc) docs sum
  = sum + fold_right (fun doc sum => Rag.sizeOrZero doc + sum) 0 docs.
Proof.
  revert sum; induction docs as [|d docs IH]; intros sum; simpl.
  - lia.
  - rewrite IH. lia.
Qed.

Section StoreFacts.
Context {host : Host}.

(** X8.  [removeDocument] answers whether the id was stored.  Afterwards
    the id is not found, every other id is found as before, and the number
    of documents has gone down by one if the id was stored; if it was not,
    the store is unchanged. *)
Theorem removeDocument_removes_only_the_id (store : Rag.RAGStore)
    (id : jsstring) :
  Spec.reachable store ->
  let after := fst (Rag.removeDocument store id) in
  (snd (Rag.removeDocument store id) = true
   <-> In id (Map_keys (Rag.documents store)))
  /\ Map_get id (Rag.documents after) = None
  /\ (forall other, other <> id ->
        Map_get other (Rag.documents after)
        = Map_get other (Rag.documents store))
  /\ Map_size (Rag.documents after)
     = Map_size (Rag.documents store)
       - (if snd (Rag.removeDocument store id) then 1 else 0)
  /\ (snd (Rag.removeDocument store id) = false -> after = store).
Proof.
  intros Hr after. destruct (reachable_invariant store Hr) as [Hnd _].
  unfold after, Rag.removeDocument. cbn [fst snd Rag.documents].
  split; [apply Map_has_In|]. split; [|split; [|split]].
  - rewrite Map_get_delete by exact Hnd.
    destruct (string_eq_dec id id); [reflexivity | congruence].
  - intros other Hother. rewrite Map_get_delete by exact Hnd.
    destruct (string_eq_dec other id); [congruence | reflexivity].
  - destruct (Map_has id (Rag.documents store)) eqn:E.
    + apply Map_has_In in E. now apply Map_delete_size.
    + rewrite Map_delete_absent; [lia|].
      intros Hin. apply Map_has_In in Hin. congruence.
  - intros E. rewrite Map_delete_absent.
    + now destruct store.
    + intros Hin. apply Map_has_In in Hin. congruence.
Qed.

(** X9.  In every state of a store [getStats] gives the number of documents
    and, as [totalSize], the sum of the lengths of their contents; after
    [clear] both are 0 and no document is left. *)
Theorem getStats_counts_content (store : Rag.RAGStore) :
  Spec.reachable store ->
  Rag.getStats store
  = (Map_size (Rag.documents store),
     Spec.totalContentLength (Rag.getAllDocuments store))
  /\ Rag.getStats (Rag.clear store) = (0, 0)
  /\ Rag.getAllDocuments (Rag.clear store) = [].
Proof.
  intros Hr. destruct (reachable_invariant store Hr) as [_ Hdocs].
  split; [|split; reflexivity].
  unfold Rag.getStats, Rag.getAllDocuments; cbv zeta.
  f_equal; [unfold Map_size, Map_values; now rewrite length_map|].
  rewrite sizes_from, Z.add_0_l.
  unfold Map_values.
  induction (Rag.documents store) as [|[k d] docs IH]; [reflexivity|].
  simpl. rewrite IH by (intros k' d' H; apply Hdocs; now right).
  destruct (Hdocs k d (or_introl eq_refl))
    as (_ & _ & m & t & Hm & _ & _ & Hs).
  unfold Rag.sizeOrZero. now rewrite Hm, Hs.
Qed.

(** X10.  Below the capacity nothing is evicted: after [addDocument] the
    returned id is found with the document built from the arguments and
    every other id is found as before.  Under an id not in use the document
    comes last in [getAllDocuments], and removing it again gives back the
    store as it was. *)
Theorem addDocument_below_capacity (store : Rag.RAGStore) (e : Rag.Entropy)
    (doc : Rag.NewDocument) :
  Spec.reachable store ->
  Map_size (Rag.documents store) < Rag.maxDocuments (Rag.config store) ->
  let after := fst (Rag.addDocument store e doc) in
  let id := snd (Rag.addDocument store e doc) in
  Map_get id (Rag.documents after) = Some (Rag.storedDocument e doc)
  /\ (forall other, other <> id ->
        Map_get other (Rag.documents after)
        = Map_get other (Rag.documents store))
  /\ (~ In id (Map_keys (Rag.documents store)) ->
      Rag.getAllDocuments after
      = Rag.getAllDocuments store ++ [Rag.storedDocument e doc]
      /\ Rag.removeDocument after id = (store, true)).
Proof.
  intros Hr Hroom after id.
  destruct (addDocument_documents store e doc) as [Hfits _].
  pose proof (Map_set_size (Rag.makeId e) (Rag.storedDocument e doc)
                           (Rag.documents store)) as Hs.
  assert (Hdocs : Rag.documents after
                  = Map_set (Rag.makeId e) (Rag.storedDocument e doc)
                            (Rag.documents store))
    by (apply Hfits; lia).
  unfold id. rewrite addDocument_id. rewrite Hdocs.
  split; [apply Map_get_set|]. split.
  - intros other Hother. now apply Map_get_set_other.
  - intros Hfresh. rewrite (Map_set_fresh _ _ _ Hfresh) in Hdocs.
    split.
    + unfold Rag.getAllDocuments, Map_values. rewrite Hdocs.
      now rewrite map_app.
    + unfold Rag.removeDocument. rewrite Hdocs.
      rewrite Map_delete_last by exact Hfresh.
      unfold after at 1. rewrite addDocument_config.
      f_equal; [now destruct store|].
      apply Map_has_In. unfold Map_keys. rewrite map_app.
      apply in_or_app. right. now left.
Qed.

End StoreFacts.

Lemma removeDocument_removes_only_the_id_witness :
  let store := Rag.newStore Rag.DEFAULT_RAG_CONFIG in
  @Spec.reachable AsciiHost store
  /\ Rag.removeDocument store (units "doc_1_a") = (store, false).
Proof.
  intros store.
  assert (Hr : @Spec.reachable AsciiHost store) by apply Spec.reach_new.
  split; [exact Hr|].
  destruct (@removeDocument_removes_only_the_id AsciiHost store
              (units "doc_1_a") Hr) as (_ & _ & _ & _ & H).
  rewrite <- (H eq_refl) at 2. reflexivity.
Defined.

Lemma getStats_counts_content_witness :
  let e := {| Rag.now_for_id := 1700000000001;
              Rag.random36 := units "0.k3j9x0a1bcd";
              Rag.now_for_timestamp := 1700000000002 |} in
  let doc := {| Rag.new_title := units "A";
                Rag.new_content := units "the quick brown fox";
                Rag.new_metadata := None |} in
  let store :=
    fst (@Rag.addDocument AsciiHost
           (Rag.newStore Rag.DEFAULT_RAG_CONFIG) e doc) in
  Rag.getStats store = (1, 19).
Proof.
  intros e doc store.
  destruct reachable_one_document as (Hr & _ & Hall).
  fold e doc store in Hr, Hall.
  destruct (@getStats_counts_content AsciiHost store Hr) as (H & _).
  rewrite H, Hall. reflexivity.
Defined.

Lemma addDocument_below_capacity_witness :
  let e := {| Rag.now_for_id := 1700000000001;
              Rag.random36 := units "0.k3j9x0a1bcd";
              Rag.now_for_timestamp := 1700000000002 |} in
  let doc := {| Rag.new_title := units "A";
                Rag.new_content := units "the quick brown fox";
                Rag.new_metadata := None |} in
  let store := Rag.newStore Rag.DEFAULT_RAG_CONFIG in
  Map_size (Rag.documents store) < Rag.maxDocuments (Rag.config store)
  /\ Rag.removeDocument (fst (@Rag.addDocument AsciiHost store e doc))
                        (snd (@Rag.addDocument AsciiHost store e doc))
     = (store, true).
Proof.
  intros e doc store.
  assert (Hroom : Map_size (Rag.documents store)
                  < Rag.maxDocuments (Rag.config store))
    by (vm_compute; reflexivity).
  split; [exact Hroom|].
  destruct (@addDocument_below_capacity AsciiHost store e doc
              (Spec.reach_new _) Hroom) as (_ & _ & H).
  apply H. intros [].
Defined.

(** ** chunkText: what the chunks hold *)

Lemma slice_within {A} (l : list A) (start stop : Z) :
  0 <= start <= stop -> stop <= Z.of_nat (List.length l) ->
  slice l start stop
  = firstn (Z.to_nat stop - Z.to_nat start) (skipn (Z.to_nat start) l).
Proof.
  intros H1 H2. unfold slice, relative_index; cbv zeta.
  destruct (Z.ltb_spec start 0); [lia|].
  destruct (Z.ltb_spec stop 0); [lia|].
  f_equal; [lia|]. f_equal. lia.
Qed.

Lemma firstn_then_more {A} (l : list A) (n m : nat) :
  firstn n l ++ firstn m (skipn n l) = firstn (n + m) l.
Proof.
  revert n; induction l as [|x l IH]; intros [|n]; simpl;
    try reflexivity.
  - now rewrite firstn_nil.
  - now rewrite IH.
Qed.

Lemma rebuild_snoc (overlap : nat) (first : jsstring)
    (rest : list jsstring) (chunk : jsstring) :
  Spec.rebuild overlap ((first :: rest) ++ [chunk])
  = Spec.rebuild overlap (first :: rest) ++ skipn overlap chunk.
Proof.
  simpl. rewrite flat_map_app. simpl. now rewrite app_nil_r, app_assoc.
Qed.

Section ChunkRebuild.
Variables (text : jsstring) (chunkSize overlap : Z).
Hypothesis chunkSize_pos : 1 <= chunkSize.
Hypothesis overlap_small : 0 <= overlap < chunkSize.

(** What holds of [start] and [chunks] at the head of the loop: nothing
    has been cut yet, or the chunks stand for the text up to
    [start + overlap]. *)
Lemma chunkBody_rebuild (start : Z) (chunks : list jsstring) :
  (chunks = [] /\ start = 0
   \/ chunks <> [] /\ 0 <= start
      /\ start + overlap <= String_length text
      /\ Spec.rebuild (Z.to_nat overlap) chunks
         = firstn (Z.to_nat (start + overlap)) text) ->
  start < String_length text ->
  let stop := Z.min (start + chunkSize) (String_length text) in
  let chunks' := chunks ++ [slice text start stop] in
  chunks' <> []
  /\ Spec.rebuild (Z.to_nat overlap) chunks' = firstn (Z.to_nat stop) text.
Proof.
  intros Hinv Hlt stop chunks'. unfold String_length in *.
  split; [unfold chunks'; destruct chunks; discriminate|].
  destruct Hinv as [[-> ->]|(Hne & H0 & Hov & Hre)].
  - unfold chunks'. simpl app. unfold Spec.rebuild.
    rewrite slice_within by lia. cbn [flat_map]. rewrite app_nil_r.
    simpl skipn. f_equal. lia.
  - destruct chunks as [|first rest]; [congruence|].
    unfold chunks'. rewrite rebuild_snoc, Hre.
    rewrite slice_within by lia.
    rewrite skipn_firstn_comm, skipn_skipn.
    replace (Z.to_nat overlap + Z.to_nat start)%nat
      with (Z.to_nat (start + overlap)) by lia.
    rewrite firstn_then_more. f_equal. lia.
Qed.

Lemma chunkLoop_rebuild (fuel : nat) :
  forall (start : Z) (chunks result : list jsstring),
    (chunks = [] /\ start = 0
     \/ chunks <> [] /\ 0 <= start
        /\ start + overlap <= String_length text
        /\ Spec.rebuild (Z.to_nat overlap) chunks
           = firstn (Z.to_nat (start + overlap)) text) ->
    Rag.chunkLoop fuel text chunkSize overlap start chunks = Some result ->
    Spec.rebuild (Z.to_nat overlap) result = text.
Proof.
  induction fuel as [|fuel IH]; intros start chunks result Hinv; simpl;
    [discriminate|].
  destruct (Z.ltb_spec start (String_length text)) as [Hlt|Hge].
  - destruct (chunkBody_rebuild start chunks Hinv Hlt) as [Hne Hre].
    unfold Rag.chunkBody; cbv zeta.
    destruct (Z.eqb_spec (Z.min (start + chunkSize) (String_length text))
                         (String_length text)) as [E|E].
    + intros H; injection H as <-. rewrite Hre, E.
      unfold String_length. rewrite Nat2Z.id. apply firstn_all.
    + apply IH. right. split; [exact Hne|].
      assert (0 <= start) by (destruct Hinv as [[_ ->]|(_ & H & _)]; lia).
      split; [lia|]. split; [lia|].
      rewrite Hre. f_equal. lia.
  - intros H; injection H as <-. unfold String_length in *.
    destruct Hinv as [[-> ->]|(Hne & H0 & Hov & Hre)].
    + destruct text; [reflexivity | simpl in Hge; lia].
    + rewrite Hre. apply firstn_all2. lia.
Qed.

(** X11.  For [chunkSize >= 1] and [0 <= overlap < chunkSize] the chunks
    lose nothing of the text and repeat only the overlap: the first chunk
    followed by every later chunk without its first [overlap] characters is
    the text. *)
Theorem chunkText_rebuilds_text (fuel : nat) (chunks : list jsstring) :
  Rag.chunkText fuel text chunkSize overlap = Some chunks ->
  Spec.rebuild (Z.to_nat overlap) chunks = text.
Proof.
  unfold Rag.chunkText. apply chunkLoop_rebuild. now left.
Qed.

End ChunkRebuild.

Lemma chunkText_rebuilds_text_witness :
  Rag.chunkText 11 (units "abcdefghij") 4 1
  = Some [units "abcd"; units "defg"; units "ghij"]
  /\ units "abcd" ++ units "efg" ++ units "hij" = units "abcdefghij".
Proof.
  assert (H : Rag.chunkText 11 (units "abcdefghij") 4 1
              = Some [units "abcd"; units "defg"; units "ghij"])
    by reflexivity.
  split; [exact H|].
  exact (chunkText_rebuilds_text (units "abcdefghij") 4 1
           ltac:(lia) ltac:(lia) 11 _ H).
Defined.

Lemma slice_all {A} (l : list A) :
  slice l 0 (Z.of_nat (List.length l)) = l.
Proof.
  rewrite slice_within by lia. simpl. rewrite Nat2Z.id, Nat.sub_0_r.
  apply firstn_all.
Qed.

(** X12.  The short texts.  [chunkText] of the empty text is the empty
    list, and a text of at most [chunkSize] characters is returned as its
    one chunk; in both cases the overlap plays no part, so the call ends
    for any overlap. *)
Theorem chunkText_short_text (text : jsstring) (chunkSize overlap : Z)
    (fuel : nat) :
  Rag.chunkText (S fuel) [] chunkSize overlap = Some []
  /\ (0 < String_length text <= chunkSize ->
      Rag.chunkText (S fuel) text chunkSize overlap = Some [text]).
Proof.
  split; [reflexivity|].
  intros H. unfold Rag.chunkText. simpl.
  destruct (Z.ltb_spec 0 (String_length text)); [|lia].
  unfold Rag.chunkBody; cbv zeta.
  replace (Z.min (0 + chunkSize) (String_length text))
    with (String_length text) by lia.
  rewrite Z.eqb_refl. unfold String_length. now rewrite slice_all.
Qed.

Lemma chunkText_short_text_witness :
  0 < String_length (units "short") <= 1000
  /\ Rag.chunkText 1 (units "short") 1000 5000 = Some [units "short"].
Proof.
  assert (H : 0 < String_length (units "short") <= 1000)
    by (vm_compute; split; [reflexivity | discriminate]).
  split; [exact H|].
  exact (proj2 (chunkText_short_text (units "short") 1000 5000 0) H).
Defined.

(** ** processFile: the outcomes *)



Section ProcessFileOutcomes.
Context {host : Host}.

(** X13.  The text attachment.  A file within the size limit that is
    classified as text and whose text read delivers a string that is not
    empty becomes a [textFile] with that very string, after one read.  No
    other file does: in particular a file read as the empty string is never
    returned as a [textFile]. *)
Theorem processFile_textFile_iff (file : FileUtils.File)
    (reads : list FileUtils.ReadOp) (name content : jsstring) :
  FileUtils.processFile file = (reads, inl (FileUtils.TextFile name content))
  <-> FileUtils.size file <= FileUtils.MAX_FILE_SIZE
      /\ FileUtils.isTextMimeType (FileUtils.resolvedMimeType file)
         || FileUtils.isTextFileExtension (FileUtils.name file) = true
      /\ FileUtils.asText file = FileUtils.Load (Some content)
      /\ content <> []
      /\ name = FileUtils.name file
      /\ reads = [FileUtils.ReadAsText].
Proof.
  split.
  - process_file_outcomes file; intros H; try discriminate H;
      injection H as <- <- <-;
      (split; [apply Z.ltb_ge in Hsize; exact Hsize|]);
      repeat split; discriminate.
  - intros (Hle & Ht & Ha & Hne & -> & ->).
    apply Z.ltb_ge in Hle.
    unfold FileUtils.processFile, FileUtils.readFileAsText; cbv zeta.
    rewrite Hle, Ht, Ha.
    destruct content as [|c content]; [congruence|]. reflexivity.
Qed.

(** X14.  The fall-back of a text file.  When a file within the size limit
    is classified as text and its text read fails, or delivers nothing or
    the empty string, the file is read a second time, as a data URL; if
    that read delivers a string that is not empty, the attachment is a
    [file] flagged [isText: true] with the resolved MIME type and the size
    of the file, and its content is the part of the data URL between the
    first comma and the second. *)
Theorem processFile_text_falls_back_to_base64 (file : FileUtils.File)
    (url : jsstring) :
  FileUtils.size file <= FileUtils.MAX_FILE_SIZE ->
  FileUtils.isTextMimeType (FileUtils.resolvedMimeType file)
  || FileUtils.isTextFileExtension (FileUtils.name file) = true ->
  FileUtils.asText file = FileUtils.ReadError
  \/ FileUtils.asText file = FileUtils.Load None
  \/ FileUtils.asText file = FileUtils.Load (Some []) ->
  FileUtils.asDataURL file = FileUtils.Load (Some url) ->
  url <> [] ->
  FileUtils.processFile file
  = ([FileUtils.ReadAsText; FileUtils.ReadAsDataURL],
     inl (FileUtils.BinaryFile (FileUtils.name file)
            (FileUtils.resolvedMimeType file) (FileUtils.size file)
            (nth_error (split_on 44 url) 1) true)).
Proof.
  intros Hle Ht Ha Hu Hne. apply Z.ltb_ge in Hle.
  unfold FileUtils.processFile, FileUtils.readFileAsText,
    FileUtils.readFileAsBase64; cbv zeta.
  rewrite Hle, Ht, Hu.
  destruct url as [|u url]; [congruence|].
  destruct Ha as [->|[->| ->]]; reflexivity.
Qed.



(** X17.  The failures.  [processFile] is rejected in two ways only.  For
    a file above the size limit, with the size message and before any
    read.  Otherwise when the read as a data URL fails: it is the last read
    started, at most the second, and the message is
    [Failed to process file "<name>": ] followed by [File reading error]
    (an error event) or [Failed to read file] (nothing or the empty string
    delivered).  A failure of the text read alone is never reported. *)
Theorem processFile_rejections (file : FileUtils.File)
    (reads : list FileUtils.ReadOp) (message : jsstring) :
  FileUtils.processFile file = (reads, inr message) ->
  (FileUtils.MAX_FILE_SIZE < FileUtils.size file
   /\ reads = []
   /\ message = units "File " ++ QUOTE ++ FileUtils.name file ++ QUOTE
                ++ units " is too large. Maximum size is 10MB.")
  \/ (FileUtils.size file <= FileUtils.MAX_FILE_SIZE
      /\ (reads = [FileUtils.ReadAsDataURL]
          \/ reads = [FileUtils.ReadAsText; FileUtils.ReadAsDataURL])
      /\ ((FileUtils.asDataURL file = FileUtils.ReadError
           /\ message = units "Failed to process file " ++ QUOTE
                        ++ FileUtils.name file ++ QUOTE ++ units ": "
                        ++ units "File reading error")
          \/ ((FileUtils.asDataURL file = FileUtils.Load None
               \/ FileUtils.asDataURL file = FileUtils.Load (Some []))
              /\ message = units "Failed to process file " ++ QUOTE
                           ++ FileUtils.name file ++ QUOTE ++ units ": "
                           ++ units "Failed to read file"))).
Proof.
  process_file_outcomes file; intros H; try discriminate H;
    injection H as <- <-;
    first
      [ left; apply Z.ltb_lt in Hsize;
        split; [exact Hsize|]; split; reflexivity
      | right; apply Z.ltb_ge in Hsize;
        split; [exact Hsize|]; split; [auto|]; auto 6 ].
Qed.

End ProcessFileOutcomes.

Lemma processFile_textFile_iff_witness :
  let file := {| FileUtils.name := units "notes.txt"; FileUtils.type := [];
                 FileUtils.size := 3;
                 FileUtils.asText := FileUtils.Load (Some (units "abc"));
                 FileUtils.asDataURL := FileUtils.ReadError |} in
  @FileUtils.processFile AsciiHost file
  = ([FileUtils.ReadAsText],
     inl (FileUtils.TextFile (units "notes.txt") (units "abc"))).
Proof.
  intros file.
  apply (@processFile_textFile_iff AsciiHost file).
  split; [vm_compute; discriminate|].
  split; [reflexivity|]. split; [reflexivity|].
  split; [discriminate|]. split; reflexivity.
Defined.

Lemma processFile_text_falls_back_to_base64_witness :
  let file := {| FileUtils.name := units "empty.txt";
                 FileUtils.type := units "text/plain";
                 FileUtils.size := 0;
                 FileUtils.asText := FileUtils.Load (Some []);
                 FileUtils.asDataURL :=
                   FileUtils.Load (Some (units "data:text/plain;base64,")) |} in
  @FileUtils.processFile AsciiHost file
  = ([FileUtils.ReadAsText; FileUtils.ReadAsDataURL],
     inl (FileUtils.BinaryFile (units "empty.txt") (units "text/plain") 0
            (Some []) true)).
Proof.
  intros file.
  apply (@processFile_text_falls_back_to_base64 AsciiHost file
           (units "data:text/plain;base64,")).
  - vm_compute; discriminate.
  - reflexivity.
  - right; right; reflexivity.
  - reflexivity.
  - discriminate.
Defined.



Lemma processFile_rejections_witness :
  let file := {| FileUtils.name := units "scan.pdf";
                 FileUtils.type := units "application/pdf";
                 FileUtils.size := 2048;
                 FileUtils.asText := FileUtils.ReadError;
                 FileUtils.asDataURL := FileUtils.ReadError |} in
  @FileUtils.processFile AsciiHost file
  = ([FileUtils.ReadAsDataURL],
     inr (units "Failed to process file " ++ QUOTE ++ units "scan.pdf"
          ++ QUOTE ++ units ": File reading error"))
  /\ FileUtils.asDataURL file = FileUtils.ReadError.
Proof.
  intros file.
  assert (H : @FileUtils.processFile AsciiHost file
              = ([FileUtils.ReadAsDataURL],
                 inr (units "Failed to process file " ++ QUOTE
                      ++ units "scan.pdf" ++ QUOTE
                      ++ units ": File reading error")))
    by reflexivity.
  split; [exact H|].
  destruct (@processFile_rejections AsciiHost file _ _ H)
    as [(Hbig & _)|(_ & _ & [(Herr & _)|([Hnone|Hempty] & _)])].
  - vm_compute in Hbig. discriminate.
  - exact Herr.
  - discriminate.
  - discriminate.
Defined.

(** ** The tables of extensions *)

Lemma Map_get_In {V} (k : jsstring) (v : V) (m : Map V) :
  Map_get k m = Some v -> In (k, v) m.
Proof.
  induction m as [|[k0 v0] m IH]; simpl; [discriminate|].
  destruct (string_eq_dec k k0) as [->|N].
  - intros H; injection H as ->. now left.
  - intros H. right. now apply IH.
Qed.

(** Every entry of the MIME table whose type the text patterns accept has
    its extension in the list of text extensions. *)
Lemma mimeTypes_text_entries_listed :
  forallb
    (fun entry : jsstring * jsstring =>
       implb (FileUtils.isTextMimeType (snd entry))
             (existsb (JS.eqb (fst entry)) FileUtils.textExtensions))
    FileUtils.mimeTypes = true.
Proof. vm_compute. reflexivity. Qed.

(** Every text extension has an entry in the MIME table. *)
Lemma textExtensions_have_entries :
  forallb
    (fun ext => Map_has ext FileUtils.mimeTypes)
    FileUtils.textExtensions = true.
Proof. vm_compute. reflexivity. Qed.

Section ExtensionTables.
Context {host : Host}.

(** Every listed text extension has a type of its own in the table. *)
Lemma textExtension_has_type (filename : jsstring) :
  FileUtils.isTextFileExtension filename = true ->
  exists mime,
    Map_get (FileUtils.extensionOf filename) FileUtils.mimeTypes = Some mime
    /\ FileUtils.getMimeTypeFromExtension filename = mime.
Proof.
  intros Hext. unfold FileUtils.isTextFileExtension in Hext.
  apply existsb_eqb_In in Hext.
  pose proof textExtensions_have_entries as Hall.
  rewrite forallb_forall in Hall. specialize (Hall _ Hext).
  unfold Map_has in Hall.
  unfold FileUtils.getMimeTypeFromExtension.
  destruct (Map_get (FileUtils.extensionOf filename) FileUtils.mimeTypes)
    as [mime|] eqn:E; [|discriminate].
  exists mime. split; [reflexivity|].
  destruct mime as [|c mime]; [|reflexivity].
  exfalso. apply Map_get_In in E.
  assert (Hne : forallb (fun entry : jsstring * jsstring =>
                           negb (JS.eqb (snd entry) []))
                        FileUtils.mimeTypes = true)
    by (vm_compute; reflexivity).
  rewrite forallb_forall in Hne. specialize (Hne _ E). discriminate.
Qed.

(** X18.  For a file that declares no type, the MIME table decides nothing
    that the list of text extensions does not: the file is classified as
    text exactly when its extension is in that list.  The table does give
    every listed extension a type of its own; and a name whose extension
    the table does not have is not in the list, and what
    [getMimeTypeFromExtension] gives for it is not a text type. *)
Theorem undeclared_type_classified_by_extension (file : FileUtils.File) :
  (FileUtils.type file = [] ->
     FileUtils.isTextMimeType (FileUtils.resolvedMimeType file)
     || FileUtils.isTextFileExtension (FileUtils.name file)
     = FileUtils.isTextFileExtension (FileUtils.name file))
  /\ (FileUtils.isTextFileExtension (FileUtils.name file) = true ->
      exists mime,
        Map_get (FileUtils.extensionOf (FileUtils.name file))
                FileUtils.mimeTypes = Some mime
        /\ FileUtils.getMimeTypeFromExtension (FileUtils.name file) = mime)
  /\ (Map_get (FileUtils.extensionOf (FileUtils.name file))
              FileUtils.mimeTypes = None ->
      FileUtils.isTextFileExtension (FileUtils.name file) = false
      /\ FileUtils.isTextMimeType
           (FileUtils.getMimeTypeFromExtension (FileUtils.name file)) = false).
Proof.
  split; [|split].
  - intros Htype. unfold FileUtils.resolvedMimeType. rewrite Htype.
    unfold FileUtils.getMimeTypeFromExtension, FileUtils.isTextFileExtension.
    set (ext := FileUtils.extensionOf (FileUtils.name file)).
    destruct (Map_get ext FileUtils.mimeTypes) as [[|c mime]|] eqn:E;
      try reflexivity.
    destruct (FileUtils.isTextMimeType (c :: mime)) eqn:Hm; [|reflexivity].
    pose proof mimeTypes_text_entries_listed as Hall.
    rewrite forallb_forall in Hall.
    specialize (Hall _ (Map_get_In _ _ _ E)). cbn [fst snd] in Hall.
    rewrite Hm in Hall. cbn [implb] in Hall. cbn [orb]. now rewrite Hall.
  - apply textExtension_has_type.
  - intros Hnone. split.
    + destruct (FileUtils.isTextFileExtension (FileUtils.name file)) eqn:Hext;
        [|reflexivity].
      destruct (textExtension_has_type _ Hext) as (mime & Hget & _).
      congruence.
    + unfold FileUtils.getMimeTypeFromExtension. rewrite Hnone. reflexivity.
Qed.

End ExtensionTables.

Lemma undeclared_type_classified_by_extension_witness :
  let file := {| FileUtils.name := units "App.TSX"; FileUtils.type := [];
                 FileUtils.size := 10;
                 FileUtils.asText := FileUtils.ReadError;
                 FileUtils.asDataURL := FileUtils.ReadError |} in
  let other := {| FileUtils.name := units "core.dump"; FileUtils.type := [];
                  FileUtils.size := 10;
                  FileUtils.asText := FileUtils.ReadError;
                  FileUtils.asDataURL := FileUtils.ReadError |} in
  @FileUtils.isTextFileExtension AsciiHost (FileUtils.name file) = true
  /\ @FileUtils.getMimeTypeFromExtension AsciiHost (FileUtils.name file)
     = units "application/typescript"
  /\ FileUtils.isTextMimeType (units "application/typescript") = false
  /\ @FileUtils.isTextFileExtension AsciiHost (FileUtils.name other) = false.
Proof.
  intros file other.
  assert (Hext : @FileUtils.isTextFileExtension AsciiHost (FileUtils.name file)
                 = true) by reflexivity.
  split; [exact Hext|]. split; [|split; [reflexivity|]].
  - destruct (@undeclared_type_classified_by_extension AsciiHost file)
      as (_ & H & _).
    destruct (H Hext) as (mime & Hget & ->).
    vm_compute in Hget. now injection Hget as <-.
  - destruct (@undeclared_type_classified_by_extension AsciiHost other)
      as (_ & _ & H).
    apply H. reflexivity.
Defined.

(** ** getFileCategory *)

Lemma startsWith_text_others (mimeType : jsstring) :
  startsWith mimeType (units "text/") = true ->
  startsWith mimeType (units "image/") = false
  /\ startsWith mimeType (units "video/") = false
  /\ startsWith mimeType (units "audio/") = false.
Proof.
  destruct mimeType as [|c rest]; [discriminate|].
  intros H.
  assert (Hc : c = 116).
  { change (units "text/") with (116 :: units "ext/") in H.
    cbn [startsWith] in H. apply andb_true_iff in H.
    destruct H as [H _]. apply Z.eqb_eq in H. congruence. }
  subst c. repeat split; reflexivity.
Qed.

(** X19.  [getFileCategory] and [processFile] agree on what a text type
    is: a MIME type is labelled [Text] exactly when the text patterns of
    [isTextMimeType] accept it. *)
Theorem getFileCategory_Text_iff_isTextMimeType (mimeType : jsstring) :
  FileUtils.getFileCategory mimeType = units "Text"
  <-> FileUtils.isTextMimeType mimeType = true.
Proof.
  split.
  - unfold FileUtils.getFileCategory.
    destruct (startsWith mimeType (units "image/"));
      [intros H; vm_compute in H; discriminate|].
    destruct (startsWith mimeType (units "video/"));
      [intros H; vm_compute in H; discriminate|].
    destruct (startsWith mimeType (units "audio/"));
      [intros H; vm_compute in H; discriminate|].
    destruct (startsWith mimeType (units "text/")) eqn:Htext.
    { intros _. apply isTextMimeType_iff. now left. }
    cbn [orb].
    destruct (FileUtils.isTextMimeType mimeType); [reflexivity|].
    destruct (includes mimeType (units "pdf"));
      [intros H; vm_compute in H; discriminate|].
    destruct (includes mimeType (units "word")
              || includes mimeType (units "document"));
      [intros H; vm_compute in H; discriminate|].
    destruct (includes mimeType (units "sheet")
              || includes mimeType (units "excel"));
      [intros H; vm_compute in H; discriminate|].
    destruct (includes mimeType (units "presentation")
              || includes mimeType (units "powerpoint"));
      [intros H; vm_compute in H; discriminate|].
    destruct (includes mimeType (units "zip")
              || includes mimeType (units "archive")
              || includes mimeType (units "compressed"));
      intros H; vm_compute in H; discriminate.
  - intros H. pose proof H as Hm. apply isTextMimeType_iff in H.
    destruct H as [H|H].
    + destruct (startsWith_text_others _ H) as (H1 & H2 & H3).
      unfold FileUtils.getFileCategory. now rewrite H1, H2, H3, H.
    + unfold Spec.textApplicationTypes in H. cbn [map In] in H.
      repeat (destruct H as [<-|H]; [reflexivity|]). destruct H.
Qed.

(** X20.  The word [document] comes before [sheet] and [presentation] in
    the order of the tests: a MIME type that contains [document] is never
    labelled [Spreadsheet], [Presentation], [Archive] or [File].  The types
    that the MIME table gives to [xlsx] and [pptx] contain it, and they are
    labelled [Document], as the type of [docx] is. *)
Theorem getFileCategory_document_first (mimeType : jsstring) :
  (includes mimeType (units "document") = true ->
     In (FileUtils.getFileCategory mimeType)
        [units "Image"; units "Video"; units "Audio"; units "Text";
         units "PDF"; units "Document"])
  /\ (forall ext mime,
        In ext [units "docx"; units "xlsx"; units "pptx"] ->
        Map_get ext FileUtils.mimeTypes = Some mime ->
        includes mime (units "document") = true
        /\ FileUtils.getFileCategory mime = units "Document").
Proof.
  split.
  - intros Hdoc. unfold FileUtils.getFileCategory.
    destruct (startsWith mimeType (units "image/")); [now left|].
    destruct (startsWith mimeType (units "video/")); [right; now left|].
    destruct (startsWith mimeType (units "audio/"));
      [right; right; now left|].
    destruct (startsWith mimeType (units "text/")
              || FileUtils.isTextMimeType mimeType);
      [right; right; right; now left|].
    destruct (includes mimeType (units "pdf"));
      [right; right; right; right; now left|].
    rewrite Hdoc, orb_true_r. right; right; right; right; right; now left.
  - intros ext mime [<-|[<-|[<-|[]]]] H; vm_compute in H;
      injection H as <-; split; reflexivity.
Qed.

Lemma getFileCategory_document_first_witness :
  includes
    (units "application/vnd.openxmlformats-officedocument.spreadsheetml.sheet")
    (units "document") = true
  /\ FileUtils.getFileCategory
       (units "application/vnd.openxmlformats-officedocument.spreadsheetml.sheet")
     = units "Document".
Proof.
  apply (proj2 (getFileCategory_document_first []) (units "xlsx")).
  - right; now left.
  - reflexivity.
Defined.

(** ** formatFileSize: beyond the last unit *)

(** X21.  [sizes] ends with GB: for a byte count of 1024^4 or more the
    unit that [formatFileSize] appends is the text of [undefined]. *)
Theorem formatFileSize_no_unit_beyond_GB (bytes : Z) :
  1024 ^ 4 <= bytes ->
  exists number,
    FileUtils.formatFileSize bytes = number ++ units " undefined".
Proof.
  intros H. unfold FileUtils.formatFileSize.
  change (1024 ^ 4) with (2 ^ 40) in H.
  assert (Hpos : 0 < bytes) by lia.
  destruct (Z.eqb_spec bytes 0); [lia|].
  destruct (Z.ltb_spec bytes 0); [lia|].
  cbv zeta. eexists. f_equal.
  assert (Hlog : 40 <= Z.log2 bytes) by (apply Z.log2_le_pow2; lia).
  assert (Hi : 4 <= FileUtils.floorLog1024 bytes)
    by (unfold FileUtils.floorLog1024; Z.div_mod_to_equations; lia).
  rewrite nth_overflow; [reflexivity|].
  unfold FileUtils.sizes. simpl List.length. lia.
Qed.

Lemma formatFileSize_no_unit_beyond_GB_witness :
  1024 ^ 4 <= 5 * 1024 ^ 4
  /\ FileUtils.formatFileSize (5 * 1024 ^ 4) = units "5 undefined".
Proof.
  assert (H : 1024 ^ 4 <= 5 * 1024 ^ 4) by (vm_compute; discriminate).
  split; [exact H|].
  destruct (formatFileSize_no_unit_beyond_GB _ H) as [number E].
  reflexivity.
Defined.

(** ** The chat screen: the selected files *)

Lemma filteri_from_remove {A} (l : list A) (from index : Z) :
  filteri_from (fun _ i => negb (i =? index)) from l
  = if (from <=? index) && (index <? from + Z.of_nat (List.length l))
    then firstn (Z.to_nat (index - from)) l
         ++ skipn (S (Z.to_nat (index - from))) l
    else l.
Proof.
  revert from; induction l as [|x l IH]; intros from.
  - cbn [filteri_from]. rewrite firstn_nil, skipn_nil.
    now destruct ((from <=? index) && _).
  - cbn [filteri_from]. rewrite IH.
    destruct (Z.eqb_spec from index) as [->|N]; cbn [negb].
    + destruct (Z.leb_spec (index + 1) index); [lia|]. cbn [andb].
      destruct (Z.leb_spec index index); [|lia].
      destruct (Z.ltb_spec index (index + Z.of_nat (List.length (x :: l))));
        [|simpl List.length in *; lia].
      cbn [andb]. replace (index - index) with 0 by lia. reflexivity.
    + destruct (Z.leb_spec (from + 1) index);
        destruct (Z.leb_spec from index); try lia; cbn [andb].
      * replace (from + 1 + Z.of_nat (List.length l))
          with (from + Z.of_nat (List.length (x :: l)))
          by (simpl List.length; lia).
        destruct (index <? from + Z.of_nat (List.length (x :: l)));
          [|reflexivity].
        replace (Z.to_nat (index - from))
          with (S (Z.to_nat (index - (from + 1)))) by lia.
        reflexivity.
      * reflexivity.
Qed.

(** X22.  [removeFile] takes out the file at the index given and keeps the
    others in their order; with an index that is negative or not below the
    number of files it changes nothing. *)
Theorem removeFile_at_index {A} (selectedFiles : list A) (index : Z) :
  (0 <= index < Z.of_nat (List.length selectedFiles) ->
     ChatScreen.removeFile selectedFiles index
     = firstn (Z.to_nat index) selectedFiles
       ++ skipn (S (Z.to_nat index)) selectedFiles
     /\ Z.of_nat (List.length (ChatScreen.removeFile selectedFiles index))
        = Z.of_nat (List.length selectedFiles) - 1)
  /\ (index < 0 \/ Z.of_nat (List.length selectedFiles) <= index ->
      ChatScreen.removeFile selectedFiles index = selectedFiles).
Proof.
  unfold ChatScreen.removeFile, filteri. rewrite filteri_from_remove.
  rewrite Z.sub_0_r, Z.add_0_l. split.
  - intros H.
    destruct (Z.leb_spec 0 index); [|lia].
    destruct (Z.ltb_spec index (Z.of_nat (List.length selectedFiles))); [|lia].
    cbn [andb]. split; [reflexivity|].
    rewrite length_app, length_firstn, length_skipn. lia.
  - intros H.
    destruct (Z.leb_spec 0 index);
      destruct (Z.ltb_spec index (Z.of_nat (List.length selectedFiles)));
      cbn [andb]; try reflexivity; lia.
Qed.

Lemma removeFile_at_index_witness :
  ChatScreen.removeFile [units "a.txt"; units "b.png"; units "c.pdf"] 1
  = [units "a.txt"; units "c.pdf"]
  /\ ChatScreen.removeFile [units "a.txt"; units "b.png"; units "c.pdf"] 3
     = [units "a.txt"; units "b.png"; units "c.pdf"].
Proof.
  split.
  - apply (proj1 (removeFile_at_index
                    [units "a.txt"; units "b.png"; units "c.pdf"] 1)).
    simpl. lia.
  - apply (proj2 (removeFile_at_index
                    [units "a.txt"; units "b.png"; units "c.pdf"] 3)).
    right. simpl. lia.
Defined.

Section SelectedFiles.
Context {host : Host}.

(** The loop over the selected files handles each file by itself: the
    reads, the attachments and the messages are those of the files, one
    file after the other. *)
Lemma processSelectedFiles_by_file (selectedFiles : list FileUtils.File)
    (fileExtras : list FileUtils.MessageExtra)
    (processingErrors : list jsstring) :
  ChatScreen.processSelectedFiles selectedFiles fileExtras processingErrors
  = (flat_map (fun file => fst (FileUtils.processFile file)) selectedFiles,
     (fileExtras ++ Spec.accepted selectedFiles,
      processingErrors ++ Spec.rejected selectedFiles)).
Proof.
  unfold Spec.accepted, Spec.rejected.
  revert fileExtras processingErrors.
  induction selectedFiles as [|file rest IH];
    intros fileExtras processingErrors.
  - simpl. now rewrite !app_nil_r.
  - cbn [ChatScreen.processSelectedFiles flat_map].
    destruct (FileUtils.processFile file) as [reads [fileExtra|message]];
      rewrite IH; cbn [fst snd]; rewrite <- !app_assoc; reflexivity.
Qed.

Lemma outcomes_count (selectedFiles : list FileUtils.File) :
  (List.length (Spec.accepted selectedFiles)
   + List.length (Spec.rejected selectedFiles))%nat
  = List.length selectedFiles.
Proof.
  unfold Spec.accepted, Spec.rejected.
  induction selectedFiles as [|file rest IH]; [reflexivity|].
  cbn [flat_map]. rewrite !length_app.
  destruct (snd (FileUtils.processFile file)); simpl List.length; lia.
Qed.

Lemma rejected_nil_iff (selectedFiles : list FileUtils.File) :
  Spec.rejected selectedFiles = []
  <-> forall file, In file selectedFiles ->
        exists fileExtra, snd (FileUtils.processFile file) = inl fileExtra.
Proof.
  unfold Spec.rejected.
  induction selectedFiles as [|file rest IH]; cbn [flat_map].
  - split; [intros _ f [] | reflexivity].
  - split.
    + intros H. apply app_eq_nil in H. destruct H as [H1 H2].
      intros f [<-|Hf]; [|now apply IH].
      destruct (snd (FileUtils.processFile file)); [eauto | discriminate].
    + intros H. destruct (H file (or_introl eq_refl)) as [x ->].
      simpl. apply IH. intros f Hf. apply H. now right.
Qed.

Lemma accepted_nil_iff (selectedFiles : list FileUtils.File) :
  Spec.accepted selectedFiles = []
  <-> forall file, In file selectedFiles ->
        exists message, snd (FileUtils.processFile file) = inr message.
Proof.
  unfold Spec.accepted.
  induction selectedFiles as [|file rest IH]; cbn [flat_map].
  - split; [intros _ f [] | reflexivity].
  - split.
    + intros H. apply app_eq_nil in H. destruct H as [H1 H2].
      intros f [<-|Hf]; [|now apply IH].
      destruct (snd (FileUtils.processFile file)); [discriminate | eauto].
    + intros H. destruct (H file (or_introl eq_refl)) as [x ->].
      simpl. apply IH. intros f Hf. apply H. now right.
Qed.

(** The file stage, by the numbers of rejected and accepted files. *)
Lemma fileStage_cases (selectedFiles : list FileUtils.File) :
  snd (ChatScreen.fileStage selectedFiles)
  = match Spec.rejected selectedFiles, Spec.accepted selectedFiles with
    | [], extras => ChatScreen.Proceed None extras
    | (_ :: _) as errors, [] =>
        ChatScreen.RestoreInput (ChatScreen.errorSummary errors)
    | (_ :: _) as errors, (_ :: _) as extras =>
        ChatScreen.Proceed (Some (ChatScreen.errorSummary errors)) extras
    end.
Proof.
  unfold ChatScreen.fileStage. rewrite processSelectedFiles_by_file.
  cbn [app]. pose proof (outcomes_count selectedFiles) as Hcount.
  destruct (Spec.rejected selectedFiles) as [|message errors];
    [reflexivity|].
  destruct (Spec.accepted selectedFiles) as [|fileExtra extras].
  - destruct selectedFiles; [discriminate Hcount | reflexivity].
  - reflexivity.
Qed.

(** X23.  In [sendNewMessage] every selected file is processed, whatever
    happens to the others: the attachments are those of the files that
    [processFile] accepts, in the order of the files, the messages those of
    the files it rejects, and the two together are as many as the files. *)
Theorem processSelectedFiles_each_file_once
    (selectedFiles : list FileUtils.File) :
  ChatScreen.processSelectedFiles selectedFiles [] []
  = (flat_map (fun file => fst (FileUtils.processFile file)) selectedFiles,
     (Spec.accepted selectedFiles, Spec.rejected selectedFiles))
  /\ (List.length (Spec.accepted selectedFiles)
      + List.length (Spec.rejected selectedFiles))%nat
     = List.length selectedFiles
  /\ forall more,
       Spec.accepted (selectedFiles ++ more)
       = Spec.accepted selectedFiles ++ Spec.accepted more
       /\ Spec.rejected (selectedFiles ++ more)
          = Spec.rejected selectedFiles ++ Spec.rejected more.
Proof.
  split; [apply processSelectedFiles_by_file|].
  split; [apply outcomes_count|].
  intros more. unfold Spec.accepted, Spec.rejected.
  now rewrite !flat_map_app.
Qed.

(** X24.  How the file stage of [sendNewMessage] ends.  The input is
    restored and nothing is sent exactly when there are selected files and
    [processFile] rejects every one of them.  No alert is shown exactly
    when it accepts every one.  Whenever the sending goes on, the message
    takes the attachments of all the accepted files. *)
Theorem fileStage_outcome (selectedFiles : list FileUtils.File) :
  ((exists alert,
      snd (ChatScreen.fileStage selectedFiles) = ChatScreen.RestoreInput alert)
   <-> selectedFiles <> []
       /\ forall file, In file selectedFiles ->
            exists message, snd (FileUtils.processFile file) = inr message)
  /\ ((exists fileExtras,
         snd (ChatScreen.fileStage selectedFiles)
         = ChatScreen.Proceed None fileExtras)
      <-> forall file, In file selectedFiles ->
            exists fileExtra, snd (FileUtils.processFile file) = inl fileExtra)
  /\ (forall alert fileExtras,
        snd (ChatScreen.fileStage selectedFiles)
        = ChatScreen.Proceed alert fileExtras ->
        fileExtras = Spec.accepted selectedFiles).
Proof.
  rewrite fileStage_cases.
  pose proof (outcomes_count selectedFiles) as Hcount.
  rewrite <- (rejected_nil_iff selectedFiles).
  rewrite <- (accepted_nil_iff selectedFiles).
  destruct (Spec.rejected selectedFiles) as [|message errors];
    destruct (Spec.accepted selectedFiles) as [|fileExtra extras].
  - split; [|split].
    + split; [intros [x H]; discriminate|].
      intros [Hne _]. destruct selectedFiles; [congruence | discriminate].
    + split; eauto.
    + intros alert fileExtras H. now injection H as _ <-.
  - split; [|split].
    + split; [intros [x H]; discriminate | intros [_ H]; discriminate].
    + split; eauto.
    + intros alert fileExtras H. now injection H as _ <-.
  - split; [|split].
    + split; [intros _|eauto]. split; [|reflexivity].
      intros E. rewrite E in Hcount. discriminate.
    + split; [intros [x H]; discriminate | discriminate].
    + intros alert fileExtras H. discriminate.
  - split; [|split].
    + split; [intros [x H]; discriminate | intros [_ H]; discriminate].
    + split; [intros [x H]; discriminate | discriminate].
    + intros alert fileExtras H. now injection H as _ <-.
Qed.

(** In the file stage, files above the size limit are rejected before
    anything is read. *)
Lemma fileStage_oversized_files (selectedFiles : list FileUtils.File) :
  selectedFiles <> [] ->
  (forall file, In file selectedFiles ->
     FileUtils.MAX_FILE_SIZE < FileUtils.size file) ->
  fst (ChatScreen.fileStage selectedFiles) = []
  /\ (exists alert,
        snd (ChatScreen.fileStage selectedFiles)
        = ChatScreen.RestoreInput alert)
  /\ (forall file, selectedFiles = [file] ->
        snd (ChatScreen.fileStage selectedFiles)
        = ChatScreen.RestoreInput
            (units "File " ++ QUOTE ++ FileUtils.name file ++ QUOTE
             ++ units " is too large. Maximum size is 10MB.")).
Proof.
  intros Hne Hbig.
  assert (Hrej : forall file, In file selectedFiles ->
            FileUtils.processFile file
            = ([], inr (units "File " ++ QUOTE ++ FileUtils.name file ++ QUOTE
                        ++ units " is too large. Maximum size is 10MB."))).
  { intros file Hin. unfold FileUtils.processFile.
    destruct (Z.ltb_spec FileUtils.MAX_FILE_SIZE (FileUtils.size file));
      [reflexivity|].
    specialize (Hbig file Hin). lia. }
  assert (Hacc : Spec.accepted selectedFiles = []).
  { apply accepted_nil_iff. intros file Hin.
    rewrite (Hrej file Hin). simpl. eauto. }
  split; [|split].
  - unfold ChatScreen.fileStage. rewrite processSelectedFiles_by_file.
    cbn [app].
    assert (Hreads : flat_map (fun file => fst (FileUtils.processFile file))
                              selectedFiles = []).
    { apply flat_map_nil. intros file Hin. now rewrite (Hrej file Hin). }
    rewrite Hreads.
    destruct (0 <? _); [destruct (_ && _)|]; reflexivity.
  - rewrite fileStage_cases, Hacc.
    pose proof (outcomes_count selectedFiles) as Hcount.
    rewrite Hacc in Hcount.
    destruct (Spec.rejected selectedFiles) as [|message errors]; [|eauto].
    destruct selectedFiles; [congruence | discriminate].
  - intros file ->. unfold ChatScreen.fileStage.
    cbn [ChatScreen.processSelectedFiles].
    rewrite (Hrej file (or_introl eq_refl)). reflexivity.
Qed.

(** X25.  [sendNewMessage] and files above the size limit.  For a message
    that is blank, or while a generation is running, nothing happens: no
    file is read and no alert is shown.  Otherwise, when every selected
    file is larger than 10 MiB, and there is one at least, the sending
    stops before anything is read: no read is started and the input is
    restored after an alert; for a single such file the alert is the size
    message of [processFile]. *)
Theorem sendNewMessage_oversized_files (lastInpMsg : jsstring)
    (isGenerating : bool) (selectedFiles : list FileUtils.File) :
  selectedFiles <> [] ->
  (forall file, In file selectedFiles ->
     FileUtils.MAX_FILE_SIZE < FileUtils.size file) ->
  (blank lastInpMsg \/ isGenerating = true ->
   ChatScreen.sendNewMessage lastInpMsg isGenerating selectedFiles
   = ([], None))
  /\ (~ blank lastInpMsg -> isGenerating = false ->
      fst (ChatScreen.sendNewMessage lastInpMsg isGenerating selectedFiles)
      = []
      /\ (exists alert,
            snd (ChatScreen.sendNewMessage lastInpMsg isGenerating
                                           selectedFiles)
            = Some (ChatScreen.RestoreInput alert))
      /\ (forall file, selectedFiles = [file] ->
            snd (ChatScreen.sendNewMessage lastInpMsg isGenerating
                                           selectedFiles)
            = Some (ChatScreen.RestoreInput
                      (units "File " ++ QUOTE ++ FileUtils.name file ++ QUOTE
                       ++ units " is too large. Maximum size is 10MB.")))).
Proof.
  intros Hne Hbig. unfold ChatScreen.sendNewMessage. split.
  - intros [Hblank | ->].
    + apply trim_nil in Hblank. rewrite Hblank. reflexivity.
    + now rewrite orb_true_r.
  - intros Hmsg ->. rewrite orb_false_r.
    destruct (trim lastInpMsg) as [|c rest] eqn:Htrim;
      [exfalso; apply Hmsg; now apply trim_nil|].
    replace (String_length (c :: rest) =? 0) with false
      by (symmetry; apply Z.eqb_neq; unfold String_length;
          simpl List.length; lia).
    destruct (fileStage_oversized_files selectedFiles Hne Hbig)
      as (Hreads & [alert Halert] & Hone).
    destruct (ChatScreen.fileStage selectedFiles) as [reads stage].
    cbn [fst snd] in *. subst reads. split; [reflexivity|].
    split; [exists alert; now rewrite Halert|].
    intros file E. now rewrite (Hone file E).
Qed.

End SelectedFiles.

Lemma fileStage_outcome_witness :
  let good := {| FileUtils.name := units "notes.txt"; FileUtils.type := [];
                 FileUtils.size := 3;
                 FileUtils.asText := FileUtils.Load (Some (units "abc"));
                 FileUtils.asDataURL := FileUtils.ReadError |} in
  let bad := {| FileUtils.name := units "scan.pdf";
                FileUtils.type := units "application/pdf";
                FileUtils.size := 2048;
                FileUtils.asText := FileUtils.ReadError;
                FileUtils.asDataURL := FileUtils.ReadError |} in
  (exists alert,
     snd (@ChatScreen.fileStage AsciiHost [bad; bad])
     = ChatScreen.RestoreInput alert)
  /\ (exists fileExtras,
        snd (@ChatScreen.fileStage AsciiHost [good])
        = ChatScreen.Proceed None fileExtras)
  /\ forall alert fileExtras,
       snd (@ChatScreen.fileStage AsciiHost [bad; good; bad])
       = ChatScreen.Proceed alert fileExtras ->
       fileExtras = [FileUtils.TextFile (units "notes.txt") (units "abc")].
Proof.
  intros good bad. split; [|split].
  - apply (proj1 (@fileStage_outcome AsciiHost [bad; bad])).
    split; [discriminate|].
    intros file [<-|[<-|[]]]; eexists; reflexivity.
  - apply (proj1 (proj2 (@fileStage_outcome AsciiHost [good]))).
    intros file [<-|[]]; eexists; reflexivity.
  - intros alert fileExtras H.
    apply (proj2 (proj2 (@fileStage_outcome AsciiHost [bad; good; bad]))) in H.
    rewrite H. reflexivity.
Defined.

Lemma sendNewMessage_oversized_files_witness :
  let big := {| FileUtils.name := units "movie.mp4";
                FileUtils.type := units "video/mp4";
                FileUtils.size := 10 * 1024 * 1024 + 1;
                FileUtils.asText := FileUtils.ReadError;
                FileUtils.asDataURL :=
                  FileUtils.Load (Some (units "data:video/mp4;base64,AAAA")) |} in
  @ChatScreen.sendNewMessage AsciiHost (units "  ") false [big] = ([], None)
  /\ @ChatScreen.sendNewMessage AsciiHost (units "what is this?") true [big]
     = ([], None)
  /\ @ChatScreen.sendNewMessage AsciiHost (units "what is this?") false [big]
     = ([], Some (ChatScreen.RestoreInput
                    (units "File " ++ QUOTE ++ units "movie.mp4" ++ QUOTE
                     ++ units " is too large. Maximum size is 10MB."))).
Proof.
  intros big.
  assert (Hne : [big] <> []) by discriminate.
  assert (Hbig : forall file, In file [big] ->
                   FileUtils.MAX_FILE_SIZE < FileUtils.size file)
    by (intros file [<-|[]]; vm_compute; reflexivity).
  split; [|split].
  - apply (proj1 (@sendNewMessage_oversized_files AsciiHost
                    (units "  ") false [big] Hne Hbig)).
    left. repeat constructor.
  - apply (proj1 (@sendNewMessage_oversized_files AsciiHost
                    (units "what is this?") true [big] Hne Hbig)).
    now right.
  - destruct (proj2 (@sendNewMessage_oversized_files AsciiHost
                       (units "what is this?") false [big] Hne Hbig))
      as (Hreads & _ & Hone).
    + intros Hb. inversion Hb. discriminate.
    + reflexivity.
    + rewrite (surjective_pairing
                 (@ChatScreen.sendNewMessage AsciiHost
                    (units "what is this?") false [big])).
      now rewrite Hreads, (Hone big eq_refl).
Defined.

(** ** formatFileSize: below the first multiple *)

(** X26.  A byte count from 1 to 1023 is written as it is, followed by
    the unit B. *)
Theorem formatFileSize_bytes (bytes : Z) :
  0 < bytes < 1024 ->
  FileUtils.formatFileSize bytes = Number_toString bytes ++ units " B".
Proof.
  intros H. unfold FileUtils.formatFileSize.
  destruct (Z.eqb_spec bytes 0); [lia|].
  destruct (Z.ltb_spec bytes 0); [lia|].
  cbv zeta.
  assert (Hi : FileUtils.floorLog1024 bytes = 0).
  { unfold FileUtils.floorLog1024.
    assert (Z.log2 bytes < 10) by (apply Z.log2_lt_pow2; lia).
    pose proof (Z.log2_nonneg bytes). Z.div_mod_to_equations; lia. }
  rewrite Hi, parseFloat_toString_toFixed1.
  change (1024 ^ 0) with 1.
  assert (Hn : FileUtils.roundTenths bytes 1 = 10 * bytes)
    by (unfold FileUtils.roundTenths; Z.div_mod_to_equations; lia).
  rewrite Hn. unfold Spec.tenths.
  replace (10 * bytes / 10) with bytes by (Z.div_mod_to_equations; lia).
  replace ((10 * bytes) mod 10) with 0 by (Z.div_mod_to_equations; lia).
  cbn [Z.eqb]. rewrite app_nil_r. reflexivity.
Qed.

Lemma formatFileSize_bytes_witness :
  0 < 1023 < 1024 /\ FileUtils.formatFileSize 1023 = units "1023 B".
Proof.
  assert (H : 0 < 1023 < 1024) by lia.
  split; [exact H|]. rewrite (formatFileSize_bytes 1023 H). reflexivity.
Defined.
